(** * PCF-SmartButton: the template resolver, the record cache and the
      expression evaluator, embedded from [SmartButton.tsx] and
      [ExpressionEvaluator.ts].

    Strings are sequences of 8-bit code units ([string]); every character
    the source tests for (braces, dot, parentheses, digits, identifier
    characters, the dollar sign) is ASCII.  Numbers are the integer-valued
    ones ([Z]); fractional numbers are not represented.  A record returned
    by the Web API is a plain object: a finite map from attribute names to
    values, behind which stand the members of [Object.prototype]. *)

From Stdlib Require Import ZArith Lia List Ascii String Sorted Permutation.
From stdpp Require Import base option gmap sets list strings pretty.

Local Open Scope string_scope.
Local Open Scope list_scope.
Local Open Scope Z_scope.
#[local] Set Warnings "-clear-no-such-hyp".

(** ** JS values and records *)

Inductive value : Type :=
| VUndefined
| VNull
| VBool (b : bool)
| VNum (n : Z)
| VStr (s : string)
| VDate (src : string)
| VInherited (name : string).

#[global] Instance value_eq_dec : EqDecision value.
Proof. solve_decision. Defined.

Abbreviation JsRecord := (gmap string value).

(** The names every plain object answers to without having them as
    attributes: the members of [Object.prototype].  [VInherited name] is
    the member called [name], a built-in function, or the prototype object
    itself for [__proto__]. *)
Definition objectPrototypeMembers : list string :=
  ["constructor"; "hasOwnProperty"; "isPrototypeOf"; "propertyIsEnumerable";
   "toLocaleString"; "toString"; "valueOf"; "__defineGetter__"; "__defineSetter__";
   "__lookupGetter__"; "__lookupSetter__"; "__proto__"].

Definition inheritsMember (k : string) : bool :=
  bool_decide (k ∈ objectPrototypeMembers).

(** [r[k]]: the attribute of that name, else the inherited member of that
    name, else undefined. *)
Definition getField (r : JsRecord) (k : string) : value :=
  match r !! k with
  | Some v => v
  | None => if inheritsMember k then VInherited k else VUndefined
  end.

(** [a ?? b] *)
Definition nullish (a b : value) : value :=
  match a with
  | VUndefined | VNull => b
  | _ => a
  end.

(** Truthiness, as used by [if (v)], [!v] and [a && b]. *)
Definition truthy (v : value) : bool :=
  match v with
  | VUndefined | VNull => false
  | VBool b => b
  | VNum n => negb (n =? 0)
  | VStr s => negb (String.eqb s "")
  | VDate _ => true
  | VInherited _ => true
  end.

(** The result of a call that may throw. *)
Inductive outcome (A : Type) : Type :=
| Returned (a : A)
| Thrown.
Arguments Returned {A} a.
Arguments Thrown {A}.

(** ** String primitives *)

Definition isDigit (c : ascii) : bool :=
  let n := nat_of_ascii c in (48 <=? n)%nat && (n <=? 57)%nat.

Definition isUpper (c : ascii) : bool :=
  let n := nat_of_ascii c in (65 <=? n)%nat && (n <=? 90)%nat.

Definition isLower (c : ascii) : bool :=
  let n := nat_of_ascii c in (97 <=? n)%nat && (n <=? 122)%nat.

(** [[a-zA-Z0-9_]] *)
Definition isIdentChar (c : ascii) : bool :=
  isLower c || isUpper c || isDigit c || Ascii.eqb c "_".

(** [\s], restricted to code units below 256. *)
Definition isSpace (c : ascii) : bool :=
  let n := nat_of_ascii c in
  ((9 <=? n)%nat && (n <=? 13)%nat) || (n =? 32)%nat || (n =? 160)%nat.

(** Line terminators, which the regex dot does not match. *)
Definition isLineTerminator (c : ascii) : bool :=
  let n := nat_of_ascii c in (n =? 10)%nat || (n =? 13)%nat.

Definition lowerChar (c : ascii) : ascii :=
  if isUpper c then ascii_of_nat (nat_of_ascii c + 32) else c.

Fixpoint toLowerCase (s : string) : string :=
  match s with
  | EmptyString => EmptyString
  | String c s' => String (lowerChar c) (toLowerCase s')
  end.

Fixpoint includesChar (c : ascii) (s : string) : bool :=
  match s with
  | EmptyString => false
  | String a s' => Ascii.eqb a c || includesChar c s'
  end.

Fixpoint allChars (p : ascii -> bool) (s : string) : bool :=
  match s with
  | EmptyString => true
  | String a s' => p a && allChars p s'
  end.

(** [s.startsWith(p)] *)
Definition startsWith (p s : string) : bool := String.prefix p s.

(** [s.substring(n)] *)
Fixpoint dropChars (n : nat) (s : string) : string :=
  match n, s with
  | O, _ => s
  | S n', String _ s' => dropChars n' s'
  | S _, EmptyString => EmptyString
  end.

(** The longest prefix of [s] made of characters satisfying [p], and what
    follows it: a greedy character-class repetition. *)
Fixpoint spanChars (p : ascii -> bool) (s : string) : string * string :=
  match s with
  | EmptyString => (EmptyString, EmptyString)
  | String c s' =>
      if p c then let '(a, b) := spanChars p s' in (String c a, b)
      else (EmptyString, s)
  end.

(** [s.split(c)] for a one-character separator. *)
Fixpoint splitOn (c : ascii) (s : string) : list string :=
  match s with
  | EmptyString => [EmptyString]
  | String a s' =>
      if Ascii.eqb a c then EmptyString :: splitOn c s'
      else match splitOn c s' with
           | x :: xs => String a x :: xs
           | [] => [String a EmptyString]
           end
  end.

Fixpoint ltrim (s : string) : string :=
  match s with
  | String c s' => if isSpace c then ltrim s' else s
  | EmptyString => EmptyString
  end.

Fixpoint rtrim (s : string) : string :=
  match s with
  | EmptyString => EmptyString
  | String c s' =>
      match rtrim s' with
      | EmptyString => if isSpace c then EmptyString else String c EmptyString
      | t => String c t
      end
  end.

(** [s.trim()] *)
Definition trim (s : string) : string := rtrim (ltrim s).

Fixpoint lastChar (s : string) : option ascii :=
  match s with
  | EmptyString => None
  | String c EmptyString => Some c
  | String _ s' => lastChar s'
  end.

Fixpoint dropLastChar (s : string) : string :=
  match s with
  | EmptyString => EmptyString
  | String _ EmptyString => EmptyString
  | String c s' => String c (dropLastChar s')
  end.

(** The first occurrence of [search] in [text]: what precedes it and what
    follows it. *)
Fixpoint findFirst (search text : string) : option (string * string) :=
  if String.prefix search text
  then Some (EmptyString, dropChars (String.length search) text)
  else match text with
       | EmptyString => None
       | String c t =>
           match findFirst search t with
           | Some (before, after) => Some (String c before, after)
           | None => None
           end
       end.

(** The replacement patterns of [String.prototype.replace] when the
    pattern is a string: [$$], [$&], [$`] and [$']; with no capture groups
    every other [$] stands for itself. *)
Fixpoint getSubstitution (matched before after replacement : string) : string :=
  match replacement with
  | EmptyString => EmptyString
  | String "$" (String "$" r) =>
      String "$" (getSubstitution matched before after r)
  | String "$" (String "&" r) =>
      matched +:+ getSubstitution matched before after r
  | String "$" (String "`" r) =>
      before +:+ getSubstitution matched before after r
  | String "$" (String "'" r) =>
      after +:+ getSubstitution matched before after r
  | String c r => String c (getSubstitution matched before after r)
  end.

(** [text.replace(search, replacement)] with a string pattern: only the
    first occurrence is replaced. *)
Definition jsReplace (text search replacement : string) : string :=
  match findFirst search text with
  | None => text
  | Some (before, after) =>
      before +:+ getSubstitution search before after replacement +:+ after
  end.

(** ** The timestamp pattern
    [/^\d{4}-\d{2}-\d{2}(T|\s)\d{2}:\d{2}:\d{2}(Z|[+-]\d{2}:\d{2})?$/] *)

Definition isChar (c : ascii) : ascii -> bool := fun a => Ascii.eqb a c.

(** Match one character class per character; the rest of the input. *)
Fixpoint matchClasses (classes : list (ascii -> bool)) (s : string) : option string :=
  match classes with
  | [] => Some s
  | p :: classes' =>
      match s with
      | String c s' => if p c then matchClasses classes' s' else None
      | EmptyString => None
      end
  end.

Definition dateTimeClasses : list (ascii -> bool) :=
  [isDigit; isDigit; isDigit; isDigit; isChar "-"; isDigit; isDigit; isChar "-";
   isDigit; isDigit; (fun c => Ascii.eqb c "T" || isSpace c);
   isDigit; isDigit; isChar ":"; isDigit; isDigit; isChar ":"; isDigit; isDigit].

Definition offsetClasses : list (ascii -> bool) :=
  [(fun c => Ascii.eqb c "+" || Ascii.eqb c "-");
   isDigit; isDigit; isChar ":"; isDigit; isDigit].

Definition isDateString (str : string) : bool :=
  match matchClasses dateTimeClasses str with
  | None => false
  | Some rest =>
      if String.eqb rest "" then true
      else if String.eqb rest "Z" then true
      else match matchClasses offsetClasses rest with
           | Some EmptyString => true
           | _ => false
           end
  end.

(** ** Global regex scans *)

(** The [while ((match = regex.exec(text)) !== null)] loop of a global
    regex whose matches are never empty: [matchAt] tries the regex at the
    start of its argument and gives the result with the length matched;
    the scan resumes right after each match. *)
Fixpoint regexExecAll {A : Type} (matchAt : string -> option (A * nat))
    (skip : nat) (text : string) : list A :=
  match text with
  | EmptyString => []
  | String _ rest =>
      match skip with
      | S k => regexExecAll matchAt k rest
      | O =>
          match matchAt text with
          | Some (a, len) => a :: regexExecAll matchAt (Nat.pred len) rest
          | None => regexExecAll matchAt O rest
          end
      end
  end.

Definition notCloseBrace (c : ascii) : bool := negb (Ascii.eqb c "}").
Definition notParen (c : ascii) : bool :=
  negb (Ascii.eqb c "(") && negb (Ascii.eqb c ")").

(** [/\{([^}]+)\}/] at the start of [s]: the captured path and the rest. *)
Definition matchBraces (s : string) : option (string * string) :=
  match s with
  | String "{" s1 =>
      match spanChars notCloseBrace s1 with
      | (String c p, String "}" s2) => Some (String c p, s2)
      | _ => None
      end
  | _ => None
  end.

(** [(\.[a-zA-Z0-9_]+(?:\([^()]*\))?)?] at the start of [s]: the text of
    the group when it takes part in the match. *)
Definition matchMethodCall (s : string) : option string :=
  match s with
  | String "." s1 =>
      match spanChars isIdentChar s1 with
      | (EmptyString, _) => None
      | (ident, String "(" s2) =>
          match spanChars notParen s2 with
          | (args, String ")" _) => Some ("." +:+ ident +:+ "(" +:+ args +:+ ")")
          | _ => Some ("." +:+ ident)
          end
      | (ident, _) => Some ("." +:+ ident)
      end
  | _ => None
  end.

(** The data object of an evaluation, given by the assignments
    [data[reference] = value] made on a fresh object, in order. *)
Abbreviation DataObject := (list (string * value)).

(** ** The host: Web API and JS engine *)

(** What the code obtains from its environment.  [webAPI_retrieveRecord] is
    [context.webAPI.retrieveRecord] ([None]: the promise rejects); the
    other fields are the JS engine's dynamic dispatch on a value that is
    neither null nor undefined, [JSON.parse], [String(new Date(s))], the
    text [String] gives for a number that is not a safe integer (rounded
    digits from 2^53, exponent form from 10^21) and for an inherited
    member, and the evaluation of the function text that
    [safeEvaluateWithData] builds from an expression, on the data object
    and the record ([None]: the construction or the call throws). *)
Record Host : Type := {
  webAPI_retrieveRecord : string -> string -> option JsRecord;
  isFunction : value -> string -> bool;
  callMethod : value -> string -> list value -> option value;
  JSON_parse : string -> option value;
  dateToString : string -> string;
  numberToString : Z -> string;
  inheritedToString : string -> string;
  runExpression : string -> DataObject -> JsRecord -> option bool
}.

Definition MAX_SAFE_INTEGER : Z := 9007199254740991.

(** [String(v)] *)
Definition toJsString (h : Host) (v : value) : string :=
  match v with
  | VUndefined => "undefined"
  | VNull => "null"
  | VBool true => "true"
  | VBool false => "false"
  | VNum n => if Z.abs n <=? MAX_SAFE_INTEGER then pretty n else numberToString h n
  | VStr s => s
  | VDate src => dateToString h src
  | VInherited name => inheritedToString h name
  end.

Definition idFieldOf (lookup : string) : string := "_" +:+ lookup +:+ "_value".
Definition logicalNameFieldOf (lookup : string) : string :=
  "_" +:+ lookup +:+ "_value@Microsoft.Dynamics.CRM.lookuplogicalname".

Fixpoint joinWith (sep : string) (l : list string) : string :=
  match l with
  | [] => EmptyString
  | [x] => x
  | x :: l' => x +:+ sep +:+ joinWith sep l'
  end.

(** [parts[parts.length - 1]] and [parts.slice(0, -1)] *)
Definition lastPart (parts : list string) : string := List.last parts "undefined".
Definition initParts (parts : list string) : list string := List.removelast parts.

Inductive Level : Type := LWarn | LError.

(** ** ExpressionEvaluator.ts *)

Module ExpressionEvaluator.

Record Evaluator : Type := {
  relatedRecordsCache : gmap string JsRecord;
  requests : list (string * string);
  console : list (Level * string)
}.

Definition newEvaluator : Evaluator :=
  {| relatedRecordsCache := ∅; requests := []; console := [] |}.

Definition logTo (lvl : Level) (msg : string) (ev : Evaluator) : Evaluator :=
  {| relatedRecordsCache := relatedRecordsCache ev;
     requests := requests ev;
     console := console ev ++ [(lvl, msg)] |}.

Definition matchReference (s : string) : option (string * nat) :=
  match matchBraces s with
  | Some (path, _) => Some (path, S (S (String.length path)))
  | None => None
  end.

Definition extractFieldReferences (expression : string) : list string :=
  regexExecAll matchReference O expression.

Definition convertValueToProperType (v : value) : value :=
  match v with
  | VNull | VUndefined => VNull
  | VStr s => if isDateString s then VDate s else VStr s
  | VDate s => VDate s
  | other => other
  end.

Section WithHost.
Context (h : Host) (record : JsRecord).

(** Attribute values are strings in Dataverse; a truthy value of another
    type is handed to the Web API in its string form. *)
Definition retrieveRecord (entityName id : value) (ev : Evaluator)
    : option JsRecord * Evaluator :=
  let e := toJsString h entityName in
  let i := toJsString h id in
  let ev1 := {| relatedRecordsCache := relatedRecordsCache ev;
                requests := requests ev ++ [(e, i)];
                console := console ev |} in
  match webAPI_retrieveRecord h e i with
  | Some r => (Some r, ev1)
  | None => (None, logTo LError "Error retrieving record" ev1)
  end.

(** One hop of [fetchRelatedRecord]: read the two lookup attributes off
    [current] and fetch the record they name. *)
Definition lookupHop (current : JsRecord) (lookup : string) (ev : Evaluator)
    : option JsRecord * Evaluator :=
  let currentId := getField current (idFieldOf lookup) in
  let currentEntity := getField current (logicalNameFieldOf lookup) in
  if negb (truthy currentId) || negb (truthy currentEntity) then (None, ev)
  else retrieveRecord currentEntity currentId ev.

(** The [for (let i = 1; ...)] loop: a missing hop returns null. *)
Fixpoint fetchNextLevels (lookups : list string) (result : JsRecord)
    (ev : Evaluator) : option JsRecord * Evaluator :=
  match lookups with
  | [] => (Some result, ev)
  | nextLookup :: rest =>
      match lookupHop result nextLookup ev with
      | (None, ev') => (None, ev')
      | (Some nextRecord, ev') => fetchNextLevels rest nextRecord ev'
      end
  end.

Definition fetchRelatedRecord (lookupPath : list string) (ev : Evaluator)
    : option JsRecord * Evaluator :=
  match lookupPath with
  | [] => (None, ev)
  | firstLookup :: rest =>
      match lookupHop record firstLookup ev with
      | (None, ev') => (None, ev')
      | (Some result, ev') => fetchNextLevels rest result ev'
      end
  end.

Definition getRelatedFieldValue (path : string) (ev : Evaluator)
    : value * Evaluator :=
  let parts := splitOn "." path in
  let lookupPath := initParts parts in
  let finalField := lastPart parts in
  let cacheKey := joinWith "." lookupPath in
  let '(relatedRecord, ev') :=
    match relatedRecordsCache ev !! cacheKey with
    | Some r => (Some r, ev)
    | None =>
        match fetchRelatedRecord lookupPath ev with
        | (Some r, ev1) =>
            (Some r, {| relatedRecordsCache := <[cacheKey := r]> (relatedRecordsCache ev1);
                        requests := requests ev1;
                        console := console ev1 |})
        | (None, ev1) => (None, ev1)
        end
    end in
  match relatedRecord with
  | Some r =>
      match getField r finalField with
      | VUndefined => (VNull, ev')
      | v => (v, ev')
      end
  | None => (VNull, ev')
  end.

Fixpoint createDataObject (fieldReferences : list string) (data : DataObject)
    : DataObject :=
  match fieldReferences with
  | [] => data
  | reference :: rest =>
      if includesChar "." reference then createDataObject rest data
      else createDataObject rest
             (data ++ [(reference, convertValueToProperType (getField record reference))])
  end.

Fixpoint createDataObjectAsync (fieldReferences : list string) (data : DataObject)
    (ev : Evaluator) : DataObject * Evaluator :=
  match fieldReferences with
  | [] => (data, ev)
  | reference :: rest =>
      if includesChar "." reference then
        let '(v, ev') := getRelatedFieldValue reference ev in
        createDataObjectAsync rest (data ++ [(reference, convertValueToProperType v)]) ev'
      else
        createDataObjectAsync rest
          (data ++ [(reference, convertValueToProperType (getField record reference))]) ev
  end.

(** The rewriting of the expression and the [Function] built from it are
    the host's; a throw gives [false] and an error on the console. *)
Definition safeEvaluateWithData (expression : string) (data : DataObject)
    (ev : Evaluator) : bool * Evaluator :=
  match runExpression h expression data record with
  | Some b => (b, ev)
  | None => (false, logTo LError "Safe evaluate error" ev)
  end.

Definition evaluate (expression : string) (ev : Evaluator) : bool * Evaluator :=
  if String.eqb expression "" then (true, ev)
  else
    let fieldReferences := extractFieldReferences expression in
    if existsb (includesChar ".") fieldReferences then
      (false, logTo LWarn
         "Expression contains related fields and cannot be evaluated synchronously" ev)
    else safeEvaluateWithData expression (createDataObject fieldReferences []) ev.

Definition evaluateAsync (expression : string) (ev : Evaluator) : bool * Evaluator :=
  if String.eqb expression "" then (true, ev)
  else
    let fieldReferences := extractFieldReferences expression in
    let '(data, ev') := createDataObjectAsync fieldReferences [] ev in
    safeEvaluateWithData expression data ev'.

End WithHost.
End ExpressionEvaluator.

(** ** SmartButton.tsx *)

Module SmartButton.

Record ButtonConfig : Type := {
  theia_buttonlabel : string;
  theia_url : string;
  theia_buttonposition : Z;
  theia_buttontooltip : option string;
  theia_tablename : string;
  theia_buttonicon : option string;
  theia_visibilityexpression : option string;
  theia_showaslink : bool;
  theia_actionscript : option string;
  isVisible : option bool
}.

(** [{ record?, isLoading? }] *)
Record CacheEntry : Type := {
  entryRecord : option JsRecord;
  entryIsLoading : bool
}.

Definition loadingEntry : CacheEntry :=
  {| entryRecord := None; entryIsLoading := true |}.
Definition loadedEntry (r : JsRecord) : CacheEntry :=
  {| entryRecord := Some r; entryIsLoading := false |}.

(** The mutable state one component instance works on: the page-wide
    [window.recordCache], its own [fetchedRecordKeys] ref, and the calls it
    has made to [context.webAPI.retrieveRecord].  In the functions below a
    call runs to its end with nothing in between; what the component's
    own handlers do while a retrieval is suspended is followed operation
    by operation in [retrievalTrace]. *)
Record Component : Type := {
  recordCache : gmap string CacheEntry;
  fetchedRecordKeys : gset string;
  webRequests : list (string * string)
}.

Definition withCache (f : gmap string CacheEntry -> gmap string CacheEntry)
    (st : Component) : Component :=
  {| recordCache := f (recordCache st);
     fetchedRecordKeys := fetchedRecordKeys st;
     webRequests := webRequests st |}.

Definition trackKey (cacheKey : string) (st : Component) : Component :=
  {| recordCache := recordCache st;
     fetchedRecordKeys := {[cacheKey]} ∪ fetchedRecordKeys st;
     webRequests := webRequests st |}.

Definition logRequest (entityName recordId : string) (st : Component) : Component :=
  {| recordCache := recordCache st;
     fetchedRecordKeys := fetchedRecordKeys st;
     webRequests := webRequests st ++ [(entityName, recordId)] |}.

(** [fetchedRecordKeys.current.forEach(key => { delete cache[key]; })] *)
Definition deleteFetchedKeys (st : Component) : Component :=
  withCache (fun c => set_fold (fun key acc => delete key acc) c (fetchedRecordKeys st)) st.

(** The post-save handler also bumps a counter that makes the component
    fetch its record again; the counter is React state and is left out. *)
Definition handlePostSave (st : Component) : Component := deleteFetchedKeys st.
Definition unmountCleanup (st : Component) : Component := deleteFetchedKeys st.

Definition MAX_RETRIES : nat := 5.

Definition cacheKeyOf (entityName recordId : string) : string :=
  entityName +:+ ":" +:+ recordId.

(** *** The retrieval, one operation at a time

    What [retrieveRecordWithCache] and the two handlers do to the shared
    state, as single operations: [fetchedRecordKeys.current.add(key)],
    [cache[key] = { isLoading: true }], [cache[key] = { record }],
    [delete cache[key]], the call of [context.webAPI.retrieveRecord], and
    the [forEach] loop of a handler, which deletes every tracked key. *)
Inductive Op : Type :=
| OpTrack (cacheKey : string)
| OpSetLoading (cacheKey : string)
| OpSetRecord (cacheKey : string) (r : JsRecord)
| OpDelete (cacheKey : string)
| OpRequest (entityName recordId : string)
| OpDeleteFetched.

Definition applyOp (op : Op) (st : Component) : Component :=
  match op with
  | OpTrack cacheKey => trackKey cacheKey st
  | OpSetLoading cacheKey => withCache (insert cacheKey loadingEntry) st
  | OpSetRecord cacheKey r => withCache (insert cacheKey (loadedEntry r)) st
  | OpDelete cacheKey => withCache (delete cacheKey) st
  | OpRequest entityName recordId => logRequest entityName recordId st
  | OpDeleteFetched => deleteFetchedKeys st
  end.

Definition applyOps (ops : list Op) (st : Component) : Component :=
  List.fold_left (fun s op => applyOp op s) ops st.

(** The key an operation writes an entry under, if it writes one. *)
Definition writes (op : Op) : option string :=
  match op with
  | OpSetLoading cacheKey | OpSetRecord cacheKey _ => Some cacheKey
  | _ => None
  end.

(** Where a retrieval is suspended: at the timer before the recursive
    call that follows the attempt [retryCount], or at the answer of the
    Web API. *)
Inductive Await : Type :=
| AwaitDelay (retryCount : nat)
| AwaitWebAPI.

(** A suspended retrieval.  [retrievalCatches] counts the recursive calls
    it is nested in: each of them has a [catch] that deletes the entry and
    rethrows. *)
Record Retrieval : Type := {
  retrievalEntity : string;
  retrievalId : string;
  retrievalAwait : Await;
  retrievalCatches : nat
}.

(** What may happen while a retrieval is suspended: it is resumed, or the
    form is saved, or the component is unmounted. *)
Inductive Event : Type := EvResume | EvPostSave | EvUnmount.

Record FieldRef : Type := {
  fullMatch : string;
  fieldPath : string;
  methodCall : option string
}.

(** [/\{([^}]+)\}(\.[a-zA-Z0-9_]+(?:\([^()]*\))?)?/] at the start of [s]. *)
Definition matchFieldRef (s : string) : option (FieldRef * nat) :=
  match matchBraces s with
  | Some (path, rest) =>
      let m := matchMethodCall rest in
      let full := "{" +:+ path +:+ "}" +:+ default EmptyString m in
      Some ({| fullMatch := full; fieldPath := path; methodCall := m |},
            String.length full)
  | None => None
  end.

Definition extractFieldRefs (text : string) : list FieldRef :=
  regexExecAll matchFieldRef O text.

(** The prefix of [s] before its last [c]. *)
Fixpoint beforeLast (c : ascii) (s : string) : option string :=
  match s with
  | EmptyString => None
  | String a s' =>
      match beforeLast c s' with
      | Some t => Some (String a t)
      | None => if Ascii.eqb a c then Some EmptyString else None
      end
  end.

(** The argument text of [methodCall]: the regex that takes an open
    parenthesis, then greedily any characters but line terminators, then a
    close parenthesis; the capture is what lies between. *)
Fixpoint argsMatch (s : string) : option string :=
  match s with
  | EmptyString => None
  | String c s' =>
      if Ascii.eqb c "(" then
        match beforeLast ")" (fst (spanChars (fun a => negb (isLineTerminator a)) s')) with
        | Some inner => Some inner
        | None => argsMatch s'
        end
      else argsMatch s'
  end.

Definition isQuote (c : ascii) : bool :=
  Ascii.eqb c "'" || Ascii.eqb c (ascii_of_nat 34).

(** The quote stripping of an argument that is not JSON: a leading and a
    trailing quote character (single or double) around text without line
    terminators are removed. *)
Definition stripQuotes (arg : string) : string :=
  match arg with
  | String q rest =>
      match lastChar rest with
      | Some q' =>
          if isQuote q && isQuote q'
             && allChars (fun a => negb (isLineTerminator a)) (dropLastChar rest)
          then dropLastChar rest else arg
      | None => arg
      end
  | EmptyString => arg
  end.

Section WithHost.
Context (h : Host).

(** The last part of [retrieveRecordWithCache]: mark the key as loading,
    call the Web API, then store the record or, when the call fails,
    delete the entry and rethrow. *)
Definition fetchAndStore (entityName recordId : string) (st : Component)
    : outcome JsRecord * Component :=
  let cacheKey := cacheKeyOf entityName recordId in
  let st1 := logRequest entityName recordId
               (withCache (insert cacheKey loadingEntry) st) in
  match webAPI_retrieveRecord h entityName recordId with
  | Some r => (Returned r, withCache (insert cacheKey (loadedEntry r)) st1)
  | None => (Thrown, withCache (delete cacheKey) st1)
  end.

Definition entryLoading (e : option CacheEntry) : bool :=
  match e with
  | Some e => entryIsLoading e
  | None => false
  end.

(** [retryCount] runs from 0 to [MAX_RETRIES]; the recursion is on the
    attempts that remain, [MAX_RETRIES - retryCount]. *)
Fixpoint retrieveAttempt (attemptsLeft : nat) (entityName recordId : string)
    (st0 : Component) : outcome JsRecord * Component :=
  let cacheKey := cacheKeyOf entityName recordId in
  let st := trackKey cacheKey st0 in
  match recordCache st !! cacheKey ≫= entryRecord with
  | Some r => (Returned r, st)
  | None =>
      if entryLoading (recordCache st !! cacheKey) then
        match attemptsLeft with
        | O => fetchAndStore entityName recordId (withCache (delete cacheKey) st)
        | S n =>
            match retrieveAttempt n entityName recordId st with
            | (Returned r, st') => (Returned r, st')
            | (Thrown, st') => (Thrown, withCache (delete cacheKey) st')
            end
        end
      else fetchAndStore entityName recordId st
  end.

Definition retrieveRecordWithCache (entityName recordId : string) (retryCount : nat)
    (st : Component) : outcome JsRecord * Component :=
  retrieveAttempt (MAX_RETRIES - retryCount) entityName recordId st.

(** [retrieveRecordWithCache] from its entry to its first [await] or to
    its return, as the operations made in order. *)
Definition enterCall (entityName recordId : string) (retryCount catches : nat)
    (st : Component) : list Op * (Retrieval + outcome JsRecord) :=
  let cacheKey := cacheKeyOf entityName recordId in
  let track :=
    if bool_decide (cacheKey ∈ fetchedRecordKeys st) then [] else [OpTrack cacheKey] in
  let suspendedAt a :=
    inl {| retrievalEntity := entityName; retrievalId := recordId;
           retrievalAwait := a; retrievalCatches := catches |} in
  match recordCache st !! cacheKey ≫= entryRecord with
  | Some r => (track, inr (Returned r))
  | None =>
      if entryLoading (recordCache st !! cacheKey) then
        if (MAX_RETRIES <=? retryCount)%nat then
          (track ++ [OpDelete cacheKey; OpSetLoading cacheKey;
                     OpRequest entityName recordId], suspendedAt AwaitWebAPI)
        else (track, suspendedAt (AwaitDelay retryCount))
      else
        (track ++ [OpSetLoading cacheKey; OpRequest entityName recordId],
         suspendedAt AwaitWebAPI)
  end.

(** The suspended retrieval goes on, in the state it then finds: after
    the timer the recursive call is entered; after the Web API has answered
    the record is stored, or the entry is deleted by the [catch] of the
    call and by the [catch] of every call around it. *)
Definition resumeRetrieval (t : Retrieval) (st : Component)
    : list Op * (Retrieval + outcome JsRecord) :=
  let cacheKey := cacheKeyOf (retrievalEntity t) (retrievalId t) in
  match retrievalAwait t with
  | AwaitDelay retryCount =>
      enterCall (retrievalEntity t) (retrievalId t) (S retryCount)
        (S (retrievalCatches t)) st
  | AwaitWebAPI =>
      match webAPI_retrieveRecord h (retrievalEntity t) (retrievalId t) with
      | Some r => ([OpSetRecord cacheKey r], inr (Returned r))
      | None => (OpDelete cacheKey :: repeat (OpDelete cacheKey) (retrievalCatches t),
                 inr Thrown)
      end
  end.

(** The events in order; a resumption of a retrieval that has finished
    does nothing. *)
Fixpoint runRetrieval (events : list Event) (now : Retrieval + outcome JsRecord)
    (st : Component) : list Op * (Retrieval + outcome JsRecord) :=
  match events with
  | [] => ([], now)
  | EvResume :: rest =>
      match now with
      | inl t =>
          let '(ops, next) := resumeRetrieval t st in
          let '(ops', final) := runRetrieval rest next (applyOps ops st) in
          (ops ++ ops', final)
      | inr _ => runRetrieval rest now st
      end
  | (EvPostSave | EvUnmount) :: rest =>
      let '(ops', final) := runRetrieval rest now (applyOp OpDeleteFetched st) in
      (OpDeleteFetched :: ops', final)
  end.

(** One call of [retrieveRecordWithCache] and what happens around it
    until [events] are used up: the operations made on the shared state,
    and the retrieval as it then stands. *)
Definition retrievalTrace (entityName recordId : string) (retryCount : nat)
    (events : list Event) (st : Component) : list Op * (Retrieval + outcome JsRecord) :=
  let '(ops, now) := enterCall entityName recordId retryCount 0 st in
  let '(ops', final) := runRetrieval events now (applyOps ops st) in
  (ops ++ ops', final).

Definition fetchSingleLevelRecord (currentRecord : JsRecord) (field : string)
    (st : Component) : outcome (option (JsRecord * string)) * Component :=
  match getField currentRecord (idFieldOf field),
        getField currentRecord (logicalNameFieldOf field) with
  | VStr id, VStr entity =>
      if negb (String.eqb id "") && negb (String.eqb entity "") then
        let st1 := trackKey (cacheKeyOf entity id) st in
        match retrieveRecordWithCache entity id 0 st1 with
        | (Returned r, st2) => (Returned (Some (r, entity)), st2)
        | (Thrown, st2) => (Thrown, st2)
        end
      else (Returned None, st)
  | _, _ => (Returned None, st)
  end.

(** The [for (let i = 1; ...)] loop of the component's
    [fetchRelatedRecord]: a missing hop leaves the loop ([break]) with the
    record reached so far. *)
Fixpoint fetchNextLevels (lookups : list string) (currentRecord result : JsRecord)
    (st : Component) : outcome JsRecord * Component :=
  match lookups with
  | [] => (Returned result, st)
  | field :: rest =>
      match fetchSingleLevelRecord currentRecord field st with
      | (Thrown, st') => (Thrown, st')
      | (Returned None, st') => (Returned result, st')
      | (Returned (Some (r, _)), st') => fetchNextLevels rest r r st'
      end
  end.

Definition fetchRelatedRecord (record : option JsRecord) (lookupPath : list string)
    (st : Component) : option JsRecord * Component :=
  match record, lookupPath with
  | Some currentRecord, first :: rest =>
      match fetchSingleLevelRecord currentRecord first st with
      | (Thrown, st') => (None, st')
      | (Returned None, st') => (None, st')
      | (Returned (Some (r, _)), st') =>
          match fetchNextLevels rest r r st' with
          | (Returned result, st'') => (Some result, st'')
          | (Thrown, st'') => (None, st'')
          end
      end
  | _, _ => (None, st)
  end.

(** The body of the first loop of [asyncReplaceDynamicValues]: the raw
    value of one reference. *)
Definition resolveFieldValue (record : JsRecord) (ref : FieldRef) (st : Component)
    : value * Component :=
  if includesChar "." (fieldPath ref) then
    let parts := splitOn "." (fieldPath ref) in
    let lookupPath := initParts parts in
    let finalField := lastPart parts in
    if String.eqb (toLowerCase finalField) "id" then
      let lookupIdField := idFieldOf (List.hd "undefined" lookupPath) in
      (nullish (getField record lookupIdField) (VStr (fullMatch ref)), st)
    else
      match fetchRelatedRecord (Some record) lookupPath st with
      | (Some relatedRecord, st') => (getField relatedRecord finalField, st')
      | (None, st') => (VUndefined, st')
      end
  else (getField record (fieldPath ref), st).

(** The first loop: every reference is resolved, in order, and stored
    under its path. *)
Fixpoint resolveFieldValues (record : JsRecord) (fieldRefs : list FieldRef)
    (resolvedValues : gmap string value) (st : Component)
    : gmap string value * Component :=
  match fieldRefs with
  | [] => (resolvedValues, st)
  | ref :: rest =>
      let '(fieldValue, st') := resolveFieldValue record ref st in
      resolveFieldValues record rest (<[fieldPath ref := fieldValue]> resolvedValues) st'
  end.

Definition parseArg (arg : string) : value :=
  match JSON_parse h arg with
  | Some v => v
  | None => VStr (stripQuotes arg)
  end.

(** [new Date(resolvedValue)] for a timestamp string when the method is a
    date accessor or formatter. *)
Definition dateCoercion (resolvedValue : value) (methodCall : string) : value :=
  match resolvedValue with
  | VStr s =>
      if isDateString s
         && (startsWith ".get" methodCall || startsWith ".toLocale" methodCall)
      then VDate s else resolvedValue
  | _ => resolvedValue
  end.

(** [methodCall.substring(1).split('(')[0]] *)
Definition methodNameOf (methodCall : string) : string :=
  List.hd EmptyString (splitOn "(" (dropChars 1 methodCall)).

Definition methodArgsOf (methodCall : string) : list string :=
  match argsMatch methodCall with
  | Some inner =>
      List.filter (fun arg => negb (String.eqb arg "")) (List.map trim (splitOn "," inner))
  | None => []
  end.

(** The [try] block that applies a method suffix; whatever throws inside
    (reading a property of null, the method itself) is caught and leaves
    [resolvedValue] as last assigned. *)
Definition applyMethodCall (resolvedValue : value) (methodCall : string) : value :=
  let resolvedValue1 := dateCoercion resolvedValue methodCall in
  let methodName := methodNameOf methodCall in
  let args := methodArgsOf methodCall in
  match resolvedValue1 with
  | VNull | VUndefined => resolvedValue1
  | _ =>
      if isFunction h resolvedValue1 methodName then
        match callMethod h resolvedValue1 methodName (List.map parseArg args) with
        | Some result => result
        | None => resolvedValue1
        end
      else resolvedValue1
  end.

(** What the second loop substitutes for one reference. *)
Definition finalValue (resolvedValues : gmap string value) (ref : FieldRef) : value :=
  match default VUndefined (resolvedValues !! fieldPath ref) with
  | VUndefined => VStr (fullMatch ref)
  | resolvedValue =>
      match methodCall ref with
      | Some m => applyMethodCall resolvedValue m
      | None => resolvedValue
      end
  end.

(** The body of the second loop. *)
Definition substituteRef (resolvedValues : gmap string value) (newText : string)
    (ref : FieldRef) : string :=
  jsReplace newText (fullMatch ref) (toJsString h (finalValue resolvedValues ref)).

Definition asyncReplaceDynamicValues (record : option JsRecord) (text : option string)
    (st : Component) : string * Component :=
  match text, record with
  | Some t, Some r =>
      if String.eqb t "" then (EmptyString, st)
      else
        let fieldRefs := extractFieldRefs t in
        let '(resolvedValues, st') := resolveFieldValues r fieldRefs ∅ st in
        (List.fold_left (substituteRef resolvedValues) fieldRefs t, st')
  | _, _ => (EmptyString, st)
  end.

(** [[...configs].sort((a, b) => a.theia_buttonposition - b.theia_buttonposition)].
    [Array.prototype.sort] is stable, so its result is the one stable
    arrangement by the comparator; it is computed here by insertion. *)
Fixpoint insertConfig (c : ButtonConfig) (l : list ButtonConfig) : list ButtonConfig :=
  match l with
  | [] => [c]
  | d :: l' =>
      if theia_buttonposition c <=? theia_buttonposition d then c :: d :: l'
      else d :: insertConfig c l'
  end.

Fixpoint sortConfigs (configs : list ButtonConfig) : list ButtonConfig :=
  match configs with
  | [] => []
  | c :: rest => insertConfig c (sortConfigs rest)
  end.

(** What [resolveConfigs] threads through its loop: the component's
    state and the state of the evaluator it holds, if any. *)
Definition World : Type := (Component * option ExpressionEvaluator.Evaluator)%type.

(** [!expr || await expressionEvaluator?.evaluateAsync(expr)], as a
    truth value. *)
Definition visibilityCheck (evaluatorRecord : JsRecord) (expr : option string)
    (ev : option ExpressionEvaluator.Evaluator)
    : bool * option ExpressionEvaluator.Evaluator :=
  match expr with
  | None => (true, ev)
  | Some e =>
      if String.eqb e "" then (true, ev)
      else match ev with
           | None => (false, None)
           | Some evs =>
               let '(b, evs') := ExpressionEvaluator.evaluateAsync h evaluatorRecord e evs in
               (b, Some evs')
           end
  end.

(** One iteration of the loop over the sorted configs: the resolved copy
    when the button is visible. *)
Definition resolveConfig (record : option JsRecord) (evaluatorRecord : JsRecord)
    (config : ButtonConfig) (w : World) : option ButtonConfig * World :=
  let '(st, ev) := w in
  let '(label, st1) := asyncReplaceDynamicValues record (Some (theia_buttonlabel config)) st in
  let '(tooltip, st2) := asyncReplaceDynamicValues record (theia_buttontooltip config) st1 in
  let '(url, st3) := asyncReplaceDynamicValues record (Some (theia_url config)) st2 in
  let '(script, st4) := asyncReplaceDynamicValues record (theia_actionscript config) st3 in
  let '(visible, ev') := visibilityCheck evaluatorRecord (theia_visibilityexpression config) ev in
  if visible then
    (Some {| theia_buttonlabel := label;
             theia_url := url;
             theia_buttonposition := theia_buttonposition config;
             theia_buttontooltip := Some tooltip;
             theia_tablename := theia_tablename config;
             theia_buttonicon := theia_buttonicon config;
             theia_visibilityexpression := theia_visibilityexpression config;
             theia_showaslink := theia_showaslink config;
             theia_actionscript := Some script;
             isVisible := Some true |}, (st4, ev'))
  else (None, (st4, ev')).

Fixpoint resolveSorted (record : option JsRecord) (evaluatorRecord : JsRecord)
    (sortedConfigs : list ButtonConfig) (w : World) : list ButtonConfig * World :=
  match sortedConfigs with
  | [] => ([], w)
  | config :: rest =>
      let '(r, w1) := resolveConfig record evaluatorRecord config w in
      let '(newConfigs, w2) := resolveSorted record evaluatorRecord rest w1 in
      (match r with Some c => c :: newConfigs | None => newConfigs end, w2)
  end.

(** The effect returns at once while [record] is null; the resolved list
    then keeps its initial value, the empty list. *)
Definition resolveConfigs (record : option JsRecord) (evaluatorRecord : JsRecord)
    (configs : list ButtonConfig) (w : World) : list ButtonConfig * World :=
  match record with
  | None => ([], w)
  | Some _ => resolveSorted record evaluatorRecord (sortConfigs configs) w
  end.

(** The React state that [fetchRecord] sets. *)
Record ViewState : Type := {
  viewRecord : option JsRecord;
  viewIsLoading : bool;
  viewError : option string;
  viewEvaluator : option (JsRecord * ExpressionEvaluator.Evaluator)
}.

Definition initialView : ViewState :=
  {| viewRecord := None; viewIsLoading := true; viewError := None; viewEvaluator := None |}.

Definition EMPTY_GUID : string := "00000000-0000-0000-0000-000000000000".

(** [fetchRecord]: [rejection] is the message of the error the retrieval
    rejects with when that error is an [Error]. *)
Definition fetchRecord (rejection : option string) (entityName recordId : string)
    (v : ViewState) (st : Component) : ViewState * Component :=
  let validRecordId :=
    negb (String.eqb recordId "") && negb (String.eqb recordId EMPTY_GUID) in
  if negb validRecordId then
    ({| viewRecord := Some ∅; viewIsLoading := false; viewError := viewError v;
        viewEvaluator := Some (∅, ExpressionEvaluator.newEvaluator) |}, st)
  else
    match retrieveRecordWithCache entityName recordId 0 st with
    | (Returned result, st') =>
        ({| viewRecord := Some result; viewIsLoading := false; viewError := viewError v;
            viewEvaluator := Some (result, ExpressionEvaluator.newEvaluator) |}, st')
    | (Thrown, st') =>
        ({| viewRecord := Some ∅; viewIsLoading := false;
            viewError := Some (default "Unknown error occurred" rejection);
            viewEvaluator := Some (∅, ExpressionEvaluator.newEvaluator) |}, st')
    end.

End WithHost.
End SmartButton.

(** ** ColorUtils.ts: the hexadecimal conversions

    A colour channel is an integer or NaN ([None]); the HSL functions
    work on fractions and are not embedded. *)

Module ColorUtils.

Definition normalizeColor (color : string) : string :=
  if startsWith "#" color then color else "#" +:+ color.

Definition hexDigitValue (c : ascii) : option Z :=
  let n := Z.of_nat (nat_of_ascii c) in
  if isDigit c then Some (n - 48)
  else if (97 <=? n) && (n <=? 102) then Some (n - 87)
  else if (65 <=? n) && (n <=? 70) then Some (n - 55)
  else None.

(** The value of the longest prefix of hexadecimal digits, [acc] being
    the value of the digits read so far. *)
Fixpoint hexDigitsValue (acc : option Z) (s : string) : option Z :=
  match s with
  | EmptyString => acc
  | String c s' =>
      match hexDigitValue c with
      | Some d => hexDigitsValue (Some (default 0 acc * 16 + d)) s'
      | None => acc
      end
  end.

(** [parseInt(s, 16)]: leading white space, a sign, a [0x] prefix, then
    the longest run of hexadecimal digits; NaN when that run is empty. *)
Definition parseInt16 (s : string) : option Z :=
  let s1 := ltrim s in
  let '(sign, s2) :=
    match s1 with
    | String "-" rest => (-1, rest)
    | String "+" rest => (1, rest)
    | _ => (1, s1)
    end in
  let s3 := if startsWith "0x" s2 || startsWith "0X" s2 then dropChars 2 s2 else s2 in
  match hexDigitsValue None s3 with
  | Some v => Some (sign * v)
  | None => None
  end.

Fixpoint takeChars (n : nat) (s : string) : string :=
  match n, s with
  | O, _ => EmptyString
  | S n', String c s' => String c (takeChars n' s')
  | S _, EmptyString => EmptyString
  end.

(** [s.substring(from, to)] for [from <= to] *)
Definition substring (from to : nat) (s : string) : string :=
  takeChars (to - from) (dropChars from s).

Record RGB : Type := { red : option Z; green : option Z; blue : option Z }.

Definition hexToRgb (hex : string) : RGB :=
  let cleanHex := if startsWith "#" hex then dropChars 1 hex else hex in
  {| red := parseInt16 (substring 0 2 cleanHex);
     green := parseInt16 (substring 2 4 cleanHex);
     blue := parseInt16 (substring 4 6 cleanHex) |}.

Definition hexDigitChar (d : Z) : ascii :=
  ascii_of_nat (Z.to_nat (if d <? 10 then d + 48 else d + 87)).

(** [n.toString(16)] for [0 <= n < 256], which is where the clamp puts
    the channel. *)
Definition toHexString (n : Z) : string :=
  if n <? 16 then String (hexDigitChar n) EmptyString
  else String (hexDigitChar (n / 16)) (String (hexDigitChar (n mod 16)) EmptyString).

(** [s.padStart(2, '0')] *)
Definition padStart2 (s : string) : string :=
  match s with
  | EmptyString => "00"
  | String c EmptyString => String "0" (String c EmptyString)
  | _ => s
  end.

(** [Math.round(Math.max(0, Math.min(255, c))).toString(16).padStart(2, '0')];
    NaN goes through the clamp and prints as [NaN]. *)
Definition channelHex (c : option Z) : string :=
  match c with
  | Some v => padStart2 (toHexString (Z.max 0 (Z.min 255 v)))
  | None => "NaN"
  end.

Definition rgbToHex (r g b : option Z) : string :=
  "#" +:+ channelHex r +:+ channelHex g +:+ channelHex b.

End ColorUtils.

Import SmartButton.

(** ** Sample hosts and records *)

Module Samples.

Definition emptyComponent : Component :=
  {| recordCache := ∅; fetchedRecordKeys := ∅; webRequests := [] |}.

(** The text of a number beyond the safe integers is kept symbolic; the
    text of an inherited member is the one common engines give. *)
Definition sampleNumberToString (n : Z) : string := "Number(" +:+ pretty n +:+ ")".

Definition sampleInheritedToString (name : string) : string :=
  if String.eqb name "__proto__" then "[object Object]"
  else if String.eqb name "constructor" then "function Object() { [native code] }"
  else "function " +:+ name +:+ "() { [native code] }".

(** A host whose values have no methods and whose Web API is [api]. *)
Definition plainHost (api : string -> string -> option JsRecord) : Host :=
  {| webAPI_retrieveRecord := api;
     isFunction := fun _ _ => false;
     callMethod := fun _ _ _ => None;
     JSON_parse := fun _ => None;
     dateToString := fun src => "Date(" +:+ src +:+ ")";
     numberToString := sampleNumberToString;
     inheritedToString := sampleInheritedToString;
     runExpression := fun _ _ _ => Some true |}.

Definition noRecords : string -> string -> option JsRecord := fun _ _ => None.

(** A component that finds a loading marker left in the cache. *)
Definition stuckComponent : Component :=
  {| recordCache := {["account:c1" := loadingEntry]};
     fetchedRecordKeys := ∅;
     webRequests := [] |}.

(** A contact whose customer is the account [c1]. *)
Definition contactRecord : JsRecord :=
  <["_parentcustomerid_value" := VStr "c1"]>
  (<["_parentcustomerid_value@Microsoft.Dynamics.CRM.lookuplogicalname" := VStr "account"]>
  (<["fullname" := VStr "Ada"]> ∅)).

(** The account [c1]: it has a web site and no parent account. *)
Definition accountRecord : JsRecord :=
  <["websiteurl" := VStr "http://x"]> (<["name" := VStr "Acme"]> ∅).

Definition crmApi : string -> string -> option JsRecord :=
  fun entityName id =>
    if String.eqb entityName "account" && String.eqb id "c1"
    then Some accountRecord else None.

Definition crmHost : Host := plainHost crmApi.

(** A record with a lookup [a] to the account [A1], which itself has a
    lookup [b] to the account [B1]. *)
Definition chainBase : JsRecord :=
  <["_a_value" := VStr "A1"]>
  (<["_a_value@Microsoft.Dynamics.CRM.lookuplogicalname" := VStr "account"]> ∅).

Definition chainMiddle : JsRecord :=
  <["_b_value" := VStr "B1"]>
  (<["_b_value@Microsoft.Dynamics.CRM.lookuplogicalname" := VStr "account"]> ∅).

Definition chainApi : string -> string -> option JsRecord :=
  fun entityName id =>
    if String.eqb entityName "account" && String.eqb id "A1"
    then Some chainMiddle else None.

Definition chainHost : Host := plainHost chainApi.

(** A host whose expressions are all true except the text [false]. *)
Definition pickyHost : Host :=
  {| webAPI_retrieveRecord := crmApi;
     isFunction := fun _ _ => false;
     callMethod := fun _ _ _ => None;
     JSON_parse := fun _ => None;
     dateToString := fun src => src;
     numberToString := sampleNumberToString;
     inheritedToString := sampleInheritedToString;
     runExpression := fun expression _ _ => Some (negb (String.eqb expression "false")) |}.

Definition button (label : string) (position : Z) (visibility : option string)
    : ButtonConfig :=
  {| theia_buttonlabel := label;
     theia_url := "";
     theia_buttonposition := position;
     theia_buttontooltip := None;
     theia_tablename := "contact";
     theia_buttonicon := None;
     theia_visibilityexpression := visibility;
     theia_showaslink := false;
     theia_actionscript := None;
     isVisible := None |}.

(** A component that has fetched the account [c1]. *)
Definition fetchedComponent : Component :=
  {| recordCache := {["account:c1" := loadedEntry accountRecord]};
     fetchedRecordKeys := {["account:c1"]};
     webRequests := [("account", "c1")] |}.



End Samples.

(** ** Specification predicates *)

(** Every cache key whose entry differs between [st] and [st'] is in the
    tracking set of [st'], and the tracking set only grows. *)
Definition tracked (st st' : Component) : Prop :=
  fetchedRecordKeys st ⊆ fetchedRecordKeys st' ∧
  ∀ k, k ∉ fetchedRecordKeys st' → recordCache st' !! k = recordCache st !! k.

(** The reading of the id special case in the spec's words: the chain
    before the last lookup is followed, and the foreign-key id of the last
    lookup is read off the record reached. *)
Fixpoint followChain (h : Host) (current : JsRecord) (lookups : list string)
    : option JsRecord :=
  match lookups with
  | [] => Some current
  | l :: rest =>
      match getField current (idFieldOf l), getField current (logicalNameFieldOf l) with
      | VStr i, VStr e =>
          match webAPI_retrieveRecord h e i with
          | Some r => followChain h r rest
          | None => None
          end
      | _, _ => None
      end
  end.

Definition foreignKeyIdAtChainEnd (h : Host) (record : JsRecord)
    (lookupPath : list string) : value :=
  match followChain h record (initParts lookupPath) with
  | Some r => getField r (idFieldOf (lastPart lookupPath))
  | None => VUndefined
  end.

(** [s] is made of one character per class of [classes], in order. *)
Definition shaped (classes : list (ascii -> bool)) (s : string) : Prop :=
  Forall2 (fun p c => p c = true) classes (list_ascii_of_string s).

(** The timestamp pattern, said directly: ten characters of date, a [T]
    or a white-space character, eight characters of time, and then
    nothing, [Z], or a signed hh:mm offset. *)
Definition timestampShaped (s : string) : Prop :=
  ∃ body zone, s = body +:+ zone ∧ shaped dateTimeClasses body ∧
    (zone = "" ∨ zone = "Z" ∨ shaped offsetClasses zone).

(** [r] is a resolved copy of the config [c]: the fields that are not
    templates are those of [c], and the visible mark is attached. *)
Definition resolvedFrom (c r : ButtonConfig) : Prop :=
  theia_buttonposition r = theia_buttonposition c ∧
  theia_tablename r = theia_tablename c ∧
  theia_buttonicon r = theia_buttonicon c ∧
  theia_visibilityexpression r = theia_visibilityexpression c ∧
  theia_showaslink r = theia_showaslink c ∧
  isVisible r = Some true.


Definition positions (l : list ButtonConfig) : list Z :=
  List.map theia_buttonposition l.

Definition atPosition (p : Z) (c : ButtonConfig) : Prop := theia_buttonposition c = p.

#[global] Instance atPosition_dec p c : Decision (atPosition p c).
Proof. unfold atPosition. apply _. Defined.

(** The raw value stored for the reference's path is undefined. *)
Definition rawUndefined (resolvedValues : gmap string value) (ref : FieldRef) : Prop :=
  default VUndefined (resolvedValues !! fieldPath ref) = VUndefined.

#[global] Instance rawUndefined_dec resolvedValues ref :
  Decision (rawUndefined resolvedValues ref).
Proof. unfold rawUndefined. apply _. Defined.

(** The record one lookup of [current] names, as the Web API gives it:
    the id and the entity name are the two lookup attributes, which must
    both be truthy. *)
Definition hopTarget (h : Host) (current : JsRecord) (lookup : string) : option JsRecord :=
  let id := getField current (idFieldOf lookup) in
  let entity := getField current (logicalNameFieldOf lookup) in
  if truthy id && truthy entity
  then webAPI_retrieveRecord h (toJsString h entity) (toJsString h id)
  else None.

(** The record at the end of a chain of lookups that starts at [current]. *)
Fixpoint chainTarget (h : Host) (current : JsRecord) (lookups : list string)
    : option JsRecord :=
  match lookups with
  | [] => Some current
  | lookup :: rest =>
      match hopTarget h current lookup with
      | Some r => chainTarget h r rest
      | None => None
      end
  end.

(** The related record that a lookup chain of at least one lookup names
    from the base record. *)
Definition relatedRecordOf (h : Host) (record : JsRecord) (lookupPath : list string)
    : option JsRecord :=
  match lookupPath with
  | [] => None
  | _ => chainTarget h record lookupPath
  end.

(** What a reference of an expression stands for: the attribute of the
    base record, or, for a dotted reference, the final field of the related
    record its lookup chain names, null when there is no such record or no
    such field. *)
Definition referenceValue (h : Host) (record : JsRecord) (reference : string) : value :=
  if includesChar "." reference then
    let parts := splitOn "." reference in
    match relatedRecordOf h record (initParts parts) with
    | Some r =>
        match getField r (lastPart parts) with
        | VUndefined => VNull
        | v => v
        end
    | None => VNull
    end
  else getField record reference.

(** The data object of an expression: each reference, in order, with the
    coerced value it stands for. *)
Definition resolvedData (h : Host) (record : JsRecord) (references : list string)
    : DataObject :=
  List.map
    (fun reference =>
       (reference,
        ExpressionEvaluator.convertValueToProperType (referenceValue h record reference)))
    references.

(** The expression evaluates true over the data object of its references;
    the empty expression is true, an evaluation that throws is false. *)
Definition evaluatesTrue (h : Host) (record : JsRecord) (expression : string) : bool :=
  if String.eqb expression "" then true
  else default false
         (runExpression h expression
            (resolvedData h record (ExpressionEvaluator.extractFieldReferences expression))
            record).

(** Every related record the evaluator has cached is the one its key, a
    lookup chain joined by dots, names. *)
Definition coherent (h : Host) (record : JsRecord) (ev : ExpressionEvaluator.Evaluator)
    : Prop :=
  ∀ key r, ExpressionEvaluator.relatedRecordsCache ev !! key = Some r →
           relatedRecordOf h record (splitOn "." key) = Some r.

(** The resolved copy of a config: its four templates resolved in the
    order label, tooltip, url, action script, the other fields kept, and
    the visible mark attached. *)
Definition resolvedCopy (h : Host) (record : option JsRecord) (config : ButtonConfig)
    (st : Component) : ButtonConfig * Component :=
  let '(label, st1) := asyncReplaceDynamicValues h record (Some (theia_buttonlabel config)) st in
  let '(tooltip, st2) := asyncReplaceDynamicValues h record (theia_buttontooltip config) st1 in
  let '(url, st3) := asyncReplaceDynamicValues h record (Some (theia_url config)) st2 in
  let '(script, st4) := asyncReplaceDynamicValues h record (theia_actionscript config) st3 in
  ({| theia_buttonlabel := label;
      theia_url := url;
      theia_buttonposition := theia_buttonposition config;
      theia_buttontooltip := Some tooltip;
      theia_tablename := theia_tablename config;
      theia_buttonicon := theia_buttonicon config;
      theia_visibilityexpression := theia_visibilityexpression config;
      theia_showaslink := theia_showaslink config;
      theia_actionscript := Some script;
      isVisible := Some true |}, st4).

(** The resolved copies of all the configs of a list, one after the
    other. *)
Fixpoint resolvedCopies (h : Host) (record : option JsRecord)
    (sortedConfigs : list ButtonConfig) (st : Component) : list ButtonConfig * Component :=
  match sortedConfigs with
  | [] => ([], st)
  | config :: rest =>
      let '(copy, st1) := resolvedCopy h record config st in
      let '(copies, st2) := resolvedCopies h record rest st1 in
      (copy :: copies, st2)
  end.

(** The config is to be shown: it has no visibility expression, or the
    component holds an evaluator and the expression evaluates true on the
    evaluator's record. *)
Definition shown (h : Host) (evaluatorRecord : JsRecord) (evaluatorHeld : bool)
    (config : ButtonConfig) : bool :=
  match theia_visibilityexpression config with
  | None => true
  | Some expression =>
      String.eqb expression "" || (evaluatorHeld && evaluatesTrue h evaluatorRecord expression)
  end.

Definition holdsEvaluator (ev : option ExpressionEvaluator.Evaluator) : bool :=
  match ev with
  | Some _ => true
  | None => false
  end.

(** Along the operations [ops] made from [st] on, every key is in the
    tracking set when an entry is written under it. *)
Fixpoint trackedBeforeWritten (st : Component) (ops : list Op) : Prop :=
  match ops with
  | [] => True
  | op :: rest =>
      (∀ k, writes op = Some k → k ∈ fetchedRecordKeys st) ∧
      trackedBeforeWritten (applyOp op st) rest
  end.

(** The cache holds a completed record for [k]. *)
Definition cachedRecord (st : Component) (k : string) : option JsRecord :=
  recordCache st !! k ≫= entryRecord.

(** The forms a method suffix can take, and the name the resolver reads
    back from it. *)
Definition methodSuffixShape (m : string) : Prop :=
  methodNameOf m ≠ "" ∧ allChars isIdentChar (methodNameOf m) = true ∧
  (m = "." +:+ methodNameOf m ∨
   ∃ args, allChars notParen args = true ∧
           m = "." +:+ methodNameOf m +:+ "(" +:+ args +:+ ")").

(** No entry of the cache is a loading marker. *)
Definition settled (st : Component) : Prop :=
  ∀ k e, recordCache st !! k = Some e → entryIsLoading e = false.

(** From [st] to [st'] at most [n] requests were made, and none was
    taken back. *)
Definition requestsWithin (n : nat) (st st' : Component) : Prop :=
  ∃ added, webRequests st' = webRequests st ++ added ∧ (length added ≤ n)%nat.

(** The lookup hops of a token: the segments of its path but the last. *)
Definition lookupHops (ref : FieldRef) : nat :=
  length (initParts (splitOn "." (fieldPath ref))).

Definition totalLookupHops (refs : list FieldRef) : nat :=
  sum_list (List.map lookupHops refs).


Definition clampChannel (v : Z) : Z := Z.max 0 (Z.min 255 v).

Definition isHexDigit (c : ascii) : bool :=
  match ColorUtils.hexDigitValue c with
  | Some _ => true
  | None => false
  end.

Definition hexChars : list ascii := list_ascii_of_string "0123456789abcdefABCDEF".

(** The two characters printed for the channel value [n] read back as [n]. *)
Definition channelReadsBack (n : Z) : bool :=
  match ColorUtils.padStart2 (ColorUtils.toHexString n) with
  | String c1 (String c2 EmptyString) =>
      match ColorUtils.parseInt16 (String c1 (String c2 EmptyString)) with
      | Some m => m =? n
      | None => false
      end
  | _ => false
  end.

(** The channel read from two hexadecimal digits prints as these digits in
    lower case. *)
Definition pairPrintsBack (c1 c2 : ascii) : bool :=
  String.eqb
    (ColorUtils.channelHex (ColorUtils.parseInt16 (String c1 (String c2 EmptyString))))
    (String (lowerChar c1) (String (lowerChar c2) EmptyString)).

Definition notLineTerminator (a : ascii) : bool := negb (isLineTerminator a).

(** The key of a suspended retrieval is tracked. *)
Definition pendingTracked (now : Retrieval + outcome JsRecord) (st : Component) : Prop :=
  match now with
  | inl t => cacheKeyOf (retrievalEntity t) (retrievalId t) ∈ fetchedRecordKeys st
  | inr _ => True
  end.

(** The state in which the [catch] of each of [catches] calls has deleted
    the entry, when the retrieval threw. *)
Definition unwound (key : string) (catches : nat) (res : outcome JsRecord * Component)
    : Component :=
  match res.1 with
  | Returned _ => res.2
  | Thrown => applyOps (repeat (OpDelete key) catches) res.2
  end.

(** * Verification *)

(** The unfolding of [retrieveAttempt], for any host. *)
Lemma retrieveAttempt_eq (h : Host) n e i st0 :
  retrieveAttempt h n e i st0 =
  let cacheKey := cacheKeyOf e i in
  let st := trackKey cacheKey st0 in
  match recordCache st !! cacheKey ≫= entryRecord with
  | Some r => (Returned r, st)
  | None =>
      if entryLoading (recordCache st !! cacheKey) then
        match n with
        | O => fetchAndStore h e i (withCache (delete cacheKey) st)
        | S n' =>
            match retrieveAttempt h n' e i st with
            | (Returned r, st') => (Returned r, st')
            | (Thrown, st') => (Thrown, withCache (delete cacheKey) st')
            end
        end
      else fetchAndStore h e i st
  end.
Proof. destruct n; reflexivity. Qed.

Lemma retrieveAttempt_miss_requests (h' : Host) n e i st :
  recordCache st !! cacheKeyOf e i = None →
  webRequests (retrieveAttempt h' n e i st).2 = webRequests st ++ [(e, i)].
Proof.
  intros Hc. rewrite retrieveAttempt_eq; cbv zeta. simpl recordCache. rewrite Hc. simpl.
  unfold fetchAndStore. by destruct (webAPI_retrieveRecord h' e i).
Qed.

Section Verification.
Context (h : Host).

Lemma tracked_refl st : tracked st st.
Proof. split; [set_solver | done]. Qed.

Lemma tracked_trans st1 st2 st3 : tracked st1 st2 → tracked st2 st3 → tracked st1 st3.
Proof.
  intros [Hs12 Hc12] [Hs23 Hc23]. split; [set_solver |].
  intros k Hk. rewrite Hc23 by done. apply Hc12. set_solver.
Qed.

Lemma tracked_trackKey k st : tracked st (trackKey k st).
Proof. split; simpl; [set_solver | done]. Qed.

Lemma tracked_fetchAndStore e i st :
  cacheKeyOf e i ∈ fetchedRecordKeys st → tracked st (fetchAndStore h e i st).2.
Proof.
  intros Hin. unfold fetchAndStore.
  destruct (webAPI_retrieveRecord h e i); simpl; (split; simpl; [set_solver |]);
    intros k Hk; assert (cacheKeyOf e i ≠ k) by (intros E; apply Hk; by rewrite <- E).
  - by rewrite !lookup_insert_ne.
  - by rewrite lookup_delete_ne, lookup_insert_ne.
Qed.

Lemma tracked_delete k st :
  k ∈ fetchedRecordKeys st → tracked st (withCache (delete k) st).
Proof.
  intros Hin. split; simpl; [set_solver |].
  intros k' Hk'. rewrite lookup_delete_ne; [done | intros E; apply Hk'; by rewrite <- E].
Qed.

Lemma tracked_retrieveAttempt n e i st :
  tracked st (retrieveAttempt h n e i st).2 ∧
  cacheKeyOf e i ∈ fetchedRecordKeys (retrieveAttempt h n e i st).2.
Proof.
  revert st. induction n as [|n IH]; intros st; rewrite retrieveAttempt_eq; cbv zeta.
  all: set (key := cacheKeyOf e i).
  all: assert (Hk : key ∈ fetchedRecordKeys (trackKey key st)) by (simpl; set_solver).
  all: destruct (recordCache (trackKey key st) !! key ≫= entryRecord) as [r|];
    [split; [apply tracked_trackKey | done] |].
  all: destruct (entryLoading (recordCache (trackKey key st) !! key)).
  - assert (Hk' : key ∈ fetchedRecordKeys (withCache (delete key) (trackKey key st)))
      by exact Hk.
    pose proof (tracked_fetchAndStore e i _ Hk') as Ht.
    split.
    + eapply tracked_trans; [apply tracked_trackKey |].
      eapply tracked_trans; [apply (tracked_delete key); exact Hk | exact Ht].
    + destruct Ht as [Hs _]. simpl in Hs. set_solver.
  - pose proof (tracked_fetchAndStore e i (trackKey key st) Hk) as Ht. split.
    + eapply tracked_trans; [apply tracked_trackKey | exact Ht].
    + destruct Ht as [Hs _]. set_solver.
  - destruct (IH (trackKey key st)) as [Ht Hin].
    destruct (retrieveAttempt h n e i (trackKey key st)) as [[r|] st']; simpl in *.
    + split; [|done]. eapply tracked_trans; [apply tracked_trackKey | exact Ht].
    + split; [|done]. eapply tracked_trans; [apply tracked_trackKey |].
      eapply tracked_trans; [exact Ht | by apply tracked_delete].
  - pose proof (tracked_fetchAndStore e i (trackKey key st) Hk) as Ht. split.
    + eapply tracked_trans; [apply tracked_trackKey | exact Ht].
    + destruct Ht as [Hs _]. set_solver.
Qed.

Lemma fetchAndStore_fails e i st :
  webAPI_retrieveRecord h e i = None →
  fetchAndStore h e i st =
    (Thrown, withCache (delete (cacheKeyOf e i))
               (logRequest e i (withCache (insert (cacheKeyOf e i) loadingEntry) st))).
Proof. intros Hf. unfold fetchAndStore. by rewrite Hf. Qed.

Lemma retrieveAttempt_fails n e i st :
  cachedRecord st (cacheKeyOf e i) = None →
  webAPI_retrieveRecord h e i = None →
  ∃ st', retrieveAttempt h n e i st = (Thrown, st') ∧
         recordCache st' !! cacheKeyOf e i = None ∧
         webRequests st' = webRequests st ++ [(e, i)].
Proof.
  intros Hc Hf. revert st Hc.
  induction n as [|n IH]; intros st Hc; rewrite retrieveAttempt_eq; cbv zeta;
    unfold cachedRecord in Hc; simpl recordCache at 1; rewrite Hc.
  - destruct (entryLoading _); rewrite fetchAndStore_fails by done;
      eexists; (split; [reflexivity |]); simpl; by rewrite lookup_delete_eq.
  - destruct (entryLoading _).
    + destruct (IH (trackKey (cacheKeyOf e i) st)) as (st' & -> & Hnone & Hreq); [done |].
      eexists; split; [reflexivity |]. simpl. by rewrite lookup_delete_eq.
    + rewrite fetchAndStore_fails by done.
      eexists; (split; [reflexivity |]); simpl; by rewrite lookup_delete_eq.
Qed.

(** C9: when the cache holds no completed record for the key and the Web
    API call fails, [retrieveRecordWithCache] throws, the cache has no
    entry left for the key (no loading marker stays behind), exactly one
    request was made, and the next caller for that key, whatever the Web
    API then answers, makes a fresh request. *)
Theorem C9_failed_fetch_removes_loading_marker e i retryCount st :
  cachedRecord st (cacheKeyOf e i) = None →
  webAPI_retrieveRecord h e i = None →
  ∃ st', retrieveRecordWithCache h e i retryCount st = (Thrown, st') ∧
         recordCache st' !! cacheKeyOf e i = None ∧
         webRequests st' = webRequests st ++ [(e, i)] ∧
         ∀ (h' : Host) retryCount',
           webRequests (retrieveRecordWithCache h' e i retryCount' st').2
           = webRequests st' ++ [(e, i)].
Proof.
  intros Hc Hf. unfold retrieveRecordWithCache.
  destruct (retrieveAttempt_fails (MAX_RETRIES - retryCount) e i st Hc Hf)
    as (st' & Hrun & Hnone & Hreq).
  exists st'. repeat split; try done.
  intros h' rc. by apply retrieveAttempt_miss_requests.
Qed.

Lemma includesChar_append c (a b : string) :
  includesChar c (a +:+ b) = includesChar c a || includesChar c b.
Proof.
  induction a as [|x a IH]; [done |].
  change (String x a +:+ b) with (String x (a +:+ b)). simpl. rewrite IH.
  by rewrite orb_assoc.
Qed.

(** A cache key holds a colon, so it is never the name of a member that
    the cache object inherits: [cache[cacheKey]] reads entries only. *)
Lemma cacheKeyOf_not_inherited e i : inheritsMember (cacheKeyOf e i) = false.
Proof.
  apply bool_decide_eq_false. intros Hin.
  assert (Hcolon : includesChar ":" (cacheKeyOf e i) = true).
  { unfold cacheKeyOf. rewrite !includesChar_append. simpl. by rewrite orb_true_r. }
  revert Hin Hcolon. generalize (cacheKeyOf e i). intros k Hin.
  unfold objectPrototypeMembers in Hin.
  repeat (apply elem_of_cons in Hin as [->|Hin]; [done |]).
  by apply elem_of_nil in Hin.
Qed.

Lemma deleteFetchedKeys_lookup st k :
  recordCache (deleteFetchedKeys st) !! k =
  if decide (k ∈ fetchedRecordKeys st) then None else recordCache st !! k.
Proof.
  unfold deleteFetchedKeys. simpl.
  generalize (fetchedRecordKeys st). intros X.
  pose (P := fun (acc : gmap string CacheEntry) (Y : gset string) =>
               acc !! k = if decide (k ∈ Y) then None else recordCache st !! k).
  change (P (set_fold (fun key acc => delete key acc) (recordCache st) X) X).
  apply set_fold_ind_L; unfold P.
  - by rewrite decide_False by set_solver.
  - intros x Y acc Hx IH. destruct (decide (x = k)) as [->|Hne].
    + rewrite lookup_delete_eq. by rewrite decide_True by set_solver.
    + rewrite lookup_delete_ne by done. rewrite IH.
      destruct (decide (k ∈ Y)); [by rewrite decide_True by set_solver |].
      by rewrite decide_False by set_solver.
Qed.

(** A call of [retrieveRecordWithCache] that runs to its end with nothing
    in between: each cache key whose entry it changed is in the tracking
    set afterwards and no tracked key is forgotten; a handler that runs
    next leaves no entry under a tracked key, and what it leaves is what
    the cache held before the call. *)
Lemma retrieveRecordWithCache_tracked e i retryCount st :
  let st' := (retrieveRecordWithCache h e i retryCount st).2 in
  (∀ k, recordCache st' !! k ≠ recordCache st !! k → k ∈ fetchedRecordKeys st') ∧
  fetchedRecordKeys st ⊆ fetchedRecordKeys st' ∧
  cacheKeyOf e i ∈ fetchedRecordKeys st' ∧
  (∀ k, k ∈ fetchedRecordKeys st' →
        recordCache (handlePostSave st') !! k = None ∧
        recordCache (unmountCleanup st') !! k = None) ∧
  (∀ k, k ∉ fetchedRecordKeys st' →
        recordCache (handlePostSave st') !! k = recordCache st !! k ∧
        recordCache (unmountCleanup st') !! k = recordCache st !! k).
Proof.
  intros st'. subst st'. unfold retrieveRecordWithCache.
  destruct (tracked_retrieveAttempt (MAX_RETRIES - retryCount) e i st) as [[Hsub Hsame] Hin].
  set (st' := (retrieveAttempt h (MAX_RETRIES - retryCount) e i st).2) in *.
  repeat split; try done.
  - intros k Hne. destruct (decide (k ∈ fetchedRecordKeys st')); [done |].
    exfalso. apply Hne. by apply Hsame.
  - unfold handlePostSave. rewrite deleteFetchedKeys_lookup. by rewrite decide_True.
  - unfold unmountCleanup. rewrite deleteFetchedKeys_lookup. by rewrite decide_True.
  - unfold handlePostSave. rewrite deleteFetchedKeys_lookup.
    rewrite decide_False by done. by apply Hsame.
  - unfold unmountCleanup. rewrite deleteFetchedKeys_lookup.
    rewrite decide_False by done. by apply Hsame.
Qed.

(** *** The retrieval, one operation at a time *)

Lemma applyOps_app ops1 ops2 st :
  applyOps (ops1 ++ ops2) st = applyOps ops2 (applyOps ops1 st).
Proof. unfold applyOps. by rewrite fold_left_app. Qed.

Lemma trackedBeforeWritten_app st ops1 ops2 :
  trackedBeforeWritten st (ops1 ++ ops2) ↔
  trackedBeforeWritten st ops1 ∧ trackedBeforeWritten (applyOps ops1 st) ops2.
Proof.
  revert st. induction ops1 as [|op ops1 IH]; intros st; simpl; [tauto |].
  rewrite IH. change (applyOps (op :: ops1) st) with (applyOps ops1 (applyOp op st)). tauto.
Qed.

Lemma applyOp_keys op st : fetchedRecordKeys st ⊆ fetchedRecordKeys (applyOp op st).
Proof. destruct op; simpl; set_solver. Qed.

Lemma applyOps_keys ops st : fetchedRecordKeys st ⊆ fetchedRecordKeys (applyOps ops st).
Proof.
  revert st. induction ops as [|op ops IH]; intros st; [done |].
  change (applyOps (op :: ops) st) with (applyOps ops (applyOp op st)).
  etrans; [apply applyOp_keys | apply IH].
Qed.

Lemma pendingTracked_mono now st st' :
  fetchedRecordKeys st ⊆ fetchedRecordKeys st' → pendingTracked now st → pendingTracked now st'.
Proof. destruct now; simpl; [set_solver | done]. Qed.

Lemma enterCall_tracked e i retryCount catches st :
  trackedBeforeWritten st (enterCall e i retryCount catches st).1 ∧
  pendingTracked (enterCall e i retryCount catches st).2
    (applyOps (enterCall e i retryCount catches st).1 st).
Proof.
  unfold enterCall. set (key := cacheKeyOf e i).
  assert (Htrack : ∀ more,
    (∀ k, In k (omap writes more) → k = key) →
    trackedBeforeWritten st
      ((if bool_decide (key ∈ fetchedRecordKeys st) then [] else [OpTrack key]) ++ more) ∧
    key ∈ fetchedRecordKeys
      (applyOps ((if bool_decide (key ∈ fetchedRecordKeys st) then [] else [OpTrack key])
                 ++ more) st)).
  { intros more Hmore.
    assert (Hin : key ∈ fetchedRecordKeys
              (applyOps (if bool_decide (key ∈ fetchedRecordKeys st) then []
                         else [OpTrack key]) st)).
    { case_bool_decide; simpl; [done | set_solver]. }
    split.
    - apply trackedBeforeWritten_app. split; [case_bool_decide; simpl; [done | by split] |].
      revert Hin Hmore.
      generalize (applyOps (if bool_decide (key ∈ fetchedRecordKeys st) then []
                            else [OpTrack key]) st).
      induction more as [|op more IH]; intros s Hin Hmore; simpl; [done |]. split.
      + intros k Hk. rewrite (Hmore k); [done |]. simpl. rewrite Hk. by left.
      + apply IH; [by apply applyOp_keys |].
        intros k Hk. apply Hmore. simpl. destruct (writes op); [by right | done].
    - rewrite applyOps_app. by apply applyOps_keys. }
  destruct (recordCache st !! key ≫= entryRecord) as [r|].
  { destruct (Htrack []) as [Ht _]; [by intros k [] |]. rewrite app_nil_r in Ht.
    by split. }
  destruct (entryLoading (recordCache st !! key)).
  - destruct (MAX_RETRIES <=? retryCount)%nat.
    + apply Htrack. simpl. intros k [<-|[]]. done.
    + destruct (Htrack []) as [Ht Hin]; [by intros k [] |]. rewrite app_nil_r in Ht, Hin.
      by split.
  - apply Htrack. simpl. intros k [<-|[]]. done.
Qed.

Lemma resumeRetrieval_tracked t st :
  pendingTracked (inl t) st →
  trackedBeforeWritten st (resumeRetrieval h t st).1 ∧
  pendingTracked (resumeRetrieval h t st).2 (applyOps (resumeRetrieval h t st).1 st).
Proof.
  intros Hin. unfold resumeRetrieval.
  destruct (retrievalAwait t) as [retryCount|]; [apply enterCall_tracked |].
  destruct (webAPI_retrieveRecord h _ _) as [r|]; simpl.
  - split; [|done]. split; [|done]. by intros k [= <-].
  - split; [|done]. split; [done |].
    generalize (withCache (delete (cacheKeyOf (retrievalEntity t) (retrievalId t))) st).
    induction (retrievalCatches t) as [|n IH]; intros s; simpl; [done |]. by split.
Qed.

Lemma runRetrieval_tracked events now st :
  pendingTracked now st → trackedBeforeWritten st (runRetrieval h events now st).1.
Proof.
  revert now st. induction events as [|ev events IH]; intros now st Hin; [done |].
  assert (Hhandler :
    trackedBeforeWritten st
      (let '(ops', final) := runRetrieval h events now (applyOp OpDeleteFetched st) in
       (OpDeleteFetched :: ops', final)).1).
  { specialize (IH now (applyOp OpDeleteFetched st)
                  (pendingTracked_mono _ _ _ (applyOp_keys OpDeleteFetched st) Hin)).
    destruct (runRetrieval h events now (applyOp OpDeleteFetched st)) as [ops' final].
    by split. }
  destruct ev; [|exact Hhandler..]. simpl.
  destruct now as [t|o]; [|by apply IH].
  destruct (resumeRetrieval_tracked t st Hin) as [Ht Hnext].
  destruct (resumeRetrieval h t st) as [ops next]. simpl in *.
  specialize (IH next (applyOps ops st) Hnext).
  destruct (runRetrieval h events next (applyOps ops st)) as [ops' final]. simpl in *.
  by apply trackedBeforeWritten_app.
Qed.

Lemma retrievalTrace_tracked e i retryCount events st :
  trackedBeforeWritten st (retrievalTrace h e i retryCount events st).1.
Proof.
  unfold retrievalTrace.
  destruct (enterCall_tracked e i retryCount 0 st) as [Ht Hnext].
  destruct (enterCall e i retryCount 0 st) as [ops now]. simpl in *.
  pose proof (runRetrieval_tracked events now (applyOps ops st) Hnext) as Hrun.
  destruct (runRetrieval h events now (applyOps ops st)) as [ops' final]. simpl in *.
  by apply trackedBeforeWritten_app.
Qed.

Lemma trackedBeforeWritten_split st ops pre op post k :
  trackedBeforeWritten st ops → ops = pre ++ op :: post → writes op = Some k →
  k ∈ fetchedRecordKeys (applyOps pre st).
Proof.
  intros Ht -> Hk. apply trackedBeforeWritten_app in Ht as [_ [Hop _]]. by apply Hop.
Qed.

Lemma written_keys_tracked st ops op k :
  trackedBeforeWritten st ops → op ∈ ops → writes op = Some k →
  k ∈ fetchedRecordKeys (applyOps ops st).
Proof.
  intros Ht Hin Hk. apply list_elem_of_split in Hin as (pre & post & ->).
  pose proof (trackedBeforeWritten_split st _ pre op post k Ht eq_refl Hk) as Hpre.
  rewrite applyOps_app. by apply applyOps_keys.
Qed.

(** *** A retrieval that is resumed with nothing in between *)

Lemma applyOps_track key st :
  applyOps (if bool_decide (key ∈ fetchedRecordKeys st) then [] else [OpTrack key]) st
  = trackKey key st.
Proof.
  case_bool_decide as Hin; [|done]. destruct st as [cache keys reqs].
  unfold trackKey. simpl in *. f_equal. symmetry. apply subseteq_union_1_L. set_solver.
Qed.

Lemma runRetrieval_finished n o st :
  runRetrieval h (repeat EvResume n) (inr o) st = ([], inr o).
Proof. induction n as [|n IH]; [done | exact IH]. Qed.

Lemma runRetrieval_resume rest t st :
  runRetrieval h (EvResume :: rest) (inl t) st =
  ((resumeRetrieval h t st).1
     ++ (runRetrieval h rest (resumeRetrieval h t st).2
           (applyOps (resumeRetrieval h t st).1 st)).1,
   (runRetrieval h rest (resumeRetrieval h t st).2
      (applyOps (resumeRetrieval h t st).1 st)).2).
Proof.
  simpl. destruct (resumeRetrieval h t st) as [ops next]. simpl.
  by destruct (runRetrieval h rest next (applyOps ops st)).
Qed.

Lemma fetchAndStore_alone e i catches fuel st :
  let run := runRetrieval h (repeat EvResume (S fuel))
               (inl {| retrievalEntity := e; retrievalId := i;
                       retrievalAwait := AwaitWebAPI; retrievalCatches := catches |})
               (applyOps [OpSetLoading (cacheKeyOf e i); OpRequest e i] st) in
  run.2 = inr (fetchAndStore h e i st).1 ∧
  applyOps run.1 (applyOps [OpSetLoading (cacheKeyOf e i); OpRequest e i] st)
  = unwound (cacheKeyOf e i) catches (fetchAndStore h e i st).
Proof.
  intros run. subst run. change (repeat EvResume (S fuel)) with (EvResume :: repeat EvResume fuel).
  rewrite runRetrieval_resume. unfold resumeRetrieval, fetchAndStore, unwound. simpl.
  destruct (webAPI_retrieveRecord h e i) as [r|]; simpl;
    rewrite runRetrieval_finished; simpl; rewrite ?app_nil_r; by split.
Qed.

Lemma enterCall_alone n e i retryCount catches fuel st :
  (MAX_RETRIES - retryCount = n)%nat → (n < fuel)%nat →
  let ent := enterCall e i retryCount catches st in
  let run := runRetrieval h (repeat EvResume fuel) ent.2 (applyOps ent.1 st) in
  run.2 = inr (retrieveAttempt h n e i st).1 ∧
  applyOps (ent.1 ++ run.1) st = unwound (cacheKeyOf e i) catches (retrieveAttempt h n e i st).
Proof.
  revert retryCount catches fuel st.
  induction n as [|n IH]; intros retryCount catches fuel st Hn Hfuel ent run;
    subst ent run; rewrite retrieveAttempt_eq; cbv zeta; unfold enterCall;
    set (key := cacheKeyOf e i);
    change (recordCache (trackKey key st)) with (recordCache st);
    (destruct (recordCache st !! key ≫= entryRecord) as [r|] eqn:Hrec;
     [cbn [fst snd]; rewrite runRetrieval_finished, app_nil_r; cbn [fst snd];
      split; [done | unfold unwound; cbn [fst snd]; apply applyOps_track] |]).
  - assert (Hmax : (MAX_RETRIES <=? retryCount)%nat = true) by (apply Nat.leb_le; lia).
    rewrite Hmax. destruct fuel as [|fuel]; [lia |].
    destruct (entryLoading (recordCache st !! key)); cbn [fst snd].
    + rewrite (applyOps_app (_ ++ _)).
      assert (Hstate : ∀ track,
        applyOps track st = trackKey key st →
        applyOps (track ++ [OpDelete key; OpSetLoading key; OpRequest e i]) st
        = applyOps [OpSetLoading key; OpRequest e i]
            (withCache (delete key) (trackKey key st))).
      { intros track Htrack. by rewrite applyOps_app, Htrack. }
      rewrite !(Hstate _ (applyOps_track key st)).
      apply (fetchAndStore_alone e i catches fuel (withCache (delete key) (trackKey key st))).
    + rewrite (applyOps_app (_ ++ _)).
      assert (Hstate : ∀ track,
        applyOps track st = trackKey key st →
        applyOps (track ++ [OpSetLoading key; OpRequest e i]) st
        = applyOps [OpSetLoading key; OpRequest e i] (trackKey key st)).
      { intros track Htrack. by rewrite applyOps_app, Htrack. }
      rewrite !(Hstate _ (applyOps_track key st)).
      apply (fetchAndStore_alone e i catches fuel (trackKey key st)).
  - destruct fuel as [|fuel]; [lia |].
    destruct (entryLoading (recordCache st !! key)); cbn [fst snd].
    + assert (Hmax : (MAX_RETRIES <=? retryCount)%nat = false) by (apply Nat.leb_gt; lia).
      rewrite Hmax. cbn [fst snd].
      change (repeat EvResume (S fuel)) with (EvResume :: repeat EvResume fuel).
      rewrite runRetrieval_resume. cbn [fst snd].
      unfold resumeRetrieval. cbn [retrievalAwait retrievalEntity retrievalId retrievalCatches].
      rewrite !applyOps_track.
      destruct (IH (S retryCount) (S catches) fuel (trackKey key st)) as [Hres Hst];
        [lia | lia |]. fold key in Hres, Hst.
      rewrite !applyOps_app, applyOps_track. rewrite <- applyOps_app.
      rewrite Hres, Hst. unfold unwound.
      destruct (retrieveAttempt h n e i (trackKey key st)) as [[r|] st'] eqn:Hrun;
        cbn [fst snd]; (split; [done |]); [done |].
      change (repeat (OpDelete key) (S catches))
        with ([OpDelete key] ++ repeat (OpDelete key) catches).
      by rewrite applyOps_app.
    + rewrite (applyOps_app (_ ++ _)).
      assert (Hstate : ∀ track,
        applyOps track st = trackKey key st →
        applyOps (track ++ [OpSetLoading key; OpRequest e i]) st
        = applyOps [OpSetLoading key; OpRequest e i] (trackKey key st)).
      { intros track Htrack. by rewrite applyOps_app, Htrack. }
      rewrite !(Hstate _ (applyOps_track key st)).
      apply (fetchAndStore_alone e i catches fuel (trackKey key st)).
Qed.

(** Resumed to its end with nothing in between, the retrieval gives the
    result and the state of [retrieveRecordWithCache] run as one call. *)
Lemma retrievalTrace_alone e i retryCount st :
  (retrievalTrace h e i retryCount (repeat EvResume (S MAX_RETRIES)) st).2
  = inr (retrieveRecordWithCache h e i retryCount st).1 ∧
  applyOps (retrievalTrace h e i retryCount (repeat EvResume (S MAX_RETRIES)) st).1 st
  = (retrieveRecordWithCache h e i retryCount st).2.
Proof.
  unfold retrievalTrace, retrieveRecordWithCache.
  destruct (enterCall_alone (MAX_RETRIES - retryCount) e i retryCount 0 (S MAX_RETRIES) st)
    as [Hres Hst]; [done | lia |]. cbv zeta in Hres, Hst.
  destruct (enterCall e i retryCount 0 st) as [ops now]. cbn [fst snd] in *.
  destruct (runRetrieval h (repeat EvResume (S MAX_RETRIES)) now (applyOps ops st))
    as [ops' final]. cbn [fst snd] in *.
  split; [exact Hres |]. rewrite Hst. unfold unwound.
  by destruct (retrieveAttempt h (MAX_RETRIES - retryCount) e i st) as [[r|] st'].
Qed.

(** C10, as amended: in one call of [retrieveRecordWithCache], with the
    post-save handler and the unmount cleanup running at any of its
    [await]s, every key is in the tracking set at the moment an entry
    (loading marker or completed record) is written under it, and the
    tracking set never loses a key; hence a handler, when it runs, leaves
    no entry that the call has written up to then.  What the call writes
    after the handler has run is out of the handler's reach.  A call for
    a key without an entry tracks the key if need be, writes the loading
    marker and calls the Web API before anything else can happen. *)
Theorem C10_keys_are_tracked_before_written e i retryCount events st :
  let ops := (retrievalTrace h e i retryCount events st).1 in
  (∀ pre op post k, ops = pre ++ op :: post → writes op = Some k →
     k ∈ fetchedRecordKeys (applyOps pre st)) ∧
  (∀ pre post, ops = pre ++ post →
     fetchedRecordKeys (applyOps pre st) ⊆ fetchedRecordKeys (applyOps ops st)) ∧
  (∀ pre post, ops = pre ++ OpDeleteFetched :: post →
     ∀ op k, op ∈ pre → writes op = Some k →
       recordCache (applyOps (pre ++ [OpDeleteFetched]) st) !! k = None) ∧
  (recordCache st !! cacheKeyOf e i = None →
   ∃ rest, ops = (if bool_decide (cacheKeyOf e i ∈ fetchedRecordKeys st) then []
                  else [OpTrack (cacheKeyOf e i)])
                 ++ [OpSetLoading (cacheKeyOf e i); OpRequest e i] ++ rest).
Proof.
  intros ops. pose proof (retrievalTrace_tracked e i retryCount events st) as Ht.
  fold ops in Ht. split; [|split; [|split]].
  - intros pre op post k Hops Hk. by eapply trackedBeforeWritten_split.
  - intros pre post ->. rewrite applyOps_app. apply applyOps_keys.
  - intros pre post Hops op k Hin Hk. rewrite Hops in Ht.
    apply trackedBeforeWritten_app in Ht as [Hpre _].
    pose proof (written_keys_tracked st pre op k Hpre Hin Hk) as Hkey.
    rewrite applyOps_app. change (applyOps [OpDeleteFetched] ?s) with (deleteFetchedKeys s).
    rewrite deleteFetchedKeys_lookup. by rewrite decide_True.
  - intros Hnone. subst ops. unfold retrievalTrace, enterCall. rewrite Hnone. simpl.
    destruct (runRetrieval h events _ _) as [ops' final]. exists ops'. simpl.
    by rewrite <- app_assoc.
Qed.

(** *** The lookup resolver *)

Lemma fetchNextLevels_break field rest currentRecord result st st' :
  fetchSingleLevelRecord h currentRecord field st = (Returned None, st') →
  fetchNextLevels h (field :: rest) currentRecord result st = (Returned result, st').
Proof. intros Hs. simpl. by rewrite Hs. Qed.

(** When the first hop is fetched and the record it gives lacks the id
    attribute of the second lookup, the component's [fetchRelatedRecord]
    returns that first record, whatever the rest of the chain. *)
Lemma fetchRelatedRecord_missing_second_hop record first second rest r e st st1 :
  fetchSingleLevelRecord h record first st = (Returned (Some (r, e)), st1) →
  getField r (idFieldOf second) = VUndefined →
  fetchRelatedRecord h (Some record) (first :: second :: rest) st = (Some r, st1).
Proof.
  intros Hfirst Hmissing. unfold fetchRelatedRecord. rewrite Hfirst.
  rewrite (fetchNextLevels_break second rest r r st1 st1); [done |].
  unfold fetchSingleLevelRecord. by rewrite Hmissing.
Qed.

(** The evaluator's [fetchRelatedRecord] returns null in that case. *)
Lemma evaluator_fetchNextLevels_missing_hop second rest r ev :
  getField r (idFieldOf second) = VUndefined →
  ExpressionEvaluator.fetchNextLevels h (second :: rest) r ev = (None, ev).
Proof.
  intros Hmissing. simpl. unfold ExpressionEvaluator.lookupHop. by rewrite Hmissing.
Qed.

Lemma tracked_fetchSingleLevelRecord currentRecord field st :
  tracked st (fetchSingleLevelRecord h currentRecord field st).2.
Proof.
  unfold fetchSingleLevelRecord.
  destruct (getField currentRecord (idFieldOf field)) as [| | | |id| |];
    try apply tracked_refl.
  destruct (getField currentRecord (logicalNameFieldOf field)) as [| | | |entity| |];
    try apply tracked_refl.
  destruct (negb (id =? "")%string && negb (entity =? "")%string);
    [|apply tracked_refl].
  unfold retrieveRecordWithCache.
  pose proof (tracked_retrieveAttempt (MAX_RETRIES - 0) entity id
                (trackKey (cacheKeyOf entity id) st)) as [Ht _].
  destruct (retrieveAttempt h (MAX_RETRIES - 0) entity id _) as [[r|] st2];
    (eapply tracked_trans; [apply tracked_trackKey | exact Ht]).
Qed.

Lemma tracked_fetchNextLevels lookups currentRecord result st :
  tracked st (fetchNextLevels h lookups currentRecord result st).2.
Proof.
  revert currentRecord result st.
  induction lookups as [|field rest IH]; intros currentRecord result st; simpl;
    [apply tracked_refl |].
  pose proof (tracked_fetchSingleLevelRecord currentRecord field st) as Ht.
  destruct (fetchSingleLevelRecord h currentRecord field st) as [[[[r e]|]|] st']; try done.
  eapply tracked_trans; [exact Ht | apply IH].
Qed.

Lemma tracked_fetchRelatedRecord record lookupPath st :
  tracked st (fetchRelatedRecord h record lookupPath st).2.
Proof.
  unfold fetchRelatedRecord.
  destruct record as [currentRecord|]; [|apply tracked_refl].
  destruct lookupPath as [|first rest]; [apply tracked_refl |].
  pose proof (tracked_fetchSingleLevelRecord currentRecord first st) as Ht.
  destruct (fetchSingleLevelRecord h currentRecord first st) as [[[[r e]|]|] st']; try done.
  pose proof (tracked_fetchNextLevels rest r r st') as Hn.
  destruct (fetchNextLevels h rest r r st') as [[result|] st''];
    by eapply tracked_trans.
Qed.

Lemma tracked_resolveFieldValues record fieldRefs resolvedValues st :
  tracked st (resolveFieldValues h record fieldRefs resolvedValues st).2.
Proof.
  revert resolvedValues st.
  induction fieldRefs as [|ref rest IH]; intros resolvedValues st; simpl;
    [apply tracked_refl |].
  assert (Ht : tracked st (resolveFieldValue h record ref st).2).
  { unfold resolveFieldValue. destruct (includesChar "." (fieldPath ref));
      [|apply tracked_refl].
    destruct (String.eqb _ "id"); [apply tracked_refl |].
    pose proof (tracked_fetchRelatedRecord (Some record)
                  (initParts (splitOn "." (fieldPath ref))) st) as Hr.
    by destruct (fetchRelatedRecord h _ _ st) as [[r|] st']. }
  destruct (resolveFieldValue h record ref st) as [fieldValue st'].
  eapply tracked_trans; [exact Ht | apply IH].
Qed.

(** Resolving a template keeps the tracking invariant: whatever it
    changed in the cache lies under a tracked key. *)
Lemma tracked_asyncReplaceDynamicValues record text st :
  tracked st (asyncReplaceDynamicValues h record text st).2.
Proof.
  unfold asyncReplaceDynamicValues.
  destruct text as [t|]; [|apply tracked_refl].
  destruct record as [r|]; [|apply tracked_refl].
  destruct (String.eqb t ""); [apply tracked_refl |].
  pose proof (tracked_resolveFieldValues r (extractFieldRefs t) ∅ st) as Ht.
  by destruct (resolveFieldValues h r (extractFieldRefs t) ∅ st).
Qed.

(** *** Literal substitution *)

Lemma append_cons c (a b : string) : String c a +:+ b = String c (a +:+ b).
Proof. reflexivity. Qed.

Lemma prefix_split s t :
  String.prefix s t = true → t = s +:+ dropChars (String.length s) t.
Proof.
  revert t. induction s as [|c s IH]; intros t Hp; [done |].
  destruct t as [|d t]; [done |]. simpl in Hp.
  destruct (ascii_dec c d) as [->|]; [|done]. simpl. rewrite append_cons.
  f_equal. by apply IH.
Qed.

Lemma append_assoc (a b c : string) : (a +:+ b) +:+ c = a +:+ (b +:+ c).
Proof. induction a as [|x a IH]; [done | by rewrite !append_cons, IH]. Qed.

Lemma findFirst_eq search text :
  findFirst search text =
  if String.prefix search text
  then Some (EmptyString, dropChars (String.length search) text)
  else match text with
       | EmptyString => None
       | String c t =>
           match findFirst search t with
           | Some (before, after) => Some (String c before, after)
           | None => None
           end
       end.
Proof. by destruct text. Qed.

Lemma findFirst_split search text before after :
  findFirst search text = Some (before, after) →
  text = before +:+ search +:+ after.
Proof.
  revert before after. induction text as [|c t IH]; intros before after;
    rewrite findFirst_eq; destruct (String.prefix search _) eqn:Hp;
    try (intros [= <- <-]; by apply prefix_split in Hp).
  destruct (findFirst search t) as [[b a]|] eqn:Hf; [|done].
  intros [= <- <-]. rewrite append_cons. f_equal. by apply IH.
Qed.

Lemma getSubstitution_other matched before after c r :
  c ≠ "$"%char →
  getSubstitution matched before after (String c r)
  = String c (getSubstitution matched before after r).
Proof.
  intros Hne. destruct c as [[] [] [] [] [] [] [] []]; try reflexivity. by destruct Hne.
Qed.

Lemma getSubstitution_plain matched before after replacement :
  includesChar "$" replacement = false →
  getSubstitution matched before after replacement = replacement.
Proof.
  induction replacement as [|c r IH]; [done |]. intros Hn. simpl in Hn.
  apply orb_false_elim in Hn as [Hc Hr].
  destruct (Ascii.eqb_spec c "$") as [->|Hne]; [done |].
  rewrite getSubstitution_other by done. by rewrite IH.
Qed.

Lemma jsReplace_self text s :
  includesChar "$" s = false → jsReplace text s s = text.
Proof.
  intros Hn. unfold jsReplace.
  destruct (findFirst s text) as [[before after]|] eqn:Hf; [|done].
  rewrite getSubstitution_plain by done. symmetry. by apply findFirst_split.
Qed.

Lemma substituteRef_undefined resolvedValues newText ref :
  rawUndefined resolvedValues ref →
  includesChar "$" (fullMatch ref) = false →
  substituteRef h resolvedValues newText ref = newText.
Proof.
  intros Hu Hd. unfold substituteRef, finalValue. unfold rawUndefined in Hu.
  rewrite Hu. simpl. by apply jsReplace_self.
Qed.

Lemma substitute_defined_only resolvedValues refs text :
  Forall (fun ref => rawUndefined resolvedValues ref →
                     includesChar "$" (fullMatch ref) = false) refs →
  List.fold_left (substituteRef h resolvedValues) refs text
  = List.fold_left (substituteRef h resolvedValues)
      (filter (fun ref => ¬ rawUndefined resolvedValues ref) refs) text.
Proof.
  revert text. induction refs as [|ref refs IH]; intros text Hall; [done |].
  inversion Hall as [|? ? Href Hrest]; subst. rewrite filter_cons. simpl.
  destruct (decide (¬ rawUndefined resolvedValues ref)) as [Hdef|Hund].
  - simpl. by apply IH.
  - assert (Hu : rawUndefined resolvedValues ref)
      by (destruct (decide (rawUndefined resolvedValues ref)); [done | by destruct Hund]).
    rewrite substituteRef_undefined by auto. by apply IH.
Qed.

Lemma filter_defined_nil resolvedValues (refs : list FieldRef) :
  Forall (rawUndefined resolvedValues) refs →
  filter (fun ref => ¬ rawUndefined resolvedValues ref) refs = [].
Proof.
  induction 1 as [|ref l Href _ IH]; [done |]. rewrite filter_cons.
  destruct (decide (¬ rawUndefined resolvedValues ref)) as [Hdef|_];
    [by destruct Hdef | exact IH].
Qed.

(** Reading a name off a record gives undefined exactly when the record
    has no attribute of that name (or holds undefined there) and the name
    is not one every object inherits. *)
Lemma getField_undefined r k :
  getField r k = VUndefined ↔
  r !! k = Some VUndefined ∨ (r !! k = None ∧ inheritsMember k = false).
Proof.
  unfold getField. destruct (r !! k) as [v|].
  - split; [intros ->; by left | by intros [[= ->]|[? _]]].
  - destruct (inheritsMember k); split; try done.
    + by intros [?|[_ ?]].
    + intros _. by right.
Qed.

(** The value stored for an undotted path is the one the base record
    gives for it. *)
Lemma resolveFieldValues_plain record refs resolvedValues st path :
  includesChar "." path = false →
  path ∈ List.map fieldPath refs
  ∨ resolvedValues !! path = Some (getField record path) →
  (resolveFieldValues h record refs resolvedValues st).1 !! path
  = Some (getField record path).
Proof.
  intros Hplain. revert resolvedValues st.
  induction refs as [|ref rest IH]; intros resolvedValues st Hin;
    cbn [resolveFieldValues List.map].
  - destruct Hin as [Hin|Hin]; [by apply elem_of_nil in Hin | done].
  - destruct (resolveFieldValue h record ref st) as [fieldValue st'] eqn:Hres.
    apply IH. destruct (decide (fieldPath ref = path)) as [Heq|Hne].
    + right. rewrite Heq, lookup_insert_eq. unfold resolveFieldValue in Hres.
      rewrite Heq, Hplain in Hres. by injection Hres as <- _.
    + destruct Hin as [Hin|Hin].
      * apply elem_of_cons in Hin as [Heq|Hin]; [by destruct Hne | by left].
      * right. by rewrite lookup_insert_ne.
Qed.

(** C2, as amended: a token whose raw value is undefined is replaced by
    its own matched text, which, the text having no dollar sign, leaves
    the working text as it was.  The resolved text is therefore what the
    substitutions of the tokens with a defined value produce on their own,
    and a template all of whose tokens are undefined comes back
    unchanged.  For an undotted token the raw value is undefined exactly
    when the base record has no such attribute and the path is not the
    name of a member every object inherits. *)
Theorem C2_undefined_tokens_keep_their_text record text st :
  let refs := extractFieldRefs text in
  let resolvedValues := (resolveFieldValues h record refs ∅ st).1 in
  Forall (fun ref => rawUndefined resolvedValues ref →
                     includesChar "$" (fullMatch ref) = false) refs →
  (asyncReplaceDynamicValues h (Some record) (Some text) st).1
    = List.fold_left (substituteRef h resolvedValues)
        (filter (fun ref => ¬ rawUndefined resolvedValues ref) refs) text ∧
  (Forall (rawUndefined resolvedValues) refs →
   (asyncReplaceDynamicValues h (Some record) (Some text) st).1 = text) ∧
  (∀ ref, ref ∈ refs → includesChar "." (fieldPath ref) = false →
     (rawUndefined resolvedValues ref ↔
      record !! fieldPath ref = Some VUndefined
      ∨ (record !! fieldPath ref = None ∧ inheritsMember (fieldPath ref) = false))).
Proof.
  intros refs resolvedValues Hall.
  assert (Hrun : (asyncReplaceDynamicValues h (Some record) (Some text) st).1
                 = List.fold_left (substituteRef h resolvedValues) refs text).
  { unfold asyncReplaceDynamicValues. subst resolvedValues refs.
    destruct (String.eqb_spec text "") as [->|_]; [reflexivity |].
    by destruct (resolveFieldValues h record (extractFieldRefs text) ∅ st). }
  rewrite Hrun, (substitute_defined_only resolvedValues refs text Hall).
  split; [done |]. split.
  - intros Hund. by rewrite (filter_defined_nil resolvedValues refs Hund).
  - intros ref Hin Hplain. unfold rawUndefined. subst resolvedValues.
    rewrite (resolveFieldValues_plain record refs ∅ st (fieldPath ref) Hplain)
      by (left; by apply list_elem_of_fmap_2).
    apply getField_undefined.
Qed.

(** *** Resolution of the raw values *)

Lemma splitOn_nonempty c s : splitOn c s ≠ [].
Proof.
  destruct s as [|a s]; simpl; [done |].
  destruct (Ascii.eqb a c); [done |]. by destruct (splitOn c s).
Qed.

Lemma splitOn_no_separator c s : includesChar c s = false → splitOn c s = [s].
Proof.
  induction s as [|a s IH]; simpl; [done |]. intros Hn.
  apply orb_false_elim in Hn as [Ha Hs]. rewrite Ha. by rewrite IH.
Qed.

Lemma splitOn_separator c s :
  includesChar c s = true → ∃ a b rest, splitOn c s = a :: b :: rest.
Proof.
  induction s as [|x s IH]; simpl; [done |]. intros Hin.
  destruct (Ascii.eqb x c) eqn:Hx.
  - pose proof (splitOn_nonempty c s) as Hne.
    destruct (splitOn c s) as [|b rest]; [done |]. by eexists _, _, _.
  - simpl in Hin. destruct (IH Hin) as (a & b & rest & ->). by eexists _, _, _.
Qed.

Lemma includes_of_two_parts c s a b :
  splitOn c s = [a; b] → includesChar c s = true.
Proof.
  intros Hs. destruct (includesChar c s) eqn:Hi; [done |].
  rewrite splitOn_no_separator in Hs by done. discriminate.
Qed.

Lemma retrieveAttempt_hit n e i st r :
  cachedRecord st (cacheKeyOf e i) = Some r →
  retrieveAttempt h n e i st = (Returned r, trackKey (cacheKeyOf e i) st).
Proof.
  intros Hc. rewrite retrieveAttempt_eq; cbv zeta.
  unfold cachedRecord in Hc. simpl recordCache. by rewrite Hc.
Qed.

Lemma retrieveAttempt_miss_ok n e i st r :
  recordCache st !! cacheKeyOf e i = None →
  webAPI_retrieveRecord h e i = Some r →
  ∃ st', retrieveAttempt h n e i st = (Returned r, st') ∧
         cachedRecord st' (cacheKeyOf e i) = Some r ∧
         webRequests st' = webRequests st ++ [(e, i)].
Proof.
  intros Hc Hok. rewrite retrieveAttempt_eq; cbv zeta. simpl recordCache.
  rewrite Hc. simpl. unfold fetchAndStore. rewrite Hok.
  eexists; split; [reflexivity |]. unfold cachedRecord. simpl.
  by rewrite lookup_insert_eq.
Qed.

Section OneHop.
Context (record : JsRecord) (ref : FieldRef) (lookup final e i : string).
Hypothesis Hparts : splitOn "." (fieldPath ref) = [lookup; final].
Hypothesis Hfinal : String.eqb (toLowerCase final) "id" = false.
Hypothesis Hid : getField record (idFieldOf lookup) = VStr i.
Hypothesis Hentity : getField record (logicalNameFieldOf lookup) = VStr e.
Hypothesis Hi : String.eqb i "" = false.
Hypothesis He : String.eqb e "" = false.

Lemma resolveFieldValue_one_hop st :
  resolveFieldValue h record ref st =
  match retrieveAttempt h MAX_RETRIES e i (trackKey (cacheKeyOf e i) st) with
  | (Returned r, st') => (getField r final, st')
  | (Thrown, st') => (VUndefined, st')
  end.
Proof.
  unfold resolveFieldValue.
  rewrite (includes_of_two_parts _ _ _ _ Hparts), Hparts.
  unfold initParts, lastPart. simpl List.removelast. simpl List.last. rewrite Hfinal.
  unfold fetchRelatedRecord, fetchSingleLevelRecord. rewrite Hid, Hentity, Hi, He.
  simpl negb. simpl andb. cbv iota.
  change (retrieveRecordWithCache h e i 0) with (retrieveAttempt h MAX_RETRIES e i).
  destruct (retrieveAttempt h MAX_RETRIES e i (trackKey (cacheKeyOf e i) st))
    as [[r|] st']; reflexivity.
Qed.

Lemma resolve_occurrence_failing st :
  recordCache st !! cacheKeyOf e i = None →
  webAPI_retrieveRecord h e i = None →
  ∃ st', resolveFieldValue h record ref st = (VUndefined, st') ∧
         recordCache st' !! cacheKeyOf e i = None ∧
         webRequests st' = webRequests st ++ [(e, i)].
Proof.
  intros Hc Hf. rewrite resolveFieldValue_one_hop.
  destruct (retrieveAttempt_fails MAX_RETRIES e i (trackKey (cacheKeyOf e i) st))
    as (st' & -> & Hn & Hr); try done.
  - unfold cachedRecord. simpl. by rewrite Hc.
  - by exists st'.
Qed.

Lemma resolve_occurrence_cached st r :
  cachedRecord st (cacheKeyOf e i) = Some r →
  ∃ st', resolveFieldValue h record ref st = (getField r final, st') ∧
         cachedRecord st' (cacheKeyOf e i) = Some r ∧
         webRequests st' = webRequests st.
Proof.
  intros Hc. rewrite resolveFieldValue_one_hop.
  rewrite (retrieveAttempt_hit _ _ _ _ r) by done. by eexists.
Qed.

Lemma resolve_occurrence_fetching st r :
  recordCache st !! cacheKeyOf e i = None →
  webAPI_retrieveRecord h e i = Some r →
  ∃ st', resolveFieldValue h record ref st = (getField r final, st') ∧
         cachedRecord st' (cacheKeyOf e i) = Some r ∧
         webRequests st' = webRequests st ++ [(e, i)].
Proof.
  intros Hc Hok. rewrite resolveFieldValue_one_hop.
  destruct (retrieveAttempt_miss_ok MAX_RETRIES e i (trackKey (cacheKeyOf e i) st) r)
    as (st' & -> & Hc' & Hr); try done.
  by exists st'.
Qed.

Lemma repeated_failing n vals st :
  recordCache st !! cacheKeyOf e i = None →
  webAPI_retrieveRecord h e i = None →
  webRequests (resolveFieldValues h record (repeat ref n) vals st).2
  = webRequests st ++ repeat (e, i) n.
Proof.
  intros Hc Hf. revert vals st Hc.
  induction n as [|n IH]; intros vals st Hc; simpl; [by rewrite app_nil_r |].
  destruct (resolve_occurrence_failing st Hc Hf) as (st' & -> & Hc' & Hr).
  rewrite IH by done. rewrite Hr. by rewrite <- app_assoc.
Qed.

Lemma repeated_cached n vals st r :
  cachedRecord st (cacheKeyOf e i) = Some r →
  webRequests (resolveFieldValues h record (repeat ref n) vals st).2 = webRequests st.
Proof.
  revert vals st. induction n as [|n IH]; intros vals st Hc; simpl; [done |].
  destruct (resolve_occurrence_cached st r Hc) as (st' & -> & Hc' & Hr).
  rewrite (IH _ _ Hc'). exact Hr.
Qed.

End OneHop.

(** C4, as amended: the first loop resolves every occurrence of a
    reference, not every distinct path.  For [n] occurrences of a one-hop
    path whose related record is not in the cache, a Web API that fails is
    called [n] times; one that answers is called once, the later
    occurrences being served from the record cache. *)
Theorem C4_resolution_runs_per_occurrence record ref lookup final e i n vals st :
  splitOn "." (fieldPath ref) = [lookup; final] →
  String.eqb (toLowerCase final) "id" = false →
  getField record (idFieldOf lookup) = VStr i →
  getField record (logicalNameFieldOf lookup) = VStr e →
  String.eqb i "" = false →
  String.eqb e "" = false →
  recordCache st !! cacheKeyOf e i = None →
  webRequests (resolveFieldValues h record (repeat ref n) vals st).2
  = webRequests st ++
    match webAPI_retrieveRecord h e i with
    | None => repeat (e, i) n
    | Some _ => repeat (e, i) (Nat.min n 1)
    end.
Proof.
  intros Hparts Hfinal Hid Hentity Hi He Hc.
  destruct (webAPI_retrieveRecord h e i) as [r|] eqn:Hapi.
  - destruct n as [|n]; simpl; [by rewrite app_nil_r |].
    destruct (resolve_occurrence_fetching record ref lookup final e i
                Hparts Hfinal Hid Hentity Hi He st r Hc Hapi) as (st' & -> & Hc' & Hr).
    rewrite (repeated_cached record ref lookup final e i
               Hparts Hfinal Hid Hentity Hi He n _ st' r Hc').
    rewrite Hr. by destruct n.
  - by apply (repeated_failing record ref lookup final e i
                Hparts Hfinal Hid Hentity Hi He).
Qed.

(** C5, as amended: a dotted reference whose last segment is [id] in any
    letter case resolves to the attribute [_<first segment>_value] of the
    base record, or to the token's own text when that attribute is absent
    or null; the segments between the first and the last play no part, and
    the component's state (cache, tracked keys, requests) is untouched. *)
Theorem C5_id_token_reads_first_lookup_of_base_record record ref st :
  includesChar "." (fieldPath ref) = true →
  String.eqb (toLowerCase (lastPart (splitOn "." (fieldPath ref)))) "id" = true →
  resolveFieldValue h record ref st =
  (nullish (getField record (idFieldOf (List.hd EmptyString (splitOn "." (fieldPath ref)))))
           (VStr (fullMatch ref)), st).
Proof.
  intros Hdot Hidseg. unfold resolveFieldValue. rewrite Hdot, Hidseg.
  destruct (splitOn_separator _ _ Hdot) as (a & b & rest & ->). reflexivity.
Qed.

(** *** Value coercion *)

Lemma matchClasses_shaped classes s rest :
  matchClasses classes s = Some rest ↔ ∃ body, s = body +:+ rest ∧ shaped classes body.
Proof.
  revert s. induction classes as [|p classes IH]; intros s; simpl.
  - split.
    + intros [= ->]. exists EmptyString. split; [done | constructor].
    + intros (body & -> & Hs). destruct body; [done | inversion Hs].
  - destruct s as [|c s].
    + split; [done |]. intros (body & Hb & Hs).
      destruct body; [inversion Hs | discriminate].
    + destruct (p c) eqn:Hp.
      * rewrite IH. split.
        -- intros (body & -> & Hs). exists (String c body). split; [done |].
           by constructor.
        -- intros (body & Hb & Hs). destruct body as [|c' body]; [inversion Hs |].
           rewrite append_cons in Hb. injection Hb as <- ->.
           inversion Hs; subst. by exists body.
      * split; [done |]. intros (body & Hb & Hs).
        destruct body as [|c' body]; [inversion Hs |].
        rewrite append_cons in Hb. injection Hb as <- ->.
        inversion Hs; subst. congruence.
Qed.

Lemma shaped_length classes s : shaped classes s → String.length s = length classes.
Proof.
  revert s. induction classes as [|p classes IH]; intros s Hs.
  - destruct s; [done | inversion Hs].
  - destruct s as [|c s]; [inversion Hs |]. inversion Hs; subst. simpl. f_equal.
    by apply IH.
Qed.

Lemma append_empty_r (s : string) : s +:+ "" = s.
Proof. induction s as [|c s IH]; [done |]. by rewrite append_cons, IH. Qed.

Lemma isDateString_shaped s : isDateString s = true ↔ timestampShaped s.
Proof.
  unfold isDateString, timestampShaped. split.
  - destruct (matchClasses dateTimeClasses s) as [rest|] eqn:Hm; [|done].
    apply matchClasses_shaped in Hm as (body & -> & Hb). intros Hz.
    exists body, rest. repeat split; try done.
    destruct (String.eqb_spec rest "") as [->|_]; [by left |].
    destruct (String.eqb_spec rest "Z") as [->|_]; [by right; left |].
    destruct (matchClasses offsetClasses rest) as [[|]|] eqn:Ho; try done.
    apply matchClasses_shaped in Ho as (zone & -> & Hzone).
    right; right. by rewrite append_empty_r.
  - intros (body & zone & -> & Hb & Hz).
    assert (Hm : matchClasses dateTimeClasses (body +:+ zone) = Some zone)
      by (apply matchClasses_shaped; by exists body).
    rewrite Hm. destruct Hz as [->| [->|Hz]]; [done | done |].
    assert (Ho : matchClasses offsetClasses zone = Some "").
    { apply matchClasses_shaped. exists zone. by rewrite append_empty_r. }
    rewrite Ho. by repeat case_match.
Qed.

(** C6, as amended: coercion maps both null and undefined to null, a
    timestamp-shaped string (separator [T] or white space) to a date, and
    every other value, a date included, to itself. *)
Theorem C6_coercion_by_shape v :
  (v = VUndefined ∨ v = VNull → ExpressionEvaluator.convertValueToProperType v = VNull) ∧
  (∀ s, v = VStr s → timestampShaped s →
        ExpressionEvaluator.convertValueToProperType v = VDate s) ∧
  (∀ s, v = VStr s → ¬ timestampShaped s →
        ExpressionEvaluator.convertValueToProperType v = v) ∧
  ((∀ s, v ≠ VStr s) → v ≠ VUndefined →
        ExpressionEvaluator.convertValueToProperType v = v).
Proof.
  repeat split.
  - by intros [->| ->].
  - intros s -> Hs. apply isDateString_shaped in Hs. simpl. by rewrite Hs.
  - intros s -> Hs. simpl. destruct (isDateString s) eqn:Hd; [|done].
    by apply isDateString_shaped in Hd.
  - intros Hstr Hund. destruct v; try done. by destruct (Hstr s).
Qed.

(** *** Method suffixes *)


(** *** The expression evaluator *)



(** *** The button pipeline *)

Lemma insertConfig_perm c l : insertConfig c l ≡ₚ c :: l.
Proof.
  induction l as [|d l IH]; simpl; [done |].
  destruct (theia_buttonposition c <=? theia_buttonposition d); [done |].
  rewrite IH. apply perm_swap.
Qed.

Lemma sortConfigs_perm configs : sortConfigs configs ≡ₚ configs.
Proof.
  induction configs as [|c l IH]; simpl; [done |].
  rewrite insertConfig_perm. by rewrite IH.
Qed.

Lemma insertConfig_positions c l :
  positions (insertConfig c l) ≡ₚ theia_buttonposition c :: positions l.
Proof. unfold positions. by rewrite insertConfig_perm. Qed.

Lemma insertConfig_sorted c l :
  StronglySorted Z.le (positions l) →
  StronglySorted Z.le (positions (insertConfig c l)).
Proof.
  induction l as [|d l IH]; simpl; intros Hs.
  - repeat constructor.
  - inversion Hs as [|? ? Hl Hd]; subst.
    destruct (Z.leb_spec (theia_buttonposition c) (theia_buttonposition d)) as [Hle|Hgt];
      simpl.
    + constructor; [done |]. constructor; [done |].
      eapply Forall_impl; [exact Hd |]. simpl. intros; lia.
    + constructor; [by apply IH |].
      eapply Permutation_Forall; [symmetry; apply insertConfig_positions |].
      constructor; [lia | done].
Qed.

Lemma sortConfigs_sorted configs : StronglySorted Z.le (positions (sortConfigs configs)).
Proof.
  induction configs as [|c l IH]; simpl; [constructor |]. by apply insertConfig_sorted.
Qed.

Lemma insertConfig_stable p c l :
  filter (atPosition p) (insertConfig c l) = filter (atPosition p) (c :: l).
Proof.
  induction l as [|d l IH]; simpl; [done |].
  destruct (Z.leb_spec (theia_buttonposition c) (theia_buttonposition d)) as [Hle|Hgt];
    [done |].
  rewrite (filter_cons _ d), IH, !filter_cons.
  destruct (decide (atPosition p d)) as [Hd|Hd];
    destruct (decide (atPosition p c)) as [Hc|Hc]; try done.
  unfold atPosition in *. lia.
Qed.

Lemma sortConfigs_stable p configs :
  filter (atPosition p) (sortConfigs configs) = filter (atPosition p) configs.
Proof.
  induction configs as [|c l IH]; simpl; [done |].
  rewrite insertConfig_stable, !filter_cons. by rewrite IH.
Qed.

Lemma sublist_sorted (l1 l2 : list Z) :
  l1 `sublist_of` l2 → StronglySorted Z.le l2 → StronglySorted Z.le l1.
Proof.
  induction 1 as [|x l1 l2 Hsub IH|x l1 l2 Hsub IH]; intros Hs; [done | |].
  - inversion Hs as [|? ? Hl Hx]; subst. constructor; [by apply IH |].
    apply Forall_forall. intros y Hy. rewrite Forall_forall in Hx. apply Hx.
    by eapply elem_of_sublist.
  - inversion Hs; subst. by apply IH.
Qed.

Lemma sublist_filter_mono {A} (P : A → Prop) `{∀ x, Decision (P x)} (l1 l2 : list A) :
  l1 `sublist_of` l2 → filter P l1 `sublist_of` filter P l2.
Proof.
  induction 1 as [|x l1 l2 Hsub IH|x l1 l2 Hsub IH]; [done | |]; rewrite !filter_cons.
  - destruct (decide (P x)); [by constructor | done].
  - destruct (decide (P x)); [by constructor | done].
Qed.




Lemma resolvedFrom_positions kept out :
  Forall2 resolvedFrom kept out → positions out = positions kept.
Proof.
  induction 1 as [|c r kept out Hr _ IH]; [done |]. simpl.
  destruct Hr as [-> _]. by rewrite IH.
Qed.


End Verification.

(** * Concrete runs *)

Import Samples.

(** C1: the base contact resolves [parentcustomerid] to the account [c1],
    which has no [parentaccountid] lookup.  The component's
    [fetchRelatedRecord] leaves its loop and returns the account instead
    of null, so the token is replaced by the account's own [websiteurl];
    one request is made.  The evaluator's [fetchRelatedRecord] returns
    null on the same input. *)
Example C1_missing_second_hop_returns_first_record :
  (fetchRelatedRecord crmHost (Some contactRecord)
     ["parentcustomerid"; "parentaccountid"] emptyComponent).1 = Some accountRecord ∧
  (asyncReplaceDynamicValues crmHost (Some contactRecord)
     (Some "{parentcustomerid.parentaccountid.websiteurl}") emptyComponent).1 = "http://x" ∧
  webRequests (asyncReplaceDynamicValues crmHost (Some contactRecord)
     (Some "{parentcustomerid.parentaccountid.websiteurl}") emptyComponent).2
    = [("account", "c1")] ∧
  (ExpressionEvaluator.fetchRelatedRecord crmHost contactRecord
     ["parentcustomerid"; "parentaccountid"] ExpressionEvaluator.newEvaluator).1 = None.
Proof. vm_compute. repeat split. Qed.

(** C2 fails as stated: in [{b{a} {a}] the first token has no value and
    the second resolves to [X]; the literal replacement of [{a}] hits the
    text of the first token, which is gone from the output. *)
Lemma C2_counterexample :
  let record : JsRecord := <["a" := VStr "X"]> ∅ in
  let text := "{b{a} {a}" in
  let ref := {| fullMatch := "{b{a}"; fieldPath := "b{a"; methodCall := None |} in
  let out := (asyncReplaceDynamicValues (plainHost noRecords) (Some record)
                (Some text) emptyComponent).1 in
  ref ∈ extractFieldRefs text ∧
  default VUndefined
    ((resolveFieldValues (plainHost noRecords) record (extractFieldRefs text) ∅
        emptyComponent).1 !! fieldPath ref) = VUndefined ∧
  out = "{bX {a}" ∧
  findFirst (fullMatch ref) out = None.
Proof. vm_compute. repeat split. constructor. Qed.

Lemma C2_undefined_tokens_keep_their_text_witness :
  (asyncReplaceDynamicValues crmHost (Some contactRecord)
     (Some "{fullname}: {mobilephone} or {parentcustomerid.telephone1}.trim()")
     emptyComponent).1
  = "Ada: {mobilephone} or {parentcustomerid.telephone1}.trim()".
Proof.
  apply (C2_undefined_tokens_keep_their_text crmHost contactRecord
           "{fullname}: {mobilephone} or {parentcustomerid.telephone1}.trim()"
           emptyComponent).
  vm_compute. repeat (constructor || intro).
Defined.

(** A path that is the name of a member every object inherits has a
    value though the record has no such attribute: the token is replaced
    by the text of that member. *)
Example inherited_member_replaces_token :
  contactRecord !! "constructor" = None ∧
  (asyncReplaceDynamicValues crmHost (Some contactRecord) (Some "{constructor}")
     emptyComponent).1 = "function Object() { [native code] }".
Proof. vm_compute. split; reflexivity. Qed.

(** The dollar patterns of a string replacement are live in the
    substituted text: a token that holds [$$] is rewritten even though it
    is replaced by its own text. *)
Example dollar_pattern_rewrites_token :
  (asyncReplaceDynamicValues (plainHost noRecords) (Some contactRecord)
     (Some "{a$$b}") emptyComponent).1 = "{a$b}".
Proof. reflexivity. Qed.

(** C4 fails as stated: the template has one distinct path, occurring
    twice, and the Web API rejects the request; the lookup is resolved for
    each occurrence and the same request is made twice. *)
Lemma C4_counterexample :
  let text := "{parentcustomerid.name} {parentcustomerid.name}" in
  remove_dups (List.map fieldPath (extractFieldRefs text)) = ["parentcustomerid.name"] ∧
  webRequests (asyncReplaceDynamicValues (plainHost noRecords) (Some contactRecord)
                 (Some text) emptyComponent).2
  = [("account", "c1"); ("account", "c1")].
Proof. vm_compute. split; reflexivity. Qed.

Lemma C4_resolution_runs_per_occurrence_witness :
  webRequests (resolveFieldValues crmHost contactRecord
     (repeat {| fullMatch := "{parentcustomerid.name}";
                fieldPath := "parentcustomerid.name";
                methodCall := None |} 3) ∅ emptyComponent).2
  = [] ++ repeat ("account", "c1") (Nat.min 3 1).
Proof.
  apply (C4_resolution_runs_per_occurrence crmHost contactRecord _
           "parentcustomerid" "name" "account" "c1" 3 ∅ emptyComponent);
    reflexivity.
Defined.

(** C5 fails as stated: for [{a.b.id}] the id of the last lookup, [b], is
    stored on the record reached through [a] and is [B1]; the code reads
    [_a_value] off the base record and gives [A1]. *)
Lemma C5_counterexample :
  let ref := {| fullMatch := "{a.b.id}"; fieldPath := "a.b.id"; methodCall := None |} in
  (resolveFieldValue chainHost chainBase ref emptyComponent).1 = VStr "A1" ∧
  foreignKeyIdAtChainEnd chainHost chainBase ["a"; "b"] = VStr "B1" ∧
  (resolveFieldValue chainHost chainBase ref emptyComponent).1
    ≠ foreignKeyIdAtChainEnd chainHost chainBase ["a"; "b"].
Proof. vm_compute. repeat split. discriminate. Qed.

Lemma C5_id_token_reads_first_lookup_of_base_record_witness :
  resolveFieldValue crmHost contactRecord
    {| fullMatch := "{parentcustomerid.Id}"; fieldPath := "parentcustomerid.Id";
       methodCall := None |} emptyComponent
  = (VStr "c1", emptyComponent).
Proof.
  apply (C5_id_token_reads_first_lookup_of_base_record crmHost contactRecord
           {| fullMatch := "{parentcustomerid.Id}"; fieldPath := "parentcustomerid.Id";
              methodCall := None |} emptyComponent); reflexivity.
Defined.

Lemma C9_failed_fetch_removes_loading_marker_witness :
  ∃ st', retrieveRecordWithCache (plainHost noRecords) "account" "c1" 0 stuckComponent
           = (Thrown, st') ∧
         recordCache st' !! cacheKeyOf "account" "c1" = None ∧
         webRequests st' = webRequests stuckComponent ++ [("account", "c1")] ∧
         ∀ (h' : Host) retryCount',
           webRequests (retrieveRecordWithCache h' "account" "c1" retryCount' st').2
           = webRequests st' ++ [("account", "c1")].
Proof.
  apply (C9_failed_fetch_removes_loading_marker (plainHost noRecords)
           "account" "c1" 0 stuckComponent); reflexivity.
Defined.

(** C10 fails as stated: the component is unmounted while its retrieval
    of the account waits for the Web API.  The cleanup deletes the loading
    marker; the answer then arrives and the record is written under the
    tracked key, where it stays: the cleanup has run already. *)
Lemma C10_counterexample :
  let run := retrievalTrace crmHost "account" "c1" 0 [EvUnmount; EvResume] emptyComponent in
  run.1 = [OpTrack "account:c1"; OpSetLoading "account:c1"; OpRequest "account" "c1";
           OpDeleteFetched; OpSetRecord "account:c1" accountRecord] ∧
  run.2 = inr (Returned accountRecord) ∧
  recordCache (applyOps run.1 emptyComponent) !! "account:c1"
  = Some (loadedEntry accountRecord).
Proof. vm_compute. repeat split. Qed.

(** C6 fails as stated: undefined is not passed through, it becomes
    null. *)
Lemma C6_counterexample :
  ExpressionEvaluator.convertValueToProperType VUndefined = VNull ∧
  ExpressionEvaluator.convertValueToProperType VUndefined ≠ VUndefined.
Proof. split; [reflexivity | discriminate]. Qed.




(** One pass over four buttons: the hidden one is dropped, the others
    come out by position, the two at position 2 in their input order, and
    the label template is resolved. *)
Example resolveConfigs_sample :
  List.map (fun c => (theia_buttonlabel c, theia_buttonposition c, isVisible c))
    (resolveConfigs pickyHost (Some contactRecord) contactRecord
       [button "B {fullname}" 2 None; button "A" 1 (Some "false");
        button "C" 2 (Some "{fullname} != null"); button "D" 1 (Some "")]
       (emptyComponent, Some ExpressionEvaluator.newEvaluator)).1
  = [("D", 1, Some true); ("B Ada", 2, Some true); ("C", 2, Some true)].
Proof. reflexivity. Qed.

(** * Further properties *)

(** ** The token parser *)

Lemma matchBraces_eq s :
  matchBraces s =
  match s with
  | String c s1 =>
      if Ascii.eqb c "{" then
        match spanChars notCloseBrace s1 with
        | (String x p, String d s2) =>
            if Ascii.eqb d "}" then Some (String x p, s2) else None
        | _ => None
        end
      else None
  | EmptyString => None
  end.
Proof.
  destruct s as [|c s1]; [reflexivity |].
  destruct c as [[] [] [] [] [] [] [] []]; try reflexivity.
  unfold matchBraces. destruct (spanChars notCloseBrace s1) as [[|x p] [|d s2]];
    try reflexivity.
  destruct d as [[] [] [] [] [] [] [] []]; reflexivity.
Qed.

Lemma matchMethodCall_eq s :
  matchMethodCall s =
  match s with
  | String c s1 =>
      if Ascii.eqb c "." then
        match spanChars isIdentChar s1 with
        | (EmptyString, _) => None
        | (ident, String d s2) =>
            if Ascii.eqb d "(" then
              match spanChars notParen s2 with
              | (args, String e _) =>
                  if Ascii.eqb e ")"
                  then Some ("." +:+ ident +:+ "(" +:+ args +:+ ")")
                  else Some ("." +:+ ident)
              | (_, EmptyString) => Some ("." +:+ ident)
              end
            else Some ("." +:+ ident)
        | (ident, EmptyString) => Some ("." +:+ ident)
        end
      else None
  | EmptyString => None
  end.
Proof.
  destruct s as [|c s1]; [reflexivity |].
  destruct c as [[] [] [] [] [] [] [] []]; try reflexivity.
  unfold matchMethodCall. destruct (spanChars isIdentChar s1) as [[|x ident] [|d s2]];
    try reflexivity.
  destruct d as [[] [] [] [] [] [] [] []]; try reflexivity.
  destruct (spanChars notParen s2) as [args [|e s3]]; try reflexivity.
  destruct e as [[] [] [] [] [] [] [] []]; reflexivity.
Qed.

Lemma spanChars_spec p s a b :
  spanChars p s = (a, b) →
  s = a +:+ b ∧ allChars p a = true ∧
  match b with String c _ => p c = false | EmptyString => True end.
Proof.
  revert a b. induction s as [|c s IH]; intros a b; simpl.
  - by intros [= <- <-].
  - destruct (p c) eqn:Hc.
    + destruct (spanChars p s) as [a' b'] eqn:Hs. intros [= <- <-].
      destruct (IH a' b' eq_refl) as (-> & Ha & Hb). repeat split; try done.
      simpl. by rewrite Hc.
    + intros [= <- <-]. by repeat split.
Qed.

Lemma spanChars_app p a c b :
  allChars p a = true → p c = false →
  spanChars p (a +:+ String c b) = (a, String c b).
Proof.
  intros Ha Hc. induction a as [|x a IH].
  - change (EmptyString +:+ String c b) with (String c b). simpl. by rewrite Hc.
  - simpl in Ha. apply andb_true_iff in Ha as [Hx Ha].
    change (String x a +:+ String c b) with (String x (a +:+ String c b)).
    simpl. by rewrite Hx, (IH Ha).
Qed.

Lemma spanChars_all p a : allChars p a = true → spanChars p a = (a, EmptyString).
Proof.
  induction a as [|x a IH]; simpl; [done |]. intros Ha.
  apply andb_true_iff in Ha as [Hx Ha]. by rewrite Hx, (IH Ha).
Qed.

Lemma allChars_notCloseBrace s :
  allChars notCloseBrace s = true ↔ includesChar "}" s = false.
Proof.
  induction s as [|c s IH]; simpl; [done |]. unfold notCloseBrace at 1.
  rewrite andb_true_iff, orb_false_iff, IH, negb_true_iff. tauto.
Qed.

Lemma regexExecAll_plain {A} (matchAt : string → option (A * nat)) skip text :
  (∀ c s, c ≠ "{"%char → matchAt (String c s) = None) →
  includesChar "{" text = false →
  regexExecAll matchAt skip text = [].
Proof.
  intros Hstart. revert skip. induction text as [|c rest IH]; intros skip Hno; [done |].
  simpl in Hno. apply orb_false_elim in Hno as [Hc Hrest].
  apply Ascii.eqb_neq in Hc. simpl. destruct skip as [|k]; [|by apply IH].
  rewrite (Hstart c rest Hc). by apply IH.
Qed.

Lemma regexExecAll_origin {A} (matchAt : string → option (A * nat)) skip text a :
  a ∈ regexExecAll matchAt skip text →
  ∃ before suffix len, text = before +:+ suffix ∧ matchAt suffix = Some (a, len).
Proof.
  revert skip. induction text as [|c rest IH]; intros skip Hin; simpl in Hin.
  - by apply elem_of_nil in Hin.
  - assert (Hrest : ∀ k, a ∈ regexExecAll matchAt k rest →
              ∃ before suffix len,
                String c rest = before +:+ suffix ∧ matchAt suffix = Some (a, len)).
    { intros k Hk. destruct (IH k Hk) as (before & suffix & len & -> & Hm).
      by exists (String c before), suffix, len. }
    destruct skip as [|k]; [|by eapply Hrest].
    destruct (matchAt (String c rest)) as [[a' len]|] eqn:Hm; [|by eapply Hrest].
    apply elem_of_cons in Hin as [->|Hin]; [|by eapply Hrest].
    by exists EmptyString, (String c rest), len.
Qed.

Lemma regexExecAll_skip {A} (matchAt : string → option (A * nat)) a b :
  regexExecAll matchAt (String.length a) (a +:+ b) = regexExecAll matchAt O b.
Proof.
  induction a as [|c a IH]; [done |].
  change (String c a +:+ b) with (String c (a +:+ b)). simpl. exact IH.
Qed.

Lemma regexExecAll_after_plain {A} (matchAt : string → option (A * nat)) pre text :
  (∀ c s, c ≠ "{"%char → matchAt (String c s) = None) →
  includesChar "{" pre = false →
  regexExecAll matchAt O (pre +:+ text) = regexExecAll matchAt O text.
Proof.
  intros Hstart. induction pre as [|c pre IH]; intros Hno; [done |].
  simpl in Hno. apply orb_false_elim in Hno as [Hc Hpre].
  apply Ascii.eqb_neq in Hc.
  change (String c pre +:+ text) with (String c (pre +:+ text)). simpl.
  rewrite (Hstart c _ Hc). by apply IH.
Qed.

Lemma matchFieldRef_start c s : c ≠ "{"%char → matchFieldRef (String c s) = None.
Proof.
  intros Hc. unfold matchFieldRef. rewrite matchBraces_eq.
  apply Ascii.eqb_neq in Hc. by rewrite Hc.
Qed.

Lemma matchReference_start c s :
  c ≠ "{"%char → ExpressionEvaluator.matchReference (String c s) = None.
Proof.
  intros Hc. unfold ExpressionEvaluator.matchReference. rewrite matchBraces_eq.
  apply Ascii.eqb_neq in Hc. by rewrite Hc.
Qed.

Lemma matchBraces_shape s path rest :
  matchBraces s = Some (path, rest) →
  s = "{" +:+ path +:+ "}" +:+ rest ∧ path ≠ "" ∧ includesChar "}" path = false.
Proof.
  rewrite matchBraces_eq. destruct s as [|c s1]; [done |].
  destruct (Ascii.eqb_spec c "{") as [->|]; [|done].
  destruct (spanChars notCloseBrace s1) as [[|x p] [|d s2]] eqn:Hspan; try done.
  destruct (Ascii.eqb_spec d "}") as [->|]; [|done]. intros [= <- <-].
  apply spanChars_spec in Hspan as (-> & Hall & _).
  repeat split; [done |]. by apply allChars_notCloseBrace.
Qed.

Lemma matchBraces_make path rest :
  path ≠ "" → includesChar "}" path = false →
  matchBraces ("{" +:+ path +:+ "}" +:+ rest) = Some (path, rest).
Proof.
  intros Hne Hno. rewrite matchBraces_eq.
  change ("{" +:+ path +:+ "}" +:+ rest) with (String "{" (path +:+ String "}" rest)).
  simpl Ascii.eqb. cbv iota.
  rewrite (spanChars_app notCloseBrace path "}" rest);
    [| by apply allChars_notCloseBrace | done].
  destruct path; [done |]. reflexivity.
Qed.

Lemma splitOn_head c a b :
  includesChar c a = false → List.hd EmptyString (splitOn c (a +:+ String c b)) = a.
Proof.
  induction a as [|x a IH]; intros Hno.
  - change (EmptyString +:+ String c b) with (String c b). simpl.
    by rewrite Ascii.eqb_refl.
  - simpl in Hno. apply orb_false_elim in Hno as [Hx Ha].
    change (String x a +:+ String c b) with (String x (a +:+ String c b)).
    simpl. rewrite Hx. specialize (IH Ha).
    pose proof (splitOn_nonempty c (a +:+ String c b)) as Hne.
    destruct (splitOn c (a +:+ String c b)); [done |]. simpl in *. by rewrite IH.
Qed.

Lemma identChars_no_paren ident :
  allChars isIdentChar ident = true → includesChar "(" ident = false.
Proof.
  induction ident as [|c s IH]; simpl; [done |]. intros Hall.
  apply andb_true_iff in Hall as [Hc Hs]. rewrite (IH Hs), orb_false_r.
  destruct (Ascii.eqb_spec c "(") as [->|]; [done | done].
Qed.

Lemma methodNameOf_plain ident :
  allChars isIdentChar ident = true → methodNameOf ("." +:+ ident) = ident.
Proof.
  intros Hall. unfold methodNameOf.
  change (dropChars 1 ("." +:+ ident)) with ident.
  by rewrite splitOn_no_separator by by apply identChars_no_paren.
Qed.

Lemma methodNameOf_call ident rest :
  allChars isIdentChar ident = true →
  methodNameOf ("." +:+ ident +:+ "(" +:+ rest) = ident.
Proof.
  intros Hall. unfold methodNameOf.
  change (dropChars 1 ("." +:+ ident +:+ "(" +:+ rest)) with (ident +:+ String "(" rest).
  apply splitOn_head. by apply identChars_no_paren.
Qed.

Lemma matchMethodCall_shape s m :
  matchMethodCall s = Some m → methodSuffixShape m ∧ ∃ rest, s = m +:+ rest.
Proof.
  rewrite matchMethodCall_eq. destruct s as [|c s1]; [done |].
  destruct (Ascii.eqb_spec c ".") as [->|]; [|done].
  destruct (spanChars isIdentChar s1) as [ident s2] eqn:Hspan.
  apply spanChars_spec in Hspan as (-> & Hident & _).
  destruct ident as [|x ident]; [done |].
  assert (Hplain : methodSuffixShape ("." +:+ String x ident)).
  { unfold methodSuffixShape. rewrite methodNameOf_plain by done.
    repeat split; [done | done | by left]. }
  assert (Hrest : ∃ rest, String "." (String x ident +:+ s2)
                          = ("." +:+ String x ident) +:+ rest).
  { exists s2. by rewrite append_assoc. }
  destruct s2 as [|d s3]; [intros [= <-]; by split |].
  destruct (Ascii.eqb_spec d "(") as [->|]; [|intros [= <-]; by split].
  destruct (spanChars notParen s3) as [args s4] eqn:Hargs.
  apply spanChars_spec in Hargs as (-> & Hall & _).
  destruct s4 as [|e s5]; [intros [= <-]; by split |].
  destruct (Ascii.eqb_spec e ")") as [->|]; [|intros [= <-]; by split].
  intros [= <-]. split.
  - unfold methodSuffixShape. rewrite methodNameOf_call by done.
    repeat split; [done | done |]. right. by exists args.
  - exists s5. by rewrite !append_assoc.
Qed.

(** X1: every token the resolver extracts from a template has a
    non-empty path without a closing brace, a matched text made of the
    braced path followed by the method suffix if any, stands somewhere in
    the template, and its suffix, if any, is a dot, an identifier (the
    method name the resolver reads back) and possibly one parenthesized
    argument text without parentheses. *)
Theorem extracted_tokens_are_well_formed text ref :
  ref ∈ extractFieldRefs text →
  fieldPath ref ≠ "" ∧ includesChar "}" (fieldPath ref) = false ∧
  fullMatch ref = "{" +:+ fieldPath ref +:+ "}" +:+ default "" (methodCall ref) ∧
  (∃ before after, text = before +:+ fullMatch ref +:+ after) ∧
  (∀ m, methodCall ref = Some m → methodSuffixShape m).
Proof.
  intros Hin. apply regexExecAll_origin in Hin as (before & suffix & len & -> & Hm).
  unfold matchFieldRef in Hm.
  destruct (matchBraces suffix) as [[path rest]|] eqn:Hb; [|done].
  injection Hm as <- _. simpl.
  apply matchBraces_shape in Hb as (-> & Hne & Hno).
  split; [done |]. split; [done |]. split; [done |]. split.
  - destruct (matchMethodCall rest) as [m|] eqn:Hmc; simpl.
    + apply matchMethodCall_shape in Hmc as (_ & rest' & ->).
      exists before, rest'. by rewrite !append_assoc.
    + exists before, rest. rewrite !append_assoc. reflexivity.
  - intros m' Hmc. by apply matchMethodCall_shape in Hmc as [Hshape _].
Qed.

Lemma extracted_tokens_are_well_formed_witness :
  let ref := {| fullMatch := "{createdon}.toLocaleDateString('en-US')";
                fieldPath := "createdon";
                methodCall := Some ".toLocaleDateString('en-US')" |} in
  fieldPath ref ≠ "" ∧ includesChar "}" (fieldPath ref) = false ∧
  fullMatch ref = "{" +:+ fieldPath ref +:+ "}" +:+ default "" (methodCall ref) ∧
  (∃ before after,
     "Created {createdon}.toLocaleDateString('en-US')!"
     = before +:+ fullMatch ref +:+ after) ∧
  (∀ m, methodCall ref = Some m → methodSuffixShape m).
Proof.
  apply (extracted_tokens_are_well_formed
           "Created {createdon}.toLocaleDateString('en-US')!").
  vm_compute. constructor.
Defined.

Section TemplateProperties.
Context (h : Host).

(** X2: a template without an opening brace has no token; with a loaded
    record it is returned as it is, and the component's state (cache,
    tracked keys, requests) is untouched. *)
Theorem template_without_braces_is_unchanged record text st :
  includesChar "{" text = false →
  extractFieldRefs text = [] ∧
  asyncReplaceDynamicValues h (Some record) (Some text) st = (text, st).
Proof.
  intros Hno.
  assert (Hrefs : extractFieldRefs text = [])
    by (apply regexExecAll_plain; [apply matchFieldRef_start | done]).
  split; [done |]. unfold asyncReplaceDynamicValues.
  destruct (String.eqb_spec text "") as [->|_]; [done |]. by rewrite Hrefs.
Qed.

Lemma prefix_cons a s1 b s2 :
  String.prefix (String a s1) (String b s2)
  = if ascii_dec a b then String.prefix s1 s2 else false.
Proof. reflexivity. Qed.

Lemma prefix_append s suf : String.prefix s (s +:+ suf) = true.
Proof.
  induction s as [|c s IH]; [by destruct suf |].
  change (String c s +:+ suf) with (String c (s +:+ suf)). rewrite prefix_cons.
  by destruct (ascii_dec c c).
Qed.

Lemma dropChars_append s suf : dropChars (String.length s) (s +:+ suf) = suf.
Proof. induction s as [|c s IH]; [done |]. exact IH. Qed.

Lemma findFirst_first_brace pre x suf :
  includesChar "{" pre = false →
  findFirst ("{" +:+ x) (pre +:+ ("{" +:+ x) +:+ suf) = Some (pre, suf).
Proof.
  induction pre as [|c pre IH]; intros Hno.
  - change (EmptyString +:+ ("{" +:+ x) +:+ suf) with (("{" +:+ x) +:+ suf).
    by rewrite findFirst_eq, prefix_append, dropChars_append.
  - simpl in Hno. apply orb_false_elim in Hno as [Hc Hpre].
    apply Ascii.eqb_neq in Hc.
    change (String c pre +:+ ("{" +:+ x) +:+ suf)
      with (String c (pre +:+ ("{" +:+ x) +:+ suf)).
    rewrite findFirst_eq.
    assert (Hp : String.prefix ("{" +:+ x) (String c (pre +:+ ("{" +:+ x) +:+ suf)) = false).
    { change ("{" +:+ x) with (String "{" x). rewrite prefix_cons.
      destruct (ascii_dec "{" c) as [Heq|]; [congruence | done]. }
    rewrite Hp. by rewrite (IH Hpre).
Qed.

Lemma startsWith_dot_false suf :
  startsWith "." suf = false → matchMethodCall suf = None.
Proof.
  intros Hs. rewrite matchMethodCall_eq. destruct suf as [|c s]; [done |].
  destruct (Ascii.eqb_spec c ".") as [->|]; [|done].
  unfold startsWith in Hs. by destruct s.
Qed.

(** X3: in a template with one token, [{path}] for an attribute of the
    base record, between texts without braces (the text after not
    starting with a dot), the token is replaced by the string form of the
    attribute's value, provided that string holds no dollar sign; nothing
    else changes and no request is made. *)
Theorem single_token_is_replaced_by_its_value record pre path suf st :
  includesChar "{" pre = false →
  includesChar "{" suf = false →
  startsWith "." suf = false →
  path ≠ "" →
  includesChar "}" path = false →
  includesChar "." path = false →
  getField record path ≠ VUndefined →
  includesChar "$" (toJsString h (getField record path)) = false →
  asyncReplaceDynamicValues h (Some record)
    (Some (pre +:+ ("{" +:+ path +:+ "}") +:+ suf)) st
  = (pre +:+ toJsString h (getField record path) +:+ suf, st).
Proof.
  intros Hpre Hsuf Hdot Hne Hbrace Hplain Hdef Hdollar.
  set (ref := {| fullMatch := "{" +:+ path +:+ "}"; fieldPath := path;
                 methodCall := None |}).
  assert (Hmatch : matchFieldRef (("{" +:+ path +:+ "}") +:+ suf)
                   = Some (ref, String.length ("{" +:+ path +:+ "}"))).
  { unfold matchFieldRef. rewrite append_assoc, append_assoc.
    rewrite matchBraces_make by done. rewrite startsWith_dot_false by done.
    unfold ref. simpl. by rewrite append_empty_r. }
  assert (Hrefs : extractFieldRefs (pre +:+ ("{" +:+ path +:+ "}") +:+ suf) = [ref]).
  { unfold extractFieldRefs.
    rewrite regexExecAll_after_plain by (try apply matchFieldRef_start; done).
    change (("{" +:+ path +:+ "}") +:+ suf) with (String "{" ((path +:+ "}") +:+ suf)).
    simpl regexExecAll.
    change (String "{" ((path +:+ "}") +:+ suf)) with (("{" +:+ path +:+ "}") +:+ suf).
    rewrite Hmatch. f_equal.
    change (Nat.pred (String.length ("{" +:+ path +:+ "}")))
      with (String.length (path +:+ "}")).
    rewrite regexExecAll_skip.
    apply regexExecAll_plain; [apply matchFieldRef_start | done]. }
  unfold asyncReplaceDynamicValues.
  destruct (String.eqb_spec (pre +:+ ("{" +:+ path +:+ "}") +:+ suf) "") as [Hemp|_].
  { destruct pre; discriminate. }
  rewrite Hrefs. simpl resolveFieldValues. unfold resolveFieldValue.
  simpl fieldPath. rewrite Hplain. simpl List.fold_left.
  unfold substituteRef, finalValue. simpl fieldPath. rewrite lookup_insert_eq.
  simpl default. simpl methodCall. simpl fullMatch.
  destruct (getField record path) as [| |b|n|s|src|name]; [done | | | | | |];
    unfold jsReplace;
    rewrite (findFirst_first_brace pre (path +:+ "}") suf Hpre);
    by rewrite getSubstitution_plain by done.
Qed.

End TemplateProperties.

(** ** Paths and their segments *)

Lemma joinWith_cons sep x y l :
  joinWith sep (x :: y :: l) = x +:+ sep +:+ joinWith sep (y :: l).
Proof. reflexivity. Qed.

Lemma joinWith_splitOn c s : joinWith (String c EmptyString) (splitOn c s) = s.
Proof.
  induction s as [|a s IH]; [done |]. simpl.
  pose proof (splitOn_nonempty c s) as Hne.
  destruct (Ascii.eqb_spec a c) as [->|Hac].
  - destruct (splitOn c s) as [|y ys]; [done |]. rewrite joinWith_cons, IH. reflexivity.
  - destruct (splitOn c s) as [|y ys]; [done |]. destruct ys as [|z zs].
    + simpl in *. by rewrite IH.
    + rewrite joinWith_cons in *. rewrite append_cons. by rewrite IH.
Qed.

Lemma splitOn_parts_plain c s : Forall (fun part => includesChar c part = false) (splitOn c s).
Proof.
  induction s as [|a s IH]; simpl; [by repeat constructor |].
  destruct (Ascii.eqb a c) eqn:Hac; [by constructor |].
  pose proof (splitOn_nonempty c s) as Hne.
  destruct (splitOn c s) as [|y ys]; [done |].
  inversion IH as [|? ? Hy Hys]; subst. constructor; [|done]. simpl. by rewrite Hac.
Qed.

Lemma joinWith_init_last sep a b rest :
  joinWith sep (initParts (a :: b :: rest)) +:+ sep +:+ lastPart (a :: b :: rest)
  = joinWith sep (a :: b :: rest).
Proof.
  unfold initParts, lastPart. revert a b. induction rest as [|x rest IH]; intros a b.
  - reflexivity.
  - change (List.removelast (a :: b :: x :: rest))
      with (a :: List.removelast (b :: x :: rest)).
    change (List.last (a :: b :: x :: rest) "undefined")
      with (List.last (b :: x :: rest) "undefined").
    rewrite (joinWith_cons sep a b (x :: rest)), <- (IH b x).
    destruct (List.removelast (b :: x :: rest)) as [|y ys] eqn:Hr; [done |].
    rewrite joinWith_cons. by rewrite !append_assoc.
Qed.

(** X4: splitting a path at its dots and joining the segments with dots
    gives the path back; no segment holds a dot; and for a dotted path the
    evaluator's cache key (the segments but the last, joined), a dot and
    the final field make up the path. *)
Theorem path_split_and_join_round_trip path :
  joinWith "." (splitOn "." path) = path ∧
  Forall (fun part => includesChar "." part = false) (splitOn "." path) ∧
  (includesChar "." path = true →
   joinWith "." (initParts (splitOn "." path)) +:+ "." +:+ lastPart (splitOn "." path)
   = path).
Proof.
  split; [apply joinWith_splitOn |]. split; [apply splitOn_parts_plain |].
  intros Hdot. pose proof (joinWith_splitOn "." path) as Hj.
  destruct (splitOn_separator "." path Hdot) as (a & b & rest & Hs).
  rewrite Hs in *. by rewrite joinWith_init_last.
Qed.

(** ** The expression evaluator *)

Section EvaluatorProperties.
Context (h : Host) (record : JsRecord).

Lemma evaluator_retrieveRecord_effect entityName id ev :
  let ev' := (ExpressionEvaluator.retrieveRecord h entityName id ev).2 in
  ExpressionEvaluator.relatedRecordsCache ev' = ExpressionEvaluator.relatedRecordsCache ev ∧
  ∃ request, ExpressionEvaluator.requests ev' = ExpressionEvaluator.requests ev ++ [request].
Proof.
  unfold ExpressionEvaluator.retrieveRecord.
  destruct (webAPI_retrieveRecord h _ _); simpl; (split; [done | by eexists]).
Qed.

Lemma evaluator_lookupHop_effect current lookup ev :
  let res := ExpressionEvaluator.lookupHop h current lookup ev in
  ExpressionEvaluator.relatedRecordsCache res.2 = ExpressionEvaluator.relatedRecordsCache ev ∧
  ∃ added, ExpressionEvaluator.requests res.2 = ExpressionEvaluator.requests ev ++ added ∧
           (length added ≤ 1)%nat ∧ (is_Some res.1 → length added = 1%nat).
Proof.
  unfold ExpressionEvaluator.lookupHop.
  destruct (negb (truthy _) || negb (truthy _)).
  - simpl. split; [done |]. exists []. rewrite app_nil_r.
    split; [done |]. split; [simpl; lia |]. by intros [? ?].
  - destruct (evaluator_retrieveRecord_effect
                (getField current (logicalNameFieldOf lookup))
                (getField current (idFieldOf lookup)) ev) as [Hc [request Hr]].
    split; [exact Hc |]. exists [request]. split; [exact Hr |]. by split.
Qed.

Lemma evaluator_fetchNextLevels_effect lookups result ev :
  let res := ExpressionEvaluator.fetchNextLevels h lookups result ev in
  ExpressionEvaluator.relatedRecordsCache res.2 = ExpressionEvaluator.relatedRecordsCache ev ∧
  ∃ added, ExpressionEvaluator.requests res.2 = ExpressionEvaluator.requests ev ++ added ∧
           (length added ≤ length lookups)%nat ∧
           (is_Some res.1 → length added = length lookups).
Proof.
  revert result ev. induction lookups as [|l rest IH]; intros result ev; simpl.
  - split; [done |]. exists []. by rewrite app_nil_r.
  - destruct (evaluator_lookupHop_effect result l ev) as (Hc & added & Hr & Hle & Hsome).
    destruct (ExpressionEvaluator.lookupHop h result l ev) as [[next|] ev1]; simpl in *.
    + destruct (IH next ev1) as (Hc' & added' & Hr' & Hle' & Hsome').
      split; [by rewrite Hc' |]. exists (added ++ added').
      split; [by rewrite Hr', Hr, app_assoc |]. rewrite length_app.
      split; [lia |]. intros Hres. rewrite (Hsome' Hres), Hsome by by eexists. lia.
    + split; [done |]. exists added. split; [done |]. split; [lia |]. by intros [? ?].
Qed.

Lemma evaluator_fetchRelatedRecord_effect lookupPath ev :
  let res := ExpressionEvaluator.fetchRelatedRecord h record lookupPath ev in
  ExpressionEvaluator.relatedRecordsCache res.2 = ExpressionEvaluator.relatedRecordsCache ev ∧
  ∃ added, ExpressionEvaluator.requests res.2 = ExpressionEvaluator.requests ev ++ added ∧
           (length added ≤ length lookupPath)%nat ∧
           (is_Some res.1 → length added = length lookupPath ∧ lookupPath ≠ []).
Proof.
  unfold ExpressionEvaluator.fetchRelatedRecord. destruct lookupPath as [|first rest].
  - simpl. split; [done |]. exists []. rewrite app_nil_r.
    split; [done |]. split; [simpl; lia |]. by intros [? ?].
  - destruct (evaluator_lookupHop_effect record first ev) as (Hc & added & Hr & Hle & Hsome).
    destruct (ExpressionEvaluator.lookupHop h record first ev) as [[next|] ev1]; simpl in *.
    + destruct (evaluator_fetchNextLevels_effect rest next ev1)
        as (Hc' & added' & Hr' & Hle' & Hsome').
      split; [by rewrite Hc' |]. exists (added ++ added').
      split; [by rewrite Hr', Hr, app_assoc |]. rewrite length_app.
      split; [lia |]. intros Hres. split; [|done].
      rewrite (Hsome' Hres), Hsome by by eexists. lia.
    + split; [done |]. exists added. split; [done |]. split; [lia |]. by intros [? ?].
Qed.

(** X5: the evaluator's [fetchRelatedRecord] leaves its cache of related
    records alone and makes at most one request per lookup of the chain;
    when it returns a record it has made exactly one request per lookup
    (no hop is ever served from a cache), and an empty chain gives null
    without a request. *)
Theorem evaluator_fetchRelatedRecord_requests lookupPath ev :
  let res := ExpressionEvaluator.fetchRelatedRecord h record lookupPath ev in
  ExpressionEvaluator.relatedRecordsCache res.2 = ExpressionEvaluator.relatedRecordsCache ev ∧
  ∃ added, ExpressionEvaluator.requests res.2 = ExpressionEvaluator.requests ev ++ added ∧
           (length added ≤ length lookupPath)%nat ∧
           (is_Some res.1 → length added = length lookupPath ∧ lookupPath ≠ []).
Proof. apply evaluator_fetchRelatedRecord_effect. Qed.

(** The value [getRelatedFieldValue] reads off a related record. *)
Lemma getRelatedFieldValue_cached path ev r :
  ExpressionEvaluator.relatedRecordsCache ev
    !! joinWith "." (initParts (splitOn "." path)) = Some r →
  ExpressionEvaluator.getRelatedFieldValue h record path ev
  = (match getField r (lastPart (splitOn "." path)) with
     | VUndefined => VNull
     | v => v
     end, ev).
Proof.
  intros Hc. unfold ExpressionEvaluator.getRelatedFieldValue. cbv zeta. rewrite Hc.
  by destruct (getField r (lastPart (splitOn "." path))).
Qed.

(** X6: [getRelatedFieldValue] memoizes found records by lookup chain:
    once a call leaves a record in the cache under the chain's key, the
    same call again returns the same value, makes no request and changes
    nothing; when it leaves none, the lookup failed, the value is null and
    nothing was cached (a failure is looked up again next time). *)
Theorem getRelatedFieldValue_memoizes path ev :
  let key := joinWith "." (initParts (splitOn "." path)) in
  let res := ExpressionEvaluator.getRelatedFieldValue h record path ev in
  (is_Some (ExpressionEvaluator.relatedRecordsCache res.2 !! key) →
   ExpressionEvaluator.getRelatedFieldValue h record path res.2 = res) ∧
  (ExpressionEvaluator.relatedRecordsCache res.2 !! key = None →
   res.1 = VNull ∧
   ExpressionEvaluator.relatedRecordsCache res.2 = ExpressionEvaluator.relatedRecordsCache ev).
Proof.
  intros key res. subst res.
  destruct (ExpressionEvaluator.relatedRecordsCache ev !! key) as [r|] eqn:Hc.
  - rewrite (getRelatedFieldValue_cached path ev r Hc). simpl. split.
    + intros _. by rewrite (getRelatedFieldValue_cached path ev r Hc).
    + fold key. by rewrite Hc.
  - assert (Hrun : ExpressionEvaluator.getRelatedFieldValue h record path ev =
      match ExpressionEvaluator.fetchRelatedRecord h record
              (initParts (splitOn "." path)) ev with
      | (Some r, ev1) =>
          (match getField r (lastPart (splitOn "." path)) with
           | VUndefined => VNull
           | v => v
           end,
           {| ExpressionEvaluator.relatedRecordsCache :=
                <[key := r]> (ExpressionEvaluator.relatedRecordsCache ev1);
              ExpressionEvaluator.requests := ExpressionEvaluator.requests ev1;
              ExpressionEvaluator.console := ExpressionEvaluator.console ev1 |})
      | (None, ev1) => (VNull, ev1)
      end).
    { unfold ExpressionEvaluator.getRelatedFieldValue. cbv zeta. fold key. rewrite Hc.
      destruct (ExpressionEvaluator.fetchRelatedRecord h record _ ev) as [[r|] ev1];
        [|done].
      by destruct (getField r (lastPart (splitOn "." path))). }
    rewrite Hrun. clear Hrun.
    pose proof (evaluator_fetchRelatedRecord_effect (initParts (splitOn "." path)) ev)
      as [Hcache _].
    destruct (ExpressionEvaluator.fetchRelatedRecord h record
                (initParts (splitOn "." path)) ev) as [[r|] ev1]; cbn [fst snd] in *.
    + split.
      * intros _. apply getRelatedFieldValue_cached. simpl. apply lookup_insert_eq.
      * simpl. by rewrite lookup_insert_eq.
    + split.
      * rewrite Hcache, Hc. by intros [? ?].
      * by rewrite Hcache.
Qed.

Lemma createDataObjectAsync_plain refs data ev :
  existsb (includesChar ".") refs = false →
  ExpressionEvaluator.createDataObjectAsync h record refs data ev
  = (ExpressionEvaluator.createDataObject record refs data, ev).
Proof.
  revert data. induction refs as [|r refs IH]; intros data Hno; [done |].
  simpl in *. apply orb_false_elim in Hno as [Hr Hrefs]. rewrite Hr. by apply IH.
Qed.

(** X7: for an expression none of whose references is dotted, the
    asynchronous evaluation is the synchronous one: the same answer, the
    same evaluator state, and no request. *)
Theorem evaluateAsync_agrees_with_evaluate expression ev :
  existsb (includesChar ".") (ExpressionEvaluator.extractFieldReferences expression) = false →
  ExpressionEvaluator.evaluateAsync h record expression ev
  = ExpressionEvaluator.evaluate h record expression ev ∧
  ExpressionEvaluator.requests (ExpressionEvaluator.evaluateAsync h record expression ev).2
  = ExpressionEvaluator.requests ev.
Proof.
  intros Hno. unfold ExpressionEvaluator.evaluateAsync, ExpressionEvaluator.evaluate.
  destruct (String.eqb expression ""); [done |].
  rewrite Hno, (createDataObjectAsync_plain _ _ _ Hno).
  split; [done |]. unfold ExpressionEvaluator.safeEvaluateWithData.
  by destruct (runExpression h expression _ record).
Qed.

End EvaluatorProperties.

(** ** The record cache *)

Lemma requestsWithin_refl n st : requestsWithin n st st.
Proof. exists []. rewrite app_nil_r. split; [done | simpl; lia]. Qed.

Lemma requestsWithin_trans n1 n2 st1 st2 st3 :
  requestsWithin n1 st1 st2 → requestsWithin n2 st2 st3 →
  requestsWithin (n1 + n2) st1 st3.
Proof.
  intros (a1 & H1 & L1) (a2 & H2 & L2). exists (a1 ++ a2).
  rewrite H2, H1, app_assoc, length_app. split; [done | lia].
Qed.

Lemma requestsWithin_weaken n m st st' :
  (n ≤ m)%nat → requestsWithin n st st' → requestsWithin m st st'.
Proof. intros Hle (a & H & L). exists a. split; [done | lia]. Qed.

Lemma cacheKeyOf_injective e i e' i' :
  includesChar ":" e = false → includesChar ":" e' = false →
  cacheKeyOf e i = cacheKeyOf e' i' → e = e' ∧ i = i'.
Proof.
  unfold cacheKeyOf. revert e'. induction e as [|c e IH]; intros e' He He' Hk.
  - destruct e' as [|c' e']; [by injection Hk |].
    simpl in He'. injection Hk as <- _. done.
  - destruct e' as [|c' e'].
    + simpl in He. injection Hk as -> _. done.
    + simpl in He, He'. apply orb_false_elim in He as [_ He].
      apply orb_false_elim in He' as [_ He'].
      rewrite !append_cons in Hk. injection Hk as -> Hk.
      by destruct (IH e' He He' Hk) as [-> ->].
Qed.

Section CacheProperties.
Context (h : Host).

Lemma fetchAndStore_requests e i st :
  webRequests (fetchAndStore h e i st).2 = webRequests st ++ [(e, i)].
Proof. unfold fetchAndStore. by destruct (webAPI_retrieveRecord h e i). Qed.

Lemma retrieveAttempt_requests n e i st :
  requestsWithin 1 st (retrieveAttempt h n e i st).2.
Proof.
  revert st. induction n as [|n IH]; intros st; rewrite retrieveAttempt_eq; cbv zeta.
  all: destruct (recordCache _ !! _ ≫= entryRecord) as [r|];
    [exists []; simpl; rewrite app_nil_r; split; [done | lia] |].
  all: destruct (entryLoading _).
  all: try (exists [(e, i)]; split; [by rewrite fetchAndStore_requests | done]).
  destruct (IH (trackKey (cacheKeyOf e i) st)) as (added & Hr & Hl).
  destruct (retrieveAttempt h n e i (trackKey (cacheKeyOf e i) st)) as [[r|] st'];
    by exists added.
Qed.

Lemma retrieveAttempt_returned_cached n e i st r st' :
  retrieveAttempt h n e i st = (Returned r, st') →
  cachedRecord st' (cacheKeyOf e i) = Some r.
Proof.
  revert st st'. induction n as [|n IH]; intros st st'; rewrite retrieveAttempt_eq;
    cbv zeta; unfold cachedRecord.
  all: destruct (recordCache (trackKey _ st) !! _ ≫= entryRecord) as [r0|] eqn:Hc;
    [by intros [= <- <-] |].
  all: assert (Hfetch : ∀ st1, fetchAndStore h e i st1 = (Returned r, st') →
                  recordCache st' !! cacheKeyOf e i ≫= entryRecord = Some r)
    by (intros st1; unfold fetchAndStore;
        destruct (webAPI_retrieveRecord h e i); [|done];
        intros [= <- <-]; simpl; by rewrite lookup_insert_eq).
  all: destruct (entryLoading _); try by apply Hfetch.
  destruct (retrieveAttempt h n e i (trackKey (cacheKeyOf e i) st)) as [[r1|] st1] eqn:Hrun;
    [|done].
  intros [= <- <-]. by apply (IH _ _ Hrun).
Qed.

Lemma trackKey_tracked k st : k ∈ fetchedRecordKeys st → trackKey k st = st.
Proof.
  intros Hin. destruct st as [c f w]. unfold trackKey. simpl in *. f_equal.
  apply leibniz_equiv. set_solver.
Qed.

(** X8: once [retrieveRecordWithCache] has returned a record for a key,
    asking again, with any retry count and whatever the Web API would now
    answer, returns the same record and changes nothing: no request, no
    change to the cache or the tracked keys. *)
Theorem retrieve_again_is_served_from_cache e i retryCount st r st' :
  retrieveRecordWithCache h e i retryCount st = (Returned r, st') →
  ∀ (h' : Host) retryCount',
    retrieveRecordWithCache h' e i retryCount' st' = (Returned r, st').
Proof.
  unfold retrieveRecordWithCache. intros Hrun h' rc'.
  pose proof (retrieveAttempt_returned_cached _ _ _ _ _ _ Hrun) as Hc.
  pose proof (tracked_retrieveAttempt h (MAX_RETRIES - retryCount) e i st) as [_ Hin].
  rewrite Hrun in Hin. simpl in Hin.
  rewrite retrieveAttempt_eq; cbv zeta. unfold cachedRecord in Hc.
  simpl recordCache. rewrite Hc. by rewrite trackKey_tracked.
Qed.

Lemma retrieveAttempt_answers n e i st r :
  cachedRecord st (cacheKeyOf e i) = None →
  webAPI_retrieveRecord h e i = Some r →
  ∃ st', retrieveAttempt h n e i st = (Returned r, st') ∧
         recordCache st' = <[cacheKeyOf e i := loadedEntry r]> (recordCache st) ∧
         webRequests st' = webRequests st ++ [(e, i)] ∧
         fetchedRecordKeys st' = {[cacheKeyOf e i]} ∪ fetchedRecordKeys st.
Proof.
  intros Hc Hok. revert st Hc.
  assert (Hfetch : ∀ st1, fetchAndStore h e i st1 =
            (Returned r,
             withCache (insert (cacheKeyOf e i) (loadedEntry r))
               (logRequest e i (withCache (insert (cacheKeyOf e i) loadingEntry) st1))))
    by (intros st1; unfold fetchAndStore; by rewrite Hok).
  induction n as [|n IH]; intros st Hc; rewrite retrieveAttempt_eq; cbv zeta;
    unfold cachedRecord in Hc; simpl recordCache at 1; rewrite Hc.
  - destruct (entryLoading _); rewrite Hfetch; eexists; (split; [reflexivity |]);
      simpl; (split; [|done]).
    + by rewrite insert_insert_eq, insert_delete_eq.
    + by rewrite insert_insert_eq.
  - destruct (entryLoading _).
    + destruct (IH (trackKey (cacheKeyOf e i) st)) as (st' & -> & Hcache & Hreq & Hkeys);
        [done |].
      exists st'. split; [done |]. split; [done |]. split; [done |].
      rewrite Hkeys. simpl. apply leibniz_equiv. set_solver.
    + rewrite Hfetch. eexists; (split; [reflexivity |]); simpl. split; [|done].
      by rewrite insert_insert_eq.
Qed.

(** X9: whenever the cache holds no completed record for a key, be the
    entry absent or a loading marker left behind, and the Web API answers,
    [retrieveRecordWithCache] returns the answer after exactly one request;
    the cache then holds the record under that key and is otherwise as it
    was, and the key is tracked. *)
Theorem retrieve_fetches_once_and_caches e i retryCount st r :
  cachedRecord st (cacheKeyOf e i) = None →
  webAPI_retrieveRecord h e i = Some r →
  ∃ st', retrieveRecordWithCache h e i retryCount st = (Returned r, st') ∧
         recordCache st' = <[cacheKeyOf e i := loadedEntry r]> (recordCache st) ∧
         webRequests st' = webRequests st ++ [(e, i)] ∧
         fetchedRecordKeys st' = {[cacheKeyOf e i]} ∪ fetchedRecordKeys st.
Proof. intros Hc Hok. by apply retrieveAttempt_answers. Qed.

(** X10: the post-save handler invalidates what the component fetched:
    after it, a retrieval under any tracked key makes a fresh request,
    whatever the cache held before, while entries under keys the component
    never tracked are kept. *)
Theorem handlePostSave_forces_refetch e i retryCount st :
  cacheKeyOf e i ∈ fetchedRecordKeys st →
  webRequests (retrieveRecordWithCache h e i retryCount (handlePostSave st)).2
    = webRequests st ++ [(e, i)] ∧
  ∀ k, k ∉ fetchedRecordKeys st →
       recordCache (handlePostSave st) !! k = recordCache st !! k.
Proof.
  intros Hin. split.
  - unfold retrieveRecordWithCache. rewrite retrieveAttempt_miss_requests; [done |].
    unfold handlePostSave. rewrite deleteFetchedKeys_lookup. by rewrite decide_True.
  - intros k Hk. unfold handlePostSave. rewrite deleteFetchedKeys_lookup.
    by rewrite decide_False.
Qed.

End CacheProperties.

(** ** What every operation of the component keeps *)

Section Lifting.
Context (h : Host).

(** A relation between the component's states that holds across
    [trackKey] and across each [retrieveAttempt] holds across every
    operation built from them. *)
Section Relation.
Context (R : Component → Component → Prop).
Hypothesis R_refl : ∀ st, R st st.
Hypothesis R_trans : ∀ st1 st2 st3, R st1 st2 → R st2 st3 → R st1 st3.
Hypothesis R_trackKey : ∀ k st, R st (trackKey k st).
Hypothesis R_retrieve : ∀ n e i st, R st (retrieveAttempt h n e i st).2.

Lemma lift_fetchSingleLevelRecord currentRecord field st :
  R st (fetchSingleLevelRecord h currentRecord field st).2.
Proof.
  unfold fetchSingleLevelRecord.
  destruct (getField currentRecord (idFieldOf field)) as [| | | |id| |]; try apply R_refl.
  destruct (getField currentRecord (logicalNameFieldOf field)) as [| | | |entity| |];
    try apply R_refl.
  destruct (negb (id =? "")%string && negb (entity =? "")%string); [|apply R_refl].
  unfold retrieveRecordWithCache.
  pose proof (R_retrieve (MAX_RETRIES - 0) entity id (trackKey (cacheKeyOf entity id) st))
    as Hr.
  destruct (retrieveAttempt h (MAX_RETRIES - 0) entity id _) as [[r|] st2];
    (eapply R_trans; [apply R_trackKey | exact Hr]).
Qed.

Lemma lift_fetchNextLevels lookups currentRecord result st :
  R st (fetchNextLevels h lookups currentRecord result st).2.
Proof.
  revert currentRecord result st.
  induction lookups as [|field rest IH]; intros currentRecord result st; simpl;
    [apply R_refl |].
  pose proof (lift_fetchSingleLevelRecord currentRecord field st) as Ht.
  destruct (fetchSingleLevelRecord h currentRecord field st) as [[[[r e]|]|] st']; try done.
  eapply R_trans; [exact Ht | apply IH].
Qed.

Lemma lift_fetchRelatedRecord record lookupPath st :
  R st (fetchRelatedRecord h record lookupPath st).2.
Proof.
  unfold fetchRelatedRecord.
  destruct record as [currentRecord|]; [|apply R_refl].
  destruct lookupPath as [|first rest]; [apply R_refl |].
  pose proof (lift_fetchSingleLevelRecord currentRecord first st) as Ht.
  destruct (fetchSingleLevelRecord h currentRecord first st) as [[[[r e]|]|] st']; try done.
  pose proof (lift_fetchNextLevels rest r r st') as Hn.
  destruct (fetchNextLevels h rest r r st') as [[result|] st'']; by eapply R_trans.
Qed.

Lemma lift_resolveFieldValue record ref st :
  R st (resolveFieldValue h record ref st).2.
Proof.
  unfold resolveFieldValue. destruct (includesChar "." (fieldPath ref)); [|apply R_refl].
  destruct (String.eqb _ "id"); [apply R_refl |].
  pose proof (lift_fetchRelatedRecord (Some record)
                (initParts (splitOn "." (fieldPath ref))) st) as Hr.
  by destruct (fetchRelatedRecord h _ _ st) as [[r|] st'].
Qed.

Lemma lift_resolveFieldValues record fieldRefs resolvedValues st :
  R st (resolveFieldValues h record fieldRefs resolvedValues st).2.
Proof.
  revert resolvedValues st.
  induction fieldRefs as [|ref rest IH]; intros resolvedValues st; simpl; [apply R_refl |].
  pose proof (lift_resolveFieldValue record ref st) as Ht.
  destruct (resolveFieldValue h record ref st) as [fieldValue st'].
  eapply R_trans; [exact Ht | apply IH].
Qed.

Lemma lift_asyncReplaceDynamicValues record text st :
  R st (asyncReplaceDynamicValues h record text st).2.
Proof.
  unfold asyncReplaceDynamicValues.
  destruct text as [t|]; [|apply R_refl].
  destruct record as [r|]; [|apply R_refl].
  destruct (String.eqb t ""); [apply R_refl |].
  pose proof (lift_resolveFieldValues r (extractFieldRefs t) ∅ st) as Ht.
  by destruct (resolveFieldValues h r (extractFieldRefs t) ∅ st).
Qed.

Lemma lift_resolveConfig record evaluatorRecord config w :
  R w.1 (resolveConfig h record evaluatorRecord config w).2.1.
Proof.
  destruct w as [st ev]. unfold resolveConfig. cbn [fst].
  pose proof (lift_asyncReplaceDynamicValues record (Some (theia_buttonlabel config)) st)
    as H1.
  destruct (asyncReplaceDynamicValues h record (Some (theia_buttonlabel config)) st)
    as [label st1].
  pose proof (lift_asyncReplaceDynamicValues record (theia_buttontooltip config) st1) as H2.
  destruct (asyncReplaceDynamicValues h record (theia_buttontooltip config) st1)
    as [tooltip st2].
  pose proof (lift_asyncReplaceDynamicValues record (Some (theia_url config)) st2) as H3.
  destruct (asyncReplaceDynamicValues h record (Some (theia_url config)) st2)
    as [url st3].
  pose proof (lift_asyncReplaceDynamicValues record (theia_actionscript config) st3) as H4.
  destruct (asyncReplaceDynamicValues h record (theia_actionscript config) st3)
    as [script st4].
  cbn [snd] in *.
  assert (Hall : R st st4) by (eapply R_trans; [|exact H4]; eapply R_trans; [|exact H3];
                               eapply R_trans; [exact H1 | exact H2]).
  by destruct (visibilityCheck h evaluatorRecord (theia_visibilityexpression config) ev)
    as [[] ev'].
Qed.

Lemma lift_resolveSorted record evaluatorRecord sortedConfigs w :
  R w.1 (resolveSorted h record evaluatorRecord sortedConfigs w).2.1.
Proof.
  revert w. induction sortedConfigs as [|config rest IH]; intros w; simpl; [apply R_refl |].
  pose proof (lift_resolveConfig record evaluatorRecord config w) as Hc.
  destruct (resolveConfig h record evaluatorRecord config w) as [r w1].
  specialize (IH w1).
  destruct (resolveSorted h record evaluatorRecord rest w1) as [newConfigs w2].
  cbn [fst snd] in *. by eapply R_trans.
Qed.

Lemma lift_resolveConfigs record evaluatorRecord configs w :
  R w.1 (resolveConfigs h record evaluatorRecord configs w).2.1.
Proof.
  unfold resolveConfigs. destruct record; [apply lift_resolveSorted | apply R_refl].
Qed.

End Relation.

Lemma settled_retrieveAttempt n e i st :
  settled st → settled (retrieveAttempt h n e i st).2.
Proof.
  assert (Hfetch : ∀ st1, settled st1 → settled (fetchAndStore h e i st1).2).
  { intros st1 Hs k en. unfold fetchAndStore.
    destruct (webAPI_retrieveRecord h e i); simpl.
    - rewrite insert_insert_eq. destruct (decide (cacheKeyOf e i = k)) as [->|Hne].
      + rewrite lookup_insert_eq. by intros [= <-].
      + rewrite lookup_insert_ne by done. apply Hs.
    - rewrite delete_insert_eq. destruct (decide (cacheKeyOf e i = k)) as [->|Hne].
      + by rewrite lookup_delete_eq.
      + rewrite lookup_delete_ne by done. apply Hs. }
  assert (Hdel : ∀ st1, settled st1 → settled (withCache (delete (cacheKeyOf e i)) st1)).
  { intros st1 Hs k en. simpl. destruct (decide (cacheKeyOf e i = k)) as [->|Hne].
    - by rewrite lookup_delete_eq.
    - rewrite lookup_delete_ne by done. apply Hs. }
  revert st. induction n as [|n IH]; intros st Hs; rewrite retrieveAttempt_eq; cbv zeta.
  all: destruct (recordCache _ !! _ ≫= entryRecord) as [r|]; [done |].
  all: destruct (entryLoading _); try (apply Hfetch; try apply Hdel; done).
  specialize (IH (trackKey (cacheKeyOf e i) st) Hs).
  destruct (retrieveAttempt h n e i (trackKey (cacheKeyOf e i) st)) as [[r|] st'];
    [done | by apply Hdel].
Qed.

(** X11: loading markers are transient.  If the cache holds none when a
    resolution pass starts, it holds none when the pass ends, whether the
    requests succeeded or failed. *)
Theorem no_loading_marker_outlives_a_pass record evaluatorRecord configs w :
  settled w.1 → settled (resolveConfigs h record evaluatorRecord configs w).2.1.
Proof.
  apply (lift_resolveConfigs (fun st st' => settled st → settled st')); try done.
  - intros st1 st2 st3 H12 H23 H1. by apply H23, H12.
  - intros n e i st. apply settled_retrieveAttempt.
Qed.

(** X12: a resolution pass followed by the unmount cleanup, or by the
    post-save handler, leaves in the cache only entries that were there
    before the pass, unchanged: whatever the pass added or replaced is
    deleted. *)
Theorem pass_then_cleanup_leaves_no_new_entry record evaluatorRecord configs w :
  let st' := (resolveConfigs h record evaluatorRecord configs w).2.1 in
  recordCache (unmountCleanup st') ⊆ recordCache w.1 ∧
  recordCache (handlePostSave st') ⊆ recordCache w.1.
Proof.
  intros st'.
  assert (Ht : tracked w.1 st').
  { apply (lift_resolveConfigs tracked).
    - apply tracked_refl.
    - apply tracked_trans.
    - apply tracked_trackKey.
    - intros n e i st. apply tracked_retrieveAttempt. }
  destruct Ht as [_ Hsame].
  assert (Hsub : recordCache (deleteFetchedKeys st') ⊆ recordCache w.1).
  { apply map_subseteq_spec. intros k e. rewrite deleteFetchedKeys_lookup.
    destruct (decide (k ∈ fetchedRecordKeys st')); [done |]. by rewrite Hsame. }
  by split.
Qed.

Lemma requests_fetchSingleLevelRecord currentRecord field st :
  requestsWithin 1 st (fetchSingleLevelRecord h currentRecord field st).2.
Proof.
  unfold fetchSingleLevelRecord.
  destruct (getField currentRecord (idFieldOf field)) as [| | | |id| |];
    try apply requestsWithin_refl.
  destruct (getField currentRecord (logicalNameFieldOf field)) as [| | | |entity| |];
    try apply requestsWithin_refl.
  destruct (negb (id =? "")%string && negb (entity =? "")%string);
    [|apply requestsWithin_refl].
  unfold retrieveRecordWithCache.
  pose proof (retrieveAttempt_requests h (MAX_RETRIES - 0) entity id
                (trackKey (cacheKeyOf entity id) st)) as Hr.
  by destruct (retrieveAttempt h (MAX_RETRIES - 0) entity id _) as [[r|] st2].
Qed.

Lemma requests_fetchNextLevels lookups currentRecord result st :
  requestsWithin (length lookups) st (fetchNextLevels h lookups currentRecord result st).2.
Proof.
  revert currentRecord result st.
  induction lookups as [|field rest IH]; intros currentRecord result st; simpl;
    [apply requestsWithin_refl |].
  pose proof (requests_fetchSingleLevelRecord currentRecord field st) as Ht.
  destruct (fetchSingleLevelRecord h currentRecord field st) as [[[[r e]|]|] st'];
    simpl in *.
  - apply (requestsWithin_trans 1 (length rest) st st'); [done | apply IH].
  - apply (requestsWithin_weaken 1); [lia | done].
  - apply (requestsWithin_weaken 1); [lia | done].
Qed.

Lemma requests_fetchRelatedRecord record lookupPath st :
  requestsWithin (length lookupPath) st (fetchRelatedRecord h record lookupPath st).2.
Proof.
  unfold fetchRelatedRecord.
  destruct record as [currentRecord|]; [|apply requestsWithin_refl].
  destruct lookupPath as [|first rest]; [apply requestsWithin_refl |].
  pose proof (requests_fetchSingleLevelRecord currentRecord first st) as Ht.
  destruct (fetchSingleLevelRecord h currentRecord first st) as [[[[r e]|]|] st'];
    simpl in *; try (apply (requestsWithin_weaken 1); [lia | done]).
  pose proof (requests_fetchNextLevels rest r r st') as Hn.
  destruct (fetchNextLevels h rest r r st') as [[result|] st'']; simpl in *;
    by apply (requestsWithin_trans 1 (length rest) st st').
Qed.

(** X13: the component's [fetchRelatedRecord] makes at most one request
    per lookup of the chain, and only adds to the requests made; for a
    null record or an empty chain it returns null and leaves the state as
    it is, so it makes none at all. *)
Theorem fetchRelatedRecord_requests_at_most_one_per_hop record lookupPath st :
  requestsWithin (length lookupPath) st (fetchRelatedRecord h record lookupPath st).2 ∧
  (record = None ∨ lookupPath = [] →
   fetchRelatedRecord h record lookupPath st = (None, st)).
Proof.
  split; [apply requests_fetchRelatedRecord |].
  intros [-> | ->]; [done | by destruct record].
Qed.

Lemma requests_resolveFieldValue record ref st :
  requestsWithin (lookupHops ref) st (resolveFieldValue h record ref st).2.
Proof.
  unfold resolveFieldValue. destruct (includesChar "." (fieldPath ref));
    [|apply requestsWithin_refl].
  destruct (String.eqb _ "id"); [apply requestsWithin_refl |].
  pose proof (requests_fetchRelatedRecord (Some record)
                (initParts (splitOn "." (fieldPath ref))) st) as Hr.
  by destruct (fetchRelatedRecord h _ _ st) as [[r|] st'].
Qed.

Lemma requests_resolveFieldValues record fieldRefs resolvedValues st :
  requestsWithin (totalLookupHops fieldRefs) st
    (resolveFieldValues h record fieldRefs resolvedValues st).2.
Proof.
  revert resolvedValues st.
  induction fieldRefs as [|ref rest IH]; intros resolvedValues st; simpl;
    [apply requestsWithin_refl |].
  pose proof (requests_resolveFieldValue record ref st) as Ht.
  destruct (resolveFieldValue h record ref st) as [fieldValue st'].
  apply (requestsWithin_trans (lookupHops ref) (totalLookupHops rest) st st');
    [exact Ht | apply IH].
Qed.

(** X14: resolving a template makes at most as many requests as its
    tokens have lookup hops in all (a token without a dot has none), and
    only adds to the requests made. *)
Theorem template_requests_bounded_by_lookup_hops record text st :
  requestsWithin (totalLookupHops (extractFieldRefs text)) st
    (asyncReplaceDynamicValues h record (Some text) st).2.
Proof.
  unfold asyncReplaceDynamicValues.
  destruct record as [r|]; [|apply requestsWithin_refl].
  destruct (String.eqb text ""); [apply requestsWithin_refl |].
  pose proof (requests_resolveFieldValues r (extractFieldRefs text) ∅ st) as Ht.
  by destruct (resolveFieldValues h r (extractFieldRefs text) ∅ st).
Qed.

End Lifting.

(** ** The button pipeline *)

Lemma insertConfig_least c l :
  Forall (fun p => theia_buttonposition c ≤ p) (positions l) → insertConfig c l = c :: l.
Proof.
  destruct l as [|d l]; [done |]. intros Hall. inversion Hall as [|? ? Hd _]; subst.
  simpl. by destruct (Z.leb_spec (theia_buttonposition c) (theia_buttonposition d)); [|lia].
Qed.

Lemma sortConfigs_sorted_id configs :
  StronglySorted Z.le (positions configs) → sortConfigs configs = configs.
Proof.
  induction configs as [|c l IH]; [done |]. intros Hs.
  inversion Hs as [|? ? Hl Hc]; subst. simpl. rewrite (IH Hl). by apply insertConfig_least.
Qed.

Lemma sortConfigs_idempotent configs :
  sortConfigs (sortConfigs configs) = sortConfigs configs.
Proof. apply sortConfigs_sorted_id, sortConfigs_sorted. Qed.

Section PipelineProperties.
Context (h : Host).









Lemma retrieveAttempt_thrown n e i st st' :
  retrieveAttempt h n e i st = (Thrown, st') →
  webAPI_retrieveRecord h e i = None ∧ recordCache st' !! cacheKeyOf e i = None.
Proof.
  assert (Hfetch : ∀ st1, fetchAndStore h e i st1 = (Thrown, st') →
            webAPI_retrieveRecord h e i = None ∧ recordCache st' !! cacheKeyOf e i = None).
  { intros st1. unfold fetchAndStore. destruct (webAPI_retrieveRecord h e i); [done |].
    intros [= <-]. split; [done |]. simpl. by rewrite lookup_delete_eq. }
  revert st st'  Hfetch. induction n as [|n IH]; intros st st' Hfetch;
    rewrite retrieveAttempt_eq; cbv zeta.
  all: destruct (recordCache _ !! _ ≫= entryRecord) as [r|]; [done |].
  all: destruct (entryLoading _); try by apply Hfetch.
  destruct (retrieveAttempt h n e i (trackKey (cacheKeyOf e i) st)) as [[r|] st1] eqn:Hrun;
    [done |].
  intros [= <-]. split; [|simpl; by rewrite lookup_delete_eq].
  eapply (IH _ st1); [|exact Hrun].
  intros st2. unfold fetchAndStore. destruct (webAPI_retrieveRecord h e i); [done |].
  intros [= <-]. split; [done |]. simpl. by rewrite lookup_delete_eq.
Qed.

(** X18: [fetchRecord] always ends the loading state with a record that
    is not null and an evaluator built on that same record.  For an empty
    or all-zero record id the record is empty and nothing is requested.
    When the retrieval throws, the record is empty, the error message is
    set, the Web API has rejected the request and the cache is left
    without an entry for the record; when it returns, the record is the
    one returned and it is in the cache. *)
Theorem fetchRecord_always_leaves_a_record rejection entityName recordId v st :
  let res := fetchRecord h rejection entityName recordId v st in
  viewIsLoading res.1 = false ∧
  (∃ r, viewRecord res.1 = Some r ∧
        viewEvaluator res.1 = Some (r, ExpressionEvaluator.newEvaluator)) ∧
  (recordId = "" ∨ recordId = EMPTY_GUID →
   viewRecord res.1 = Some ∅ ∧ viewError res.1 = viewError v ∧ res.2 = st) ∧
  (recordId ≠ "" → recordId ≠ EMPTY_GUID →
   match retrieveRecordWithCache h entityName recordId 0 st with
   | (Returned r, st') =>
       viewRecord res.1 = Some r ∧ viewError res.1 = viewError v ∧ res.2 = st' ∧
       cachedRecord st' (cacheKeyOf entityName recordId) = Some r
   | (Thrown, st') =>
       viewRecord res.1 = Some ∅ ∧
       viewError res.1 = Some (default "Unknown error occurred" rejection) ∧
       res.2 = st' ∧
       webAPI_retrieveRecord h entityName recordId = None ∧
       recordCache st' !! cacheKeyOf entityName recordId = None
   end).
Proof.
  intros res. subst res. unfold fetchRecord.
  destruct (String.eqb_spec recordId "") as [->|Hne]; simpl.
  { split; [done |]. split; [by eexists |]. split; [done |]. by intros Hc. }
  destruct (String.eqb_spec recordId EMPTY_GUID) as [->|Hng]; simpl.
  { split; [done |]. split; [by eexists |]. split; [done |]. by intros _ Hc. }
  destruct (retrieveRecordWithCache h entityName recordId 0 st) as [[r|] st'] eqn:Hrun;
    simpl.
  - split; [done |]. split; [by eexists |]. split; [by intros [?|?] |]. intros _ _.
    repeat split. unfold retrieveRecordWithCache in Hrun.
    by apply (retrieveAttempt_returned_cached h _ _ _ _ _ _ Hrun).
  - split; [done |]. split; [by eexists |]. split; [by intros [?|?] |]. intros _ _.
    unfold retrieveRecordWithCache in Hrun.
    apply retrieveAttempt_thrown in Hrun as [Hapi Hcache]. by repeat split.
Qed.

End PipelineProperties.

(** ** The colour conversions *)

Lemma channels_read_back : forallb channelReadsBack (List.map Z.of_nat (seq 0 256)) = true.
Proof. vm_compute. reflexivity. Qed.

Lemma pairs_print_back :
  forallb (fun c1 => forallb (pairPrintsBack c1) hexChars) hexChars = true.
Proof. vm_compute. reflexivity. Qed.

Lemma isHexDigit_listed c : isHexDigit c = true → In c hexChars.
Proof.
  intros Hc. assert (Hex : existsb (Ascii.eqb c) hexChars = true).
  { revert Hc. destruct c as [[] [] [] [] [] [] [] []]; vm_compute; auto. }
  apply existsb_exists in Hex as (x & Hin & Heq). apply Ascii.eqb_eq in Heq. by subst.
Qed.

Lemma channel_round_trip v :
  ∃ c1 c2, ColorUtils.channelHex (Some v) = String c1 (String c2 EmptyString) ∧
           ColorUtils.parseInt16 (String c1 (String c2 EmptyString)) = Some (clampChannel v).
Proof.
  unfold ColorUtils.channelHex. fold (clampChannel v).
  assert (Hrange : 0 ≤ clampChannel v ≤ 255) by (unfold clampChannel; lia).
  generalize dependent (clampChannel v). intros n Hrange.
  pose proof channels_read_back as Hall. rewrite forallb_forall in Hall.
  assert (Hin : In n (List.map Z.of_nat (seq 0 256))).
  { apply in_map_iff. exists (Z.to_nat n). split; [lia |]. apply in_seq. lia. }
  specialize (Hall n Hin). unfold channelReadsBack in Hall.
  destruct (ColorUtils.padStart2 (ColorUtils.toHexString n)) as [|c1 [|c2 [|]]]; try done.
  destruct (ColorUtils.parseInt16 (String c1 (String c2 ""))) as [m|] eqn:Hp; [|done].
  apply Z.eqb_eq in Hall as ->. by exists c1, c2.
Qed.

Lemma hexToRgb_hashed a1 a2 b1 b2 c1 c2 :
  ColorUtils.hexToRgb
    (String "#" (String a1 (String a2 (String b1 (String b2 (String c1 (String c2 "")))))))
  = {| ColorUtils.red := ColorUtils.parseInt16 (String a1 (String a2 ""));
       ColorUtils.green := ColorUtils.parseInt16 (String b1 (String b2 ""));
       ColorUtils.blue := ColorUtils.parseInt16 (String c1 (String c2 "")) |}.
Proof. reflexivity. Qed.

(** X19: printing three integer channels as a hex colour and reading the
    colour back gives the channels clamped to 0..255: values inside the
    range come back as they were. *)
Theorem printed_colour_reads_back_clamped r g b :
  ColorUtils.hexToRgb (ColorUtils.rgbToHex (Some r) (Some g) (Some b))
  = {| ColorUtils.red := Some (clampChannel r);
       ColorUtils.green := Some (clampChannel g);
       ColorUtils.blue := Some (clampChannel b) |}.
Proof.
  unfold ColorUtils.rgbToHex.
  destruct (channel_round_trip r) as (a1 & a2 & -> & Hr).
  destruct (channel_round_trip g) as (b1 & b2 & -> & Hg).
  destruct (channel_round_trip b) as (c1 & c2 & -> & Hb).
  change ("#" +:+ String a1 (String a2 "") +:+ String b1 (String b2 "")
          +:+ String c1 (String c2 ""))
    with (String "#" (String a1 (String a2 (String b1 (String b2
            (String c1 (String c2 ""))))))).
  by rewrite hexToRgb_hashed, Hr, Hg, Hb.
Qed.

Lemma pair_prints_back c1 c2 :
  isHexDigit c1 = true → isHexDigit c2 = true →
  ColorUtils.channelHex (ColorUtils.parseInt16 (String c1 (String c2 "")))
  = String (lowerChar c1) (String (lowerChar c2) "").
Proof.
  intros H1 H2. pose proof pairs_print_back as Hall. rewrite forallb_forall in Hall.
  specialize (Hall c1 (isHexDigit_listed c1 H1)). rewrite forallb_forall in Hall.
  specialize (Hall c2 (isHexDigit_listed c2 H2)). by apply String.eqb_eq in Hall.
Qed.

Lemma hexDigit_not_hash c s : isHexDigit c = true → startsWith "#" (String c s) = false.
Proof.
  intros Hc. unfold startsWith. rewrite prefix_cons.
  destruct (ascii_dec "#" c) as [<-|]; [|done]. by vm_compute in Hc.
Qed.

(** X20: a colour written as six hexadecimal digits, with or without the
    leading hash, is read as the same three channels, and printing them
    gives the hash followed by the six digits in lower case. *)
Theorem six_digit_colour_round_trip hex :
  String.length hex = 6%nat →
  allChars isHexDigit hex = true →
  ColorUtils.hexToRgb ("#" +:+ hex) = ColorUtils.hexToRgb hex ∧
  ColorUtils.rgbToHex (ColorUtils.red (ColorUtils.hexToRgb hex))
    (ColorUtils.green (ColorUtils.hexToRgb hex))
    (ColorUtils.blue (ColorUtils.hexToRgb hex))
  = "#" +:+ toLowerCase hex.
Proof.
  intros Hlen Hall.
  destruct hex as [|a1 [|a2 [|b1 [|b2 [|c1 [|c2 [|]]]]]]]; try done.
  simpl in Hall. repeat (apply andb_true_iff in Hall as [? Hall]).
  assert (Hplain : ColorUtils.hexToRgb
            (String a1 (String a2 (String b1 (String b2 (String c1 (String c2 ""))))))
          = {| ColorUtils.red := ColorUtils.parseInt16 (String a1 (String a2 ""));
               ColorUtils.green := ColorUtils.parseInt16 (String b1 (String b2 ""));
               ColorUtils.blue := ColorUtils.parseInt16 (String c1 (String c2 "")) |}).
  { unfold ColorUtils.hexToRgb. by rewrite hexDigit_not_hash. }
  split.
  - rewrite Hplain. apply hexToRgb_hashed.
  - rewrite Hplain. unfold ColorUtils.rgbToHex. cbn [ColorUtils.red ColorUtils.green ColorUtils.blue].
    by rewrite !pair_prints_back.
Qed.

(** X21: [normalizeColor] gives a colour that starts with a hash and is
    left alone by a second normalization, and [hexToRgb] reads a colour
    and its normalization alike. *)
Theorem normalizeColor_is_idempotent_and_transparent color :
  startsWith "#" (ColorUtils.normalizeColor color) = true ∧
  ColorUtils.normalizeColor (ColorUtils.normalizeColor color)
    = ColorUtils.normalizeColor color ∧
  ColorUtils.hexToRgb (ColorUtils.normalizeColor color) = ColorUtils.hexToRgb color.
Proof.
  assert (Hhash : startsWith "#" ("#" +:+ color) = true)
    by (unfold startsWith; change ("#" +:+ color) with (String "#" color);
        rewrite prefix_cons; destruct (ascii_dec "#" "#"); [by destruct color | done]).
  unfold ColorUtils.normalizeColor.
  destruct (startsWith "#" color) eqn:Hs.
  - by rewrite Hs.
  - rewrite Hhash. split; [done |]. split; [done |].
    unfold ColorUtils.hexToRgb. by rewrite Hhash, Hs.
Qed.

(** X22: two retrievals share a cache entry only when they name the same
    record: for entity names without a colon, equal cache keys mean equal
    entity names and equal record ids. *)
Theorem cache_keys_tell_records_apart e i e' i' :
  includesChar ":" e = false → includesChar ":" e' = false →
  cacheKeyOf e i = cacheKeyOf e' i' → e = e' ∧ i = i'.
Proof. apply cacheKeyOf_injective. Qed.

(** ** Method arguments *)

Lemma argsMatch_no_paren s : includesChar "(" s = false → argsMatch s = None.
Proof.
  induction s as [|c s IH]; [done |]. simpl. intros Hno.
  apply orb_false_elim in Hno as [Hc Hs]. rewrite Hc. by apply IH.
Qed.

Lemma argsMatch_skip pre s : includesChar "(" pre = false → argsMatch (pre +:+ s) = argsMatch s.
Proof.
  induction pre as [|c pre IH]; [done |]. simpl. intros Hno.
  apply orb_false_elim in Hno as [Hc Hpre].
  change (String c pre +:+ s) with (String c (pre +:+ s)). simpl. rewrite Hc. by apply IH.
Qed.

Lemma beforeLast_none c a : includesChar c a = false → beforeLast c a = None.
Proof.
  induction a as [|x a IH]; [done |]. simpl. intros Hno.
  apply orb_false_elim in Hno as [Hx Ha]. by rewrite (IH Ha), Hx.
Qed.

Lemma beforeLast_end c a :
  includesChar c a = false → beforeLast c (a +:+ String c "") = Some a.
Proof.
  induction a as [|x a IH]; intros Hno.
  - change (EmptyString +:+ String c "") with (String c ""). simpl.
    by rewrite Ascii.eqb_refl.
  - simpl in Hno. apply orb_false_elim in Hno as [Hx Ha].
    change (String x a +:+ String c "") with (String x (a +:+ String c "")). simpl.
    by rewrite (IH Ha).
Qed.

Lemma allChars_append p a b : allChars p (a +:+ b) = allChars p a && allChars p b.
Proof.
  induction a as [|x a IH]; [done |].
  change (String x a +:+ b) with (String x (a +:+ b)). simpl. by rewrite IH, andb_assoc.
Qed.

Lemma span_stops_inside p args c :
  allChars p args = false → includesChar c args = false →
  includesChar c (spanChars p (args +:+ String c "")).1 = false.
Proof.
  induction args as [|x args IH]; [done |]. simpl. intros Hall Hno.
  apply orb_false_elim in Hno as [Hx Hargs].
  change (String x args +:+ String c "") with (String x (args +:+ String c "")). simpl.
  destruct (p x); [|done]. simpl in Hall. specialize (IH Hall Hargs).
  destruct (spanChars p (args +:+ String c "")) as [a b]. simpl in *. by rewrite Hx, IH.
Qed.

Lemma notParen_split args :
  allChars notParen args = true →
  includesChar "(" args = false ∧ includesChar ")" args = false.
Proof.
  induction args as [|x args IH]; [done |]. simpl. intros Hall.
  apply andb_true_iff in Hall as [Hx Hargs]. destruct (IH Hargs) as [-> ->].
  unfold notParen in Hx. apply andb_true_iff in Hx as [H1 H2].
  apply negb_true_iff in H1, H2. by rewrite H1, H2.
Qed.

(** X23: for a method suffix [.name(args)], the resolver reads [name] as
    the method and, when the argument text is on one line, the arguments
    are its comma-separated pieces, trimmed, the empty ones dropped; when
    the argument text holds a line break the method gets no argument at
    all. *)
Theorem method_arguments_are_read_from_one_line ident args :
  allChars isIdentChar ident = true →
  allChars notParen args = true →
  methodNameOf ("." +:+ ident +:+ "(" +:+ args +:+ ")") = ident ∧
  methodArgsOf ("." +:+ ident +:+ "(" +:+ args +:+ ")")
  = if allChars notLineTerminator args
    then List.filter (fun arg => negb (String.eqb arg ""))
           (List.map trim (splitOn "," args))
    else [].
Proof.
  intros Hident Hargs. split; [by apply methodNameOf_call |].
  destruct (notParen_split args Hargs) as [Hopen Hclose].
  unfold methodArgsOf.
  assert (Hskip : argsMatch ("." +:+ ident +:+ "(" +:+ args +:+ ")")
                  = argsMatch (String "(" (args +:+ ")"))).
  { rewrite <- (argsMatch_skip ("." +:+ ident) (String "(" (args +:+ ")"))).
    - by rewrite append_assoc.
    - change ("." +:+ ident) with (String "." ident). simpl.
      by apply identChars_no_paren. }
  rewrite Hskip. simpl argsMatch. fold notLineTerminator.
  destruct (allChars notLineTerminator args) eqn:Hline.
  - rewrite spanChars_all by (rewrite allChars_append, Hline; reflexivity).
    simpl fst. by rewrite beforeLast_end.
  - rewrite beforeLast_none by by apply span_stops_inside.
    rewrite argsMatch_no_paren; [done |].
    clear -Hopen. induction args as [|x args IH]; [done |]. simpl in *.
    apply orb_false_elim in Hopen as [Hx Ha].
    change (String x args +:+ ")") with (String x (args +:+ ")")). simpl.
    by rewrite Hx, IH.
Qed.

Lemma lastChar_end s c : lastChar (s +:+ String c "") = Some c.
Proof.
  induction s as [|x s IH]; [done |].
  change (String x s +:+ String c "") with (String x (s +:+ String c "")). simpl.
  rewrite IH. by destruct s.
Qed.

Lemma dropLastChar_end s c : dropLastChar (s +:+ String c "") = s.
Proof.
  induction s as [|x s IH]; [done |].
  change (String x s +:+ String c "") with (String x (s +:+ String c "")). simpl.
  rewrite IH. by destruct s.
Qed.

(** X24: an argument that is not JSON and stands between two quote
    characters, single or double and not necessarily the same, is passed
    to the method as the text between them, when that text is on one
    line. *)
Theorem quoted_argument_is_passed_unquoted (h : Host) q q' s :
  isQuote q = true → isQuote q' = true →
  allChars notLineTerminator s = true →
  JSON_parse h (String q (s +:+ String q' "")) = None →
  parseArg h (String q (s +:+ String q' "")) = VStr s.
Proof.
  intros Hq Hq' Hline Hjson. unfold parseArg. rewrite Hjson. f_equal.
  unfold stripQuotes. rewrite lastChar_end, dropLastChar_end, Hq, Hq'.
  fold notLineTerminator. by rewrite Hline.
Qed.

(** ** Concrete runs of the further properties *)

Lemma template_without_braces_is_unchanged_witness :
  extractFieldRefs "Open the record" = [] ∧
  asyncReplaceDynamicValues crmHost (Some contactRecord) (Some "Open the record")
    emptyComponent = ("Open the record", emptyComponent).
Proof.
  apply (template_without_braces_is_unchanged crmHost contactRecord
           "Open the record" emptyComponent).
  reflexivity.
Defined.

Lemma single_token_is_replaced_by_its_value_witness :
  asyncReplaceDynamicValues crmHost (Some contactRecord)
    (Some ("Hello " +:+ ("{" +:+ "fullname" +:+ "}") +:+ "!")) emptyComponent
  = ("Hello " +:+ toJsString crmHost (getField contactRecord "fullname") +:+ "!",
     emptyComponent).
Proof.
  apply (single_token_is_replaced_by_its_value crmHost contactRecord
           "Hello " "fullname" "!" emptyComponent);
    try reflexivity; discriminate.
Defined.

Lemma evaluateAsync_agrees_with_evaluate_witness :
  ExpressionEvaluator.evaluateAsync pickyHost contactRecord "{fullname} != null"
    ExpressionEvaluator.newEvaluator
  = ExpressionEvaluator.evaluate pickyHost contactRecord "{fullname} != null"
      ExpressionEvaluator.newEvaluator ∧
  ExpressionEvaluator.requests
    (ExpressionEvaluator.evaluateAsync pickyHost contactRecord "{fullname} != null"
       ExpressionEvaluator.newEvaluator).2
  = ExpressionEvaluator.requests ExpressionEvaluator.newEvaluator.
Proof.
  apply (evaluateAsync_agrees_with_evaluate pickyHost contactRecord
           "{fullname} != null" ExpressionEvaluator.newEvaluator).
  reflexivity.
Defined.

Lemma retrieve_again_is_served_from_cache_witness :
  retrieveRecordWithCache (plainHost noRecords) "account" "c1" 2 fetchedComponent
  = (Returned accountRecord, fetchedComponent).
Proof.
  apply (retrieve_again_is_served_from_cache crmHost "account" "c1" 0 emptyComponent
           accountRecord fetchedComponent).
  vm_compute. reflexivity.
Defined.

Lemma retrieve_fetches_once_and_caches_witness :
  ∃ st', retrieveRecordWithCache crmHost "account" "c1" 0 stuckComponent
           = (Returned accountRecord, st') ∧
         recordCache st'
           = <[cacheKeyOf "account" "c1" := loadedEntry accountRecord]>
               (recordCache stuckComponent) ∧
         webRequests st' = webRequests stuckComponent ++ [("account", "c1")] ∧
         fetchedRecordKeys st'
           = {[cacheKeyOf "account" "c1"]} ∪ fetchedRecordKeys stuckComponent.
Proof.
  apply (retrieve_fetches_once_and_caches crmHost "account" "c1" 0 stuckComponent
           accountRecord); reflexivity.
Defined.

Lemma handlePostSave_forces_refetch_witness :
  webRequests (retrieveRecordWithCache crmHost "account" "c1" 0
                 (handlePostSave fetchedComponent)).2
    = webRequests fetchedComponent ++ [("account", "c1")] ∧
  ∀ k, k ∉ fetchedRecordKeys fetchedComponent →
       recordCache (handlePostSave fetchedComponent) !! k
       = recordCache fetchedComponent !! k.
Proof.
  apply (handlePostSave_forces_refetch crmHost "account" "c1" 0 fetchedComponent).
  vm_compute. reflexivity.
Defined.

Lemma no_loading_marker_outlives_a_pass_witness :
  settled (resolveConfigs pickyHost (Some contactRecord) contactRecord
             [button "{parentcustomerid.name}" 1 None]
             (emptyComponent, Some ExpressionEvaluator.newEvaluator)).2.1.
Proof.
  apply (no_loading_marker_outlives_a_pass pickyHost (Some contactRecord) contactRecord
           [button "{parentcustomerid.name}" 1 None]
           (emptyComponent, Some ExpressionEvaluator.newEvaluator)).
  intros k e Hk. simpl in Hk. rewrite lookup_empty in Hk. discriminate.
Defined.



Lemma six_digit_colour_round_trip_witness :
  ColorUtils.hexToRgb ("#" +:+ "1267B4") = ColorUtils.hexToRgb "1267B4" ∧
  ColorUtils.rgbToHex (ColorUtils.red (ColorUtils.hexToRgb "1267B4"))
    (ColorUtils.green (ColorUtils.hexToRgb "1267B4"))
    (ColorUtils.blue (ColorUtils.hexToRgb "1267B4"))
  = "#" +:+ toLowerCase "1267B4".
Proof. apply (six_digit_colour_round_trip "1267B4"); reflexivity. Defined.

Lemma cache_keys_tell_records_apart_witness :
  "account" = "account" ∧ "c1" = "c1".
Proof.
  apply (cache_keys_tell_records_apart "account" "c1" "account" "c1"); reflexivity.
Defined.

Lemma method_arguments_are_read_from_one_line_witness :
  methodNameOf ("." +:+ "toFixed" +:+ "(" +:+ "2, 'x'" +:+ ")") = "toFixed" ∧
  methodArgsOf ("." +:+ "toFixed" +:+ "(" +:+ "2, 'x'" +:+ ")")
  = if allChars notLineTerminator "2, 'x'"
    then List.filter (fun arg => negb (String.eqb arg ""))
           (List.map trim (splitOn "," "2, 'x'"))
    else [].
Proof.
  apply (method_arguments_are_read_from_one_line "toFixed" "2, 'x'"); reflexivity.
Defined.

Lemma quoted_argument_is_passed_unquoted_witness :
  parseArg crmHost (String "'" ("en-US" +:+ String "'" "")) = VStr "en-US".
Proof.
  apply (quoted_argument_is_passed_unquoted crmHost "'" "'" "en-US"); reflexivity.
Defined.

(** * The evaluator's answer and the visible buttons *)

Lemma splitOn_append c x s :
  includesChar c x = false →
  splitOn c (x +:+ String c s) = x :: splitOn c s.
Proof.
  induction x as [|a x IH]; intros Hx.
  - simpl. by rewrite Ascii.eqb_refl.
  - simpl in Hx. apply orb_false_elim in Hx as [Ha Hx]. rewrite append_cons. simpl.
    rewrite Ha. by rewrite IH.
Qed.

Lemma splitOn_joinWith c parts :
  parts ≠ [] → Forall (fun part => includesChar c part = false) parts →
  splitOn c (joinWith (String c EmptyString) parts) = parts.
Proof.
  induction parts as [|x parts IH]; [done |]. intros _ Hall.
  inversion Hall as [|? ? Hx Hrest]; subst. destruct parts as [|y parts].
  - simpl. by apply splitOn_no_separator.
  - rewrite joinWith_cons. change (x +:+ String c EmptyString +:+ ?s) with (x +:+ String c s).
    rewrite splitOn_append by done. by rewrite IH.
Qed.

Lemma initParts_dotted c path :
  includesChar c path = true →
  initParts (splitOn c path) ≠ [] ∧
  Forall (fun part => includesChar c part = false) (initParts (splitOn c path)).
Proof.
  intros Hdot. pose proof (splitOn_parts_plain c path) as Hall.
  destruct (splitOn_separator c path Hdot) as (a & b & rest & Hs). rewrite Hs in *.
  unfold initParts. split; [done |].
  clear Hs. revert Hall. generalize (a :: b :: rest). intros l.
  induction l as [|x l IH]; [done |]. intros Hall. inversion Hall; subst.
  destruct l; [constructor |]. change (List.removelast (x :: s :: l))
    with (x :: List.removelast (s :: l)). constructor; [done | by apply IH].
Qed.

Section Resolution.
Context (h : Host) (record : JsRecord).

Lemma lookupHop_target current lookup ev :
  (ExpressionEvaluator.lookupHop h current lookup ev).1 = hopTarget h current lookup.
Proof.
  unfold ExpressionEvaluator.lookupHop, hopTarget, ExpressionEvaluator.retrieveRecord.
  destruct (truthy (getField current (idFieldOf lookup)));
    destruct (truthy (getField current (logicalNameFieldOf lookup))); simpl; try done.
  by destruct (webAPI_retrieveRecord h _ _).
Qed.

Lemma fetchNextLevels_target lookups result ev :
  (ExpressionEvaluator.fetchNextLevels h lookups result ev).1 = chainTarget h result lookups.
Proof.
  revert result ev. induction lookups as [|l rest IH]; intros result ev; simpl; [done |].
  rewrite <- (lookupHop_target result l ev).
  destruct (ExpressionEvaluator.lookupHop h result l ev) as [[next|] ev1]; simpl; [|done].
  apply IH.
Qed.

Lemma fetchRelatedRecord_target lookupPath ev :
  (ExpressionEvaluator.fetchRelatedRecord h record lookupPath ev).1
  = relatedRecordOf h record lookupPath.
Proof.
  destruct lookupPath as [|first rest]; [done |]. simpl.
  rewrite <- (lookupHop_target record first ev).
  destruct (ExpressionEvaluator.lookupHop h record first ev) as [[next|] ev1]; simpl; [|done].
  apply fetchNextLevels_target.
Qed.

Lemma coherent_new : coherent h record ExpressionEvaluator.newEvaluator.
Proof. intros key r Hc. simpl in Hc. by rewrite lookup_empty in Hc. Qed.

Lemma coherent_logTo lvl msg ev :
  coherent h record ev → coherent h record (ExpressionEvaluator.logTo lvl msg ev).
Proof. done. Qed.

(** One dotted reference: the value read is the one the reference stands
    for; the cache stays coherent, only grows, and afterwards holds the
    related record of the reference when there is one. *)
Lemma getRelatedFieldValue_resolves path ev :
  includesChar "." path = true →
  coherent h record ev →
  let res := ExpressionEvaluator.getRelatedFieldValue h record path ev in
  let lookupPath := initParts (splitOn "." path) in
  res.1 = referenceValue h record path ∧
  coherent h record res.2 ∧
  ExpressionEvaluator.relatedRecordsCache ev ⊆ ExpressionEvaluator.relatedRecordsCache res.2 ∧
  ExpressionEvaluator.relatedRecordsCache res.2 !! joinWith "." lookupPath
    = relatedRecordOf h record lookupPath ∧
  ExpressionEvaluator.requests ev `prefix_of` ExpressionEvaluator.requests res.2.
Proof.
  intros Hdot Hcoh res lookupPath. subst res.
  destruct (initParts_dotted "." path Hdot) as [Hne Hplain]. fold lookupPath in Hne, Hplain.
  pose proof (splitOn_joinWith "." lookupPath Hne Hplain) as Hkey.
  unfold referenceValue. rewrite Hdot. cbv zeta. fold lookupPath.
  destruct (ExpressionEvaluator.relatedRecordsCache ev !! joinWith "." lookupPath)
    as [r|] eqn:Hc.
  - rewrite (getRelatedFieldValue_cached h record path ev r Hc). cbn [fst snd].
    pose proof (Hcoh _ _ Hc) as Hr. rewrite Hkey in Hr. rewrite Hr.
    split; [done |]. split; [done |]. split; [done |]. split; [by rewrite Hc | done].
  - unfold ExpressionEvaluator.getRelatedFieldValue. cbv zeta. fold lookupPath. rewrite Hc.
    pose proof (fetchRelatedRecord_target lookupPath ev) as Htarget.
    destruct (evaluator_fetchRelatedRecord_effect h record lookupPath ev)
      as (Hcache & added & Hreq & _).
    destruct (ExpressionEvaluator.fetchRelatedRecord h record lookupPath ev) as [[r|] ev1];
      cbn [fst snd] in *; rewrite <- Htarget.
    + assert (Hrest :
        coherent h record
          {| ExpressionEvaluator.relatedRecordsCache :=
               <[joinWith "." lookupPath := r]> (ExpressionEvaluator.relatedRecordsCache ev1);
             ExpressionEvaluator.requests := ExpressionEvaluator.requests ev1;
             ExpressionEvaluator.console := ExpressionEvaluator.console ev1 |} ∧
        ExpressionEvaluator.relatedRecordsCache ev
          ⊆ <[joinWith "." lookupPath := r]> (ExpressionEvaluator.relatedRecordsCache ev1) ∧
        <[joinWith "." lookupPath := r]> (ExpressionEvaluator.relatedRecordsCache ev1)
          !! joinWith "." lookupPath = Some r ∧
        ExpressionEvaluator.requests ev `prefix_of` ExpressionEvaluator.requests ev1).
      { split; [|split; [|split]].
        - intros key r' Hk. simpl in Hk.
          destruct (decide (key = joinWith "." lookupPath)) as [->|Hneq].
          + rewrite lookup_insert_eq in Hk. injection Hk as <-. by rewrite Hkey.
          + rewrite lookup_insert_ne in Hk by done. rewrite Hcache in Hk. by apply Hcoh.
        - rewrite Hcache. by apply insert_subseteq.
        - apply lookup_insert_eq.
        - rewrite Hreq. by apply prefix_app_r. }
      by destruct (getField r (lastPart (splitOn "." path))).
    + split; [done |]. split; [intros key r' Hk; rewrite Hcache in Hk; by apply Hcoh |].
      split; [by rewrite Hcache |]. split; [by rewrite Hcache |].
      rewrite Hreq. by apply prefix_app_r.
Qed.

(** The data object that [createDataObjectAsync] builds is the data
    object of the references. *)
Lemma createDataObjectAsync_resolves refs data ev :
  coherent h record ev →
  let res := ExpressionEvaluator.createDataObjectAsync h record refs data ev in
  res.1 = data ++ resolvedData h record refs ∧
  coherent h record res.2 ∧
  ExpressionEvaluator.relatedRecordsCache ev ⊆ ExpressionEvaluator.relatedRecordsCache res.2 ∧
  (∀ r, r ∈ refs → includesChar "." r = true →
     ExpressionEvaluator.relatedRecordsCache res.2
       !! joinWith "." (initParts (splitOn "." r))
     = relatedRecordOf h record (initParts (splitOn "." r))) ∧
  ExpressionEvaluator.requests ev `prefix_of` ExpressionEvaluator.requests res.2.
Proof.
  revert data ev. induction refs as [|x refs IH]; intros data ev Hcoh;
    cbn [ExpressionEvaluator.createDataObjectAsync].
  { split; [unfold resolvedData; simpl; by rewrite app_nil_r |].
    split; [done |]. split; [done |]. split; [|done].
    intros r Hr. by apply elem_of_nil in Hr. }
  change (resolvedData h record (x :: refs))
    with ((x, ExpressionEvaluator.convertValueToProperType (referenceValue h record x))
          :: resolvedData h record refs).
  assert (Hfinal : ∀ ev' : ExpressionEvaluator.Evaluator,
    coherent h record ev' →
    ∀ r x', ExpressionEvaluator.relatedRecordsCache ev'
              !! joinWith "." (initParts (splitOn "." r)) = Some x' →
            includesChar "." r = true →
            relatedRecordOf h record (initParts (splitOn "." r)) = Some x').
  { intros ev' Hcoh' r x' Hk Hdot. apply Hcoh' in Hk.
    destruct (initParts_dotted "." r Hdot) as [Hne Hplain].
    by rewrite splitOn_joinWith in Hk. }
  destruct (includesChar "." x) eqn:Hx.
  - destruct (getRelatedFieldValue_resolves x ev Hx Hcoh) as (Hv & Hcoh1 & Hsub1 & Hkey1 & Hreq1).
    destruct (ExpressionEvaluator.getRelatedFieldValue h record x ev) as [v ev1].
    cbn [fst snd] in *. subst v.
    destruct (IH (data ++ [(x, ExpressionEvaluator.convertValueToProperType
                                 (referenceValue h record x))]) ev1 Hcoh1)
      as (Hdata & Hcoh2 & Hsub2 & Hkeys & Hreq2).
    rewrite <- app_assoc in Hdata.
    split; [exact Hdata |]. split; [exact Hcoh2 |]. split; [by etrans |].
    split; [|by etrans].
    intros r Hr Hdot. apply elem_of_cons in Hr as [->|Hr]; [|by apply Hkeys].
    destruct (relatedRecordOf h record (initParts (splitOn "." x))) as [x'|] eqn:Hrel.
    + by apply (lookup_weaken _ _ _ _ Hkey1).
    + apply eq_None_not_Some. intros [x' Hk].
      pose proof (Hfinal _ Hcoh2 x x' Hk Hx) as Hcontra. congruence.
  - assert (Href : referenceValue h record x = getField record x)
      by (unfold referenceValue; by rewrite Hx).
    rewrite Href.
    destruct (IH (data ++ [(x, ExpressionEvaluator.convertValueToProperType
                                 (getField record x))]) ev Hcoh)
      as (Hdata & Hcoh2 & Hsub2 & Hkeys & Hreq2).
    rewrite <- app_assoc in Hdata.
    split; [exact Hdata |]. split; [exact Hcoh2 |]. split; [exact Hsub2 |].
    split; [|exact Hreq2].
    intros r Hr Hdot. apply elem_of_cons in Hr as [->|Hr]; [congruence | by apply Hkeys].
Qed.

(** The answer of [evaluateAsync] depends on the expression alone. *)
Lemma evaluateAsync_answer expression ev :
  coherent h record ev →
  (ExpressionEvaluator.evaluateAsync h record expression ev).1
    = evaluatesTrue h record expression ∧
  coherent h record (ExpressionEvaluator.evaluateAsync h record expression ev).2.
Proof.
  intros Hcoh. unfold ExpressionEvaluator.evaluateAsync, evaluatesTrue.
  destruct (String.eqb expression ""); [done |].
  destruct (createDataObjectAsync_resolves
              (ExpressionEvaluator.extractFieldReferences expression) [] ev Hcoh)
    as (Hdata & Hcoh' & _).
  destruct (ExpressionEvaluator.createDataObjectAsync h record _ [] ev) as [data ev'].
  cbn [fst snd] in *. subst data. unfold ExpressionEvaluator.safeEvaluateWithData.
  by destruct (runExpression h expression _ record).
Qed.

End Resolution.

Section Visibility.
Context (h : Host).


(** *** The visible buttons *)

Lemma visibilityCheck_shown evaluatorRecord expr ev :
  (∀ evs, ev = Some evs → coherent h evaluatorRecord evs) →
  let res := visibilityCheck h evaluatorRecord expr ev in
  res.1 = match expr with
          | None => true
          | Some e => String.eqb e ""
                      || (holdsEvaluator ev && evaluatesTrue h evaluatorRecord e)
          end ∧
  holdsEvaluator res.2 = holdsEvaluator ev ∧
  (∀ evs, res.2 = Some evs → coherent h evaluatorRecord evs).
Proof.
  intros Hcoh. unfold visibilityCheck. destruct expr as [e|]; [|done].
  destruct (String.eqb e "") eqn:He; [done |]. destruct ev as [evs|]; [|done].
  destruct (evaluateAsync_answer h evaluatorRecord e evs (Hcoh evs eq_refl)) as [Hans Hcoh'].
  destruct (ExpressionEvaluator.evaluateAsync h evaluatorRecord e evs) as [b evs'].
  cbn [fst snd] in *. simpl. split; [done |]. split; [done |]. by intros ? [= <-].
Qed.

Lemma resolvedCopy_from record config st :
  resolvedFrom config (resolvedCopy h record config st).1.
Proof.
  unfold resolvedCopy.
  destruct (asyncReplaceDynamicValues h record (Some (theia_buttonlabel config)) st)
    as [label st1].
  destruct (asyncReplaceDynamicValues h record (theia_buttontooltip config) st1)
    as [tooltip st2].
  destruct (asyncReplaceDynamicValues h record (Some (theia_url config)) st2)
    as [url st3].
  destruct (asyncReplaceDynamicValues h record (theia_actionscript config) st3)
    as [script st4].
  by repeat split.
Qed.

Lemma shown_copy evaluatorRecord held c r :
  resolvedFrom c r → shown h evaluatorRecord held r = shown h evaluatorRecord held c.
Proof. intros (_ & _ & _ & He & _). unfold shown. by rewrite He. Qed.

(** One turn of the pass: the copy of the config, kept when the config is
    to be shown. *)
Lemma resolveConfig_shown record evaluatorRecord config st ev :
  (∀ evs, ev = Some evs → coherent h evaluatorRecord evs) →
  let res := resolveConfig h record evaluatorRecord config (st, ev) in
  res.1 = (if shown h evaluatorRecord (holdsEvaluator ev) config
           then Some (resolvedCopy h record config st).1 else None) ∧
  res.2.1 = (resolvedCopy h record config st).2 ∧
  holdsEvaluator res.2.2 = holdsEvaluator ev ∧
  (∀ evs, res.2.2 = Some evs → coherent h evaluatorRecord evs).
Proof.
  intros Hcoh. unfold resolveConfig, resolvedCopy.
  destruct (asyncReplaceDynamicValues h record (Some (theia_buttonlabel config)) st)
    as [label st1].
  destruct (asyncReplaceDynamicValues h record (theia_buttontooltip config) st1)
    as [tooltip st2].
  destruct (asyncReplaceDynamicValues h record (Some (theia_url config)) st2)
    as [url st3].
  destruct (asyncReplaceDynamicValues h record (theia_actionscript config) st3)
    as [script st4].
  destruct (visibilityCheck_shown evaluatorRecord (theia_visibilityexpression config) ev Hcoh)
    as (Hvis & Hheld & Hcoh').
  destruct (visibilityCheck h evaluatorRecord (theia_visibilityexpression config) ev)
    as [visible ev'].
  cbn [fst snd] in *. unfold shown. rewrite <- Hvis. by destruct visible.
Qed.

Lemma resolveSorted_shown record evaluatorRecord sortedConfigs st ev :
  (∀ evs, ev = Some evs → coherent h evaluatorRecord evs) →
  let res := resolveSorted h record evaluatorRecord sortedConfigs (st, ev) in
  let copies := resolvedCopies h record sortedConfigs st in
  res.1 = List.filter (shown h evaluatorRecord (holdsEvaluator ev)) copies.1 ∧
  res.2.1 = copies.2.
Proof.
  revert st ev. induction sortedConfigs as [|config rest IH]; intros st ev Hcoh; [done |].
  cbn [resolveSorted resolvedCopies].
  destruct (resolveConfig_shown record evaluatorRecord config st ev Hcoh)
    as (Hr & Hst & Hheld & Hcoh').
  pose proof (resolvedCopy_from record config st) as Hfrom.
  destruct (resolveConfig h record evaluatorRecord config (st, ev)) as [r [st1 ev1]].
  destruct (resolvedCopy h record config st) as [copy st1'].
  cbn [fst snd] in *. subst st1'.
  destruct (IH st1 ev1 Hcoh') as [Hout Hfinal]. rewrite Hheld in Hout.
  destruct (resolveSorted h record evaluatorRecord rest (st1, ev1)) as [newConfigs w2].
  destruct (resolvedCopies h record rest st1) as [copies st2].
  cbn [fst snd List.filter] in *. rewrite (shown_copy _ _ _ _ Hfrom).
  split; [|done]. subst r newConfigs.
  by destruct (shown h evaluatorRecord (holdsEvaluator ev) config).
Qed.

Lemma resolvedCopies_from record sortedConfigs st :
  Forall2 resolvedFrom sortedConfigs (resolvedCopies h record sortedConfigs st).1.
Proof.
  revert st. induction sortedConfigs as [|config rest IH]; intros st; [constructor |].
  cbn [resolvedCopies]. pose proof (resolvedCopy_from record config st) as Hfrom.
  destruct (resolvedCopy h record config st) as [copy st1]. specialize (IH st1).
  destruct (resolvedCopies h record rest st1) as [copies st2]. by constructor.
Qed.

Lemma Forall2_filter {A B} (R : A → B → Prop) (f : A → bool) (g : B → bool) l1 l2 :
  (∀ x y, R x y → g y = f x) →
  Forall2 R l1 l2 → Forall2 R (List.filter f l1) (List.filter g l2).
Proof.
  intros Hfg. induction 1 as [|x y l1 l2 Hxy _ IH]; [constructor |].
  simpl. rewrite (Hfg x y Hxy). destruct (f x); [by constructor | done].
Qed.

Lemma filter_sublist {A} (f : A → bool) l : List.filter f l `sublist_of` l.
Proof.
  induction l as [|x l IH]; [done |]. simpl.
  destruct (f x); [by apply sublist_skip | by apply sublist_cons].
Qed.

(** C3, as amended: one pass over any config list, for a loaded record,
    gives the resolved copies of the configs that are to be shown, in the
    order of the stably sorted input: those without a visibility
    expression and, when the component holds an evaluator, those whose
    expression evaluates true; without an evaluator a config with an
    expression is left out.  The copies are those that resolving the
    templates of all the sorted configs in sequence gives; the output is
    sorted by position, the sort permutes the input, and configs of equal
    position stay in their input order. *)
Theorem C3_resolved_list_sorted_stable_shown record evaluatorRecord configs st ev :
  (∀ evs, ev = Some evs → coherent h evaluatorRecord evs) →
  let res := resolveConfigs h (Some record) evaluatorRecord configs (st, ev) in
  let sorted := sortConfigs configs in
  let copies := resolvedCopies h (Some record) sorted st in
  let kept := List.filter (shown h evaluatorRecord (holdsEvaluator ev)) sorted in
  res.1 = List.filter (shown h evaluatorRecord (holdsEvaluator ev)) copies.1 ∧
  res.2.1 = copies.2 ∧
  Forall2 resolvedFrom sorted copies.1 ∧
  Forall2 resolvedFrom kept res.1 ∧
  StronglySorted Z.le (positions res.1) ∧
  sorted ≡ₚ configs ∧
  StronglySorted Z.le (positions sorted) ∧
  (∀ p, filter (atPosition p) sorted = filter (atPosition p) configs) ∧
  (∀ p, filter (atPosition p) kept `sublist_of` filter (atPosition p) configs).
Proof.
  intros Hcoh res sorted copies kept. subst res. unfold resolveConfigs. fold sorted.
  destruct (resolveSorted_shown (Some record) evaluatorRecord sorted st ev Hcoh)
    as [Hout Hst]. fold copies in Hout, Hst.
  pose proof (resolvedCopies_from (Some record) sorted st) as Hcopies. fold copies in Hcopies.
  assert (Hkept : Forall2 resolvedFrom kept
                    (resolveSorted h (Some record) evaluatorRecord sorted (st, ev)).1).
  { rewrite Hout. apply Forall2_filter; [apply shown_copy | exact Hcopies]. }
  assert (Hsub : kept `sublist_of` sorted) by apply filter_sublist.
  split; [exact Hout |]. split; [exact Hst |]. split; [exact Hcopies |].
  split; [exact Hkept |]. split; [|split; [|split; [|split]]].
  - rewrite (resolvedFrom_positions kept _ Hkept).
    eapply sublist_sorted; [|apply sortConfigs_sorted].
    unfold positions. by apply fmap_sublist.
  - apply sortConfigs_perm.
  - apply sortConfigs_sorted.
  - intros p. apply sortConfigs_stable.
  - intros p. rewrite <- (sortConfigs_stable p configs). by apply sublist_filter_mono.
Qed.

End Visibility.

(** ** Concrete runs *)


(** C3 fails as stated: while the component holds no evaluator, a button
    whose expression is true of every record is left out. *)
Lemma C3_counterexample :
  let config := button "A" 1 (Some "true") in
  evaluatesTrue pickyHost contactRecord "true" = true ∧
  (ExpressionEvaluator.evaluateAsync pickyHost contactRecord "true"
     ExpressionEvaluator.newEvaluator).1 = true ∧
  (resolveConfigs pickyHost (Some contactRecord) contactRecord [config]
     (emptyComponent, None)).1 = [].
Proof. vm_compute. repeat split. Qed.

Lemma C3_resolved_list_sorted_stable_shown_witness :
  let configs := [button "B {fullname}" 2 None; button "A" 1 (Some "false");
                  button "C" 2 (Some "{fullname} != null"); button "D" 1 (Some "")] in
  let out := (resolveConfigs pickyHost (Some contactRecord) contactRecord configs
                (emptyComponent, Some ExpressionEvaluator.newEvaluator)).1 in
  out = List.filter (shown pickyHost contactRecord true)
          (resolvedCopies pickyHost (Some contactRecord) (sortConfigs configs)
             emptyComponent).1 ∧
  Forall2 resolvedFrom
    [button "D" 1 (Some ""); button "B {fullname}" 2 None;
     button "C" 2 (Some "{fullname} != null")] out ∧
  StronglySorted Z.le (positions out).
Proof.
  intros configs out.
  destruct (C3_resolved_list_sorted_stable_shown pickyHost contactRecord contactRecord
              configs emptyComponent (Some ExpressionEvaluator.newEvaluator))
    as (Hout & _ & _ & Hkept & Hsorted & _).
  - intros evs [= <-]. apply coherent_new.
  - split; [exact Hout |]. split; [exact Hkept | exact Hsorted].
Defined.
